(** * asciify: the glyph mapper, the resampler's geometry and the colour codec

A shallow embedding of the Go packages [convert], [scale] and [colour]
of EVODelavega/asciify, and of the single-file variant [main.go].

Conventions.
- Go's [int] and [uint] are the 64-bit types; [uint32], [uint8] and
  [rune] values are kept as [Z] with the wrap-around written out.
- [float64] is the kernel's binary64 type [float]; conversions between
  integers and floats go through its specification [SpecFloat].
- A Go [string] is its sequence of bytes; [string(r)] on a rune is its
  UTF-8 encoding.
- A run-time panic (index out of range, negative [make]) is [None].
- A goroutine that sends on a channel is the list of what it sends;
  the collector is run on the rows' messages row after row, and
  [schedule_facts] shows that any other order gives the same matrix. *)

From Stdlib Require Import ZArith List Lia Bool.
From Stdlib Require Import Strings.Byte Strings.String.
From Stdlib Require Import Floats Uint63.
From stdpp Require Import base option list.

Local Open Scope Z_scope.

(** ** Go strings and the pieces of [fmt], [strings] and [unicode/utf8] used *)

Module gostr.

Definition gostring : Type := list byte.

(** A string literal of ASCII characters. *)
Definition lit (s : String.string) : gostring := list_byte_of_string s.

Definition byte_of_Z (z : Z) : byte :=
  match Byte.of_N (Z.to_N z) with Some b => b | None => x00 end.

Definition Z_of_byte (b : byte) : Z := Z.of_N (Byte.to_N b).

(** U+FFFD, what an invalid rune is encoded as. *)
Definition RuneError : gostring := [xef; xbf; xbd].

(** [string(r)] and the verb [%c]: the UTF-8 encoding of a rune. *)
Definition EncodeRune (r : Z) : gostring :=
  if r <? 0 then RuneError
  else if r <=? 127 then [byte_of_Z r]
  else if r <=? 2047 then
    [byte_of_Z (Z.lor 192 (Z.shiftr r 6));
     byte_of_Z (Z.lor 128 (Z.land r 63))]
  else if (55296 <=? r) && (r <=? 57343) then RuneError
  else if r <=? 65535 then
    [byte_of_Z (Z.lor 224 (Z.shiftr r 12));
     byte_of_Z (Z.lor 128 (Z.land (Z.shiftr r 6) 63));
     byte_of_Z (Z.lor 128 (Z.land r 63))]
  else if r <=? 1114111 then
    [byte_of_Z (Z.lor 240 (Z.shiftr r 18));
     byte_of_Z (Z.lor 128 (Z.land (Z.shiftr r 12) 63));
     byte_of_Z (Z.lor 128 (Z.land (Z.shiftr r 6) 63));
     byte_of_Z (Z.lor 128 (Z.land r 63))]
  else RuneError.

(** [string(rs)] for a [[]rune]. *)
Definition string_of_runes (rs : list Z) : gostring :=
  concat (map EncodeRune rs).



(** [strings.Join]. *)
Fixpoint Join (elems : list gostring) (sep : gostring) : gostring :=
  match elems with
  | [] => []
  | [a] => a
  | a :: rest => a ++ sep ++ Join rest sep
  end.

(** [strings.TrimRight(s, cutset)] for a cutset of ASCII bytes: the
    trailing bytes of [s] that are in the cutset are removed. *)
Definition in_cutset (cutset : gostring) (b : byte) : bool :=
  existsb (Byte.eqb b) cutset.

Fixpoint TrimRight (s : gostring) (cutset : gostring) : gostring :=
  match s with
  | [] => []
  | b :: s' =>
      match TrimRight s' cutset with
      | [] => if in_cutset cutset b then [] else [b]
      | t => b :: t
      end
  end.

(** ["\n"] *)
Definition newline : gostring := [x0a].

Definition digits : gostring := lit "0123456789abcdef".

Definition digit (d : Z) : byte := nth (Z.to_nat d) digits "0"%byte.

Fixpoint fmt_d_go (fuel : nat) (n : Z) (acc : gostring) : gostring :=
  match fuel with
  | O => acc
  | S fuel' =>
      let acc' := digit (n mod 10) :: acc in
      if n / 10 =? 0 then acc' else fmt_d_go fuel' (n / 10) acc'
  end.

(** The verb [%d] on an unsigned operand. *)
Definition fmt_d (n : Z) : gostring :=
  fmt_d_go (S (Z.to_nat (Z.log2 n))) n [].

(** The verb [%02x] on a [uint8] operand: two lower-case hex digits. *)
Definition fmt_02x (v : Z) : gostring := [digit (v / 16); digit (v mod 16)].

End gostr.

(** ** IEEE 754 binary64 *)

Module Float64.

Definition float64 : Type := float.

(** [float64(n)] for an integer [n]: the nearest float, ties to even. *)
Definition of_Z (n : Z) : float64 :=
  SF2Prim (binary_normalize prec emax n 0 false).

Definition MinInt : Z := - 2 ^ 63.
Definition MaxInt : Z := 2 ^ 63 - 1.

(** The integer part of a finite float, truncated toward zero. *)
Definition trunc (x : spec_float) : option Z :=
  match x with
  | S754_zero _ => Some 0
  | S754_finite s m e =>
      let a :=
        if 0 <=? e then Z.pos m * 2 ^ e else Z.shiftr (Z.pos m) (- e) in
      Some (if s then - a else a)
  | _ => None
  end.

(** [int(x)]: the fraction is discarded; when the value does not fit an
    [int], or is not a number, Go leaves the result to the
    implementation, which is [None] here. *)
Definition to_int (x : float64) : option Z :=
  match trunc (Prim2SF x) with
  | Some n => if (MinInt <=? n) && (n <=? MaxInt) then Some n else None
  | None => None
  end.

(** [math.Round]: the nearest integer, halves away from zero; zeros,
    infinities and NaN are returned as they are. *)
Definition Round (x : float64) : float64 :=
  match Prim2SF x with
  | S754_finite s m e =>
      if 0 <=? e then x
      else
        let d := 2 ^ (- e) in
        let q := Z.pos m / d in
        let r := Z.pos m mod d in
        let n := if d <=? 2 * r then q + 1 else q in
        SF2Prim (binary_normalize prec emax (if s then - n else n) 0 s)
  | _ => x
  end.

End Float64.

(** ** Package image, as far as the program looks at it *)

Module image.

(** What [color.Color.RGBA] returns: four [uint32] values. *)
Record RGBA : Type := mkRGBA { cR : Z; cG : Z; cB : Z; cA : Z }.

Record Point : Type := Pt { X : Z; Y : Z }.

Record Rectangle : Type := mkRectangle { Min : Point; Max : Point }.

(** [image.Rect]: the corners are put in order. *)
Definition Rect (x0 y0 x1 y1 : Z) : Rectangle :=
  let '(x0, x1) := if x1 <? x0 then (x1, x0) else (x0, x1) in
  let '(y0, y1) := if y1 <? y0 then (y1, y0) else (y0, y1) in
  mkRectangle (Pt x0 y0) (Pt x1 y1).

Definition Dx (r : Rectangle) : Z := X (Max r) - X (Min r).
Definition Dy (r : Rectangle) : Z := Y (Max r) - Y (Min r).

(** An [image.Image]: [Bounds()] and [At(x, y).RGBA()]. *)
Record Image : Type := mkImage { Bounds : Rectangle; At : Z -> Z -> RGBA }.

(** The contract of [color.Color.RGBA] on the colour channels: each is
    in [[0, 0xffff]].  Nothing is asked of alpha. *)
Definition wf_colour (c : RGBA) : Prop :=
  (0 <= cR c <= 65535) /\ (0 <= cG c <= 65535) /\ (0 <= cB c <= 65535).

Definition wf_image (img : Image) : Prop :=
  0 <= X (Max (Bounds img)) /\ 0 <= Y (Max (Bounds img)) /\
  forall x y, wf_colour (At img x y).

End image.

(** ** Package colour *)

Module colour.

Import gostr image.

(** [ResetColour = "\033[0m"] *)
Definition ResetColour : gostring := x1b :: lit "[0m".

(** [Colour256]: three [uint8] channels. *)
Record Colour256 : Type := mkColour256 { R : Z; G : Z; B : Z }.

Definition uint8 (v : Z) : Z := v mod 256.

(** [FromColor]: [nil] for a transparent pixel. *)
Definition FromColor (c : RGBA) : option Colour256 :=
  if cA c =? 0 then None
  else Some (mkColour256 (uint8 (cR c / 256)) (uint8 (cG c / 256))
                         (uint8 (cB c / 256))).

Inductive NumError : Type := ErrSyntax | ErrRange.

(** [lower(c)] of strconv: [c | ('x' - 'X')]. *)
Definition lower (c : Z) : Z := Z.lor c 32.

(** The [switch] of the digit loop: the value of the byte [c], if it is
    a digit or a letter. *)
Definition digit_value (c : Z) : option Z :=
  if (48 <=? c) && (c <=? 57) then Some (c - 48)
  else if (97 <=? lower c) && (lower c <=? 122) then Some (lower c - 97 + 10)
  else None.

(** The digit loop of [strconv.ParseUint], on [uint64]. *)
Fixpoint ParseUint_loop (base cutoff maxVal : Z) (s : gostring) (n : Z)
  : NumError + Z :=
  match s with
  | [] => inr n
  | c :: s' =>
      match digit_value (Z_of_byte c) with
      | None => inl ErrSyntax
      | Some d =>
          if base <=? d then inl ErrSyntax
          else if cutoff <=? n then inl ErrRange
          else
            let n := (n * base) mod 2 ^ 64 in
            let n1 := (n + d) mod 2 ^ 64 in
            if (n1 <? n) || (maxVal <? n1) then inl ErrRange
            else ParseUint_loop base cutoff maxVal s' n1
      end
  end.

(** [strconv.ParseUint(s, base, bitSize)] for an explicit base in
    [[2, 36]] and a bit size in [[1, 64]]: no sign, and no prefix (a
    prefix is looked for only when the base argument is 0). *)
Definition ParseUint (s : gostring) (base bitSize : Z) : NumError + Z :=
  match s with
  | [] => inl ErrSyntax
  | _ =>
      let cutoff := (2 ^ 64 - 1) / base + 1 in
      let maxVal := 2 ^ bitSize - 1 in
      ParseUint_loop base cutoff maxVal s 0
  end.

(** [FromHex] *)
Definition FromHex (hex : gostring) : NumError + Colour256 :=
  match ParseUint hex 16 32 with
  | inl err => inl err
  | inr val =>
      inr (mkColour256 (uint8 (Z.shiftr val 16))
                       (uint8 (Z.land (Z.shiftr val 8) 255))
                       (uint8 (Z.land val 255)))
  end.

(** [TrueEsc]: [fmt.Sprintf("\033[48;2;%d;%d;%dm", c.R, c.G, c.B)] *)
Definition TrueEsc (c : Colour256) : gostring :=
  x1b :: lit "[48;2;" ++ fmt_d (R c) ++ lit ";" ++ fmt_d (G c)
      ++ lit ";" ++ fmt_d (B c) ++ lit "m".

(** [Hex]: [fmt.Sprintf("0x%02x%02x%02x", c.R, c.G, c.B)] *)
Definition Hex (c : Colour256) : gostring :=
  lit "0x" ++ fmt_02x (R c) ++ fmt_02x (G c) ++ fmt_02x (B c).

(** [UInt] *)
Definition UInt (c : Colour256) : Z :=
  (Z.shiftl (R c) 16 + Z.shiftl (G c) 8 + B c) mod 2 ^ 64.

Definition wf_Colour256 (c : Colour256) : Prop :=
  (0 <= R c <= 255) /\ (0 <= G c <= 255) /\ (0 <= B c <= 255).

End colour.

(** ** Slices, [for range] over a channel *)

Module slice.

(** [s[i]] *)
Definition get {A : Type} (s : list A) (i : Z) : option A :=
  if 0 <=? i then s !! Z.to_nat i else None.

(** [s[i] = v] *)
Definition set {A : Type} (s : list A) (i : Z) (v : A) : option (list A) :=
  if (0 <=? i) && (i <? Z.of_nat (length s))
  then Some (<[Z.to_nat i := v]> s) else None.

(** [make([]T, n)], every element the zero value [z]. *)
Definition make {A : Type} (z : A) (n : Z) : option (list A) :=
  if 0 <=? n then Some (replicate (Z.to_nat n) z) else None.

(** [for m := range ch { body }] over what was sent, in the order it
    was received; it stops at the first panic. *)
Fixpoint range {S M : Type} (body : S -> M -> option S) (ch : list M)
  (st : S) : option S :=
  match ch with
  | [] => Some st
  | m :: ch' => st' ← body st m; range body ch' st'
  end.

End slice.

(** ** Package convert: the glyph mapper *)

Module convert.

Import gostr Float64 image colour.

(** [const CharStep = float64((65535.0 * 3.0) / 29.0)]: the constant
    expression is exact and is rounded once, which is the correctly
    rounded quotient of the two exact operands. *)
Definition CharStep : float64 := Eval cbv in ((65535 * 3) / 29)%float.

(** [var ASCIIChars = []rune("Ñ@#W$9876543210?!abc;:+=-,._ ")], as code
    points: U+00D1, then 28 ASCII characters. *)
Definition ASCIIChars : list Z :=
  [ 209; 64; 35; 87; 36; 57; 56; 55; 54; 53; 52; 51; 50; 49; 48;
    63; 33; 97; 98; 99; 59; 58; 43; 61; 45; 44; 46; 95; 32 ].

(** [emptyChar] and [emptySingleChar], the text after [%s]. *)
Definition emptyChar : gostring := lit "   ".
Definition emptySingleChar : gostring := lit " ".

Record PixelChar : Type := mkPixelChar { x : Z; y : Z; char : Z }.

Record ColourPixelChar : Type :=
  mkColourPixelChar { pc : PixelChar; c : option Colour256 }.

(** [r + g + b] on [uint32]. *)
Definition add_u32 (r g b : Z) : Z := (r + g + b) mod 2 ^ 32.

(** The body of the loop of [convertRow], up to the ramp look-up: the
    value of [i]. *)
Definition convertRow_i (reverse : bool) (p : RGBA) : option Z :=
  let cLen := Z.of_nat (length ASCIIChars) in
  if cA p =? 0 then Some (cLen - 1)
  else
    i ← to_int (of_Z (add_u32 (cR p) (cG p) (cB p)) / CharStep)%float;
    Some (if negb reverse then cLen - i else i).

(** [ASCIIChars[i%cLen]]: [%] truncates toward zero, and an index
    outside the slice panics. *)
Definition ramp (i : Z) : option Z :=
  slice.get ASCIIChars (Z.rem i (Z.of_nat (length ASCIIChars))).

(** [convertRow]: what is sent on [ch], in order. *)
Definition convertRow (img : Image) (y : Z) (reverse : bool)
  : option (list PixelChar) :=
  let max := X (Max (Bounds img)) in
  mapM (fun x =>
          i ← convertRow_i reverse (At img x y);
          ch ← ramp i;
          Some (mkPixelChar x y ch))
       (seqZ 0 max).

(** The value of [i] in [convertRowColour]; the source repeats the
    computation of [convertRow]. *)
Definition convertRowColour_i (reverse : bool) (p : RGBA) : option Z :=
  let cLen := Z.of_nat (length ASCIIChars) in
  if cA p =? 0 then Some (cLen - 1)
  else
    i ← to_int (of_Z (add_u32 (cR p) (cG p) (cB p)) / CharStep)%float;
    Some (if negb reverse then cLen - i else i).

(** [convertRowColour] *)
Definition convertRowColour (img : Image) (y : Z) (reverse : bool)
  : option (list ColourPixelChar) :=
  let max := X (Max (Bounds img)) in
  mapM (fun x =>
          let c := At img x y in
          i ← convertRowColour_i reverse c;
          ch ← ramp i;
          Some (mkColourPixelChar (mkPixelChar x y ch) (FromColor c)))
       (seqZ 0 max).

(** [rowColours]: no glyph is computed, [char] keeps its zero value. *)
Definition rowColours (img : Image) (y : Z) : list ColourPixelChar :=
  let max := X (Max (Bounds img)) in
  map (fun x => mkColourPixelChar (mkPixelChar x y 0)
                                  (FromColor (At img x y)))
      (seqZ 0 max).

(** The matrix [make([][]T, max.Y)] with each row [make([]T, max.X)].
    A row is made before its goroutine starts, so the collector only
    ever sees made rows. *)
Definition make_matrix {A : Type} (z : A) (max : Point)
  : option (list (list A)) :=
  if Y max <? 0 then None
  else if Y max =? 0 then Some []
  else row ← slice.make z (X max); Some (replicate (Z.to_nat (Y max)) row).

(** The rows' goroutines run concurrently; the collector receives their
    messages in some interleaving.  [in_row_order] is the one where the
    rows finish one after the other. *)
Definition in_row_order {M : Type} (rows : list (option (list M)))
  : option (list M) :=
  msgs ← mapM id rows; Some (concat msgs).

(** The body of the collector of [ImgToASCII]. *)
Definition collect (invert : bool) (matrix : list (list Z))
  (pc : PixelChar) : option (list (list Z)) :=
  row ← slice.get matrix (y pc);
  let i := x pc in
  let i := if invert then Z.of_nat (length row) - i - 1 else i in
  row' ← slice.set row i (char pc);
  slice.set matrix (y pc) row'.

(** [ImgToASCII], up to the populated matrix. *)
Definition ImgToASCII_matrix (img : Image) (negative invert : bool)
  : option (list (list Z)) :=
  let max := Max (Bounds img) in
  matrix ← make_matrix 0 max;
  ch ← in_row_order
         (map (fun y => convertRow img y negative) (seqZ 0 (Y max)));
  slice.range (collect invert) ch matrix.

(** [ImgToASCII] *)
Definition ImgToASCII (img : Image) (negative invert : bool)
  : option gostring :=
  matrix ← ImgToASCII_matrix img negative invert;
  let chunks := map string_of_runes matrix in
  Some (Join chunks newline).

(** The body of the collector of [ImgToASCIIColoured]:
    [fmt.Sprintf("%s%c", te, pc.char)] goes to the cell. *)
Definition collectColoured (invert : bool) (matrix : list (list gostring))
  (m : ColourPixelChar) : option (list (list gostring)) :=
  row ← slice.get matrix (y (pc m));
  let i := x (pc m) in
  let i := if invert then Z.of_nat (length row) - i - 1 else i in
  let te := match c m with Some c => TrueEsc c | None => [] end in
  row' ← slice.set row i (te ++ EncodeRune (char (pc m)));
  slice.set matrix (y (pc m)) row'.

Definition ImgToASCIIColoured_matrix (img : Image) (negative invert : bool)
  : option (list (list gostring)) :=
  let max := Max (Bounds img) in
  matrix ← make_matrix [] max;
  ch ← in_row_order
         (map (fun y => convertRowColour img y negative) (seqZ 0 (Y max)));
  slice.range (collectColoured invert) ch matrix.

(** [ImgToASCIIColoured] *)
Definition ImgToASCIIColoured (img : Image) (negative invert : bool)
  : option gostring :=
  matrix ← ImgToASCIIColoured_matrix img negative invert;
  let chunks := map (fun r => Join r []) matrix in
  Some (Join chunks newline ++ ResetColour).

(** The body of the collector of [ImgToPreview]:
    [fmt.Sprintf(format, cEsc)] goes to the cell. *)
Definition collectPreview (format : gostring)
  (matrix : list (list gostring)) (m : ColourPixelChar)
  : option (list (list gostring)) :=
  let cEsc := match c m with Some c => TrueEsc c | None => [] end in
  row ← slice.get matrix (y (pc m));
  row' ← slice.set row (x (pc m)) (cEsc ++ format);
  slice.set matrix (y (pc m)) row'.

Definition ImgToPreview_matrix (img : Image) (single : bool)
  : option (list (list gostring)) :=
  let max := Max (Bounds img) in
  matrix ← make_matrix [] max;
  let format := if single then emptySingleChar else emptyChar in
  ch ← in_row_order (map (fun y => Some (rowColours img y)) (seqZ 0 (Y max)));
  slice.range (collectPreview format) ch matrix.

(** [ImgToPreview] *)
Definition ImgToPreview (img : Image) (single : bool) : option gostring :=
  matrix ← ImgToPreview_matrix img single;
  let chunks := map (fun r => Join r ResetColour) matrix in
  let delim := ResetColour ++ newline in
  Some (Join chunks delim).

End convert.

(** ** Package scale: the geometry of the resampler *)

Module scale.

Import Float64 image.

Inductive Mode : Type :=
| NearestNeighbourScaling
| ApproxBilinearScaling
| BilinearScaling
| CatmullRomScaling.

(** [OrderLHQ] *)
Definition OrderLHQ : list Mode :=
  [ NearestNeighbourScaling; ApproxBilinearScaling; BilinearScaling;
    CatmullRomScaling ].

(** [ScaleOpts]: [Width] and [Height] are [uint]. *)
Record ScaleOpts : Type :=
  mkScaleOpts { Width : Z; Height : Z; Factor : float64; mode : Mode }.

(** [int(u)] for a [uint]: the same 64 bits. *)
Definition int_of_uint (u : Z) : Z := if u <? 2 ^ 63 then u else u - 2 ^ 64.

(** [uint(i)] for an [int]. *)
Definition uint_of_int (i : Z) : Z := i mod 2 ^ 64.

(** [getScaledXY] *)
Definition getScaledXY (opts : ScaleOpts) (src : Image) : option (Z * Z) :=
  if (Factor opts =? 0)%float
  then Some (int_of_uint (Width opts), int_of_uint (Height opts))
  else
    let max := Max (Bounds src) in
    let x := Round (of_Z (X max) * Factor opts)%float in
    let y := Round (of_Z (Y max) * Factor opts)%float in
    x ← to_int x; y ← to_int y; Some (x, y).

(** [Image], as far as its geometry: the bounds of [dst]. *)
Definition Image_bounds (src : Image) (opts : ScaleOpts)
  : option Rectangle :=
  '(x, y) ← getScaledXY opts src;
  Some (Rect 0 0 x y).

(** [FileToWindow] from the comment [determine factor] to the call of
    [Image]: the options that call is given.  [src] is the decoded
    file. *)
Definition FileToWindow_opts (src : Image) (opts : ScaleOpts) : ScaleOpts :=
  if negb (Width opts =? 0) && negb (Height opts =? 0)
     && negb (Factor opts =? 0)%float
  then
    let max := Max (Bounds src) in
    let '(factor, useFact) :=
      if Height opts <? uint_of_int (Y max) then
        let hf := (of_Z (Height opts) / of_Z (Y max))%float in
        if (hf <? Factor opts)%float then (hf, true)
        else (Factor opts, false)
      else (Factor opts, false) in
    let '(factor, useFact) :=
      if Width opts <? uint_of_int (X max) then
        let hf := (of_Z (Width opts) / of_Z (X max))%float in
        if (hf <? factor)%float then (hf, true) else (factor, useFact)
      else (factor, useFact) in
    let factor := if (1 <? factor)%float then 1%float else factor in
    if useFact then mkScaleOpts 0 0 factor (mode opts)
    else mkScaleOpts (Width opts) (Height opts) factor (mode opts)
  else opts.

(** [FileToWindow] on the decoded file: the bounds of the scaled image. *)
Definition FileToWindow (src : Image) (opts : ScaleOpts)
  : option Rectangle :=
  Image_bounds src (FileToWindow_opts src opts).

End scale.

(** ** The single-file variant, [main.go] *)

Module main.

Import gostr image.

(** [CharStep = 34 * 257] *)
Definition CharStep : Z := 34 * 257.

(** [ASCIIChars], the runes of the literal as the file has it: U+00C3,
    U+2018, then 28 ASCII characters. *)
Definition ASCIIChars : list Z :=
  [ 195; 8216; 64; 35; 87; 36; 57; 56; 55; 54; 53; 52; 51; 50; 49; 48;
    63; 33; 97; 98; 99; 59; 58; 43; 61; 45; 44; 46; 95; 32 ].

Record PixelChar : Type := mkPixelChar { x : Z; y : Z; char : Z }.

(** The value of [i] in [convertRow] before the ramp is indexed;
    [int(r+g+b) / CharStep] is an integer division. *)
Definition convertRow_i (reverse : bool) (p : RGBA) : Z :=
  let len := Z.of_nat (length ASCIIChars) in
  if cA p =? 0 then len - 1
  else
    let i := Z.quot (convert.add_u32 (cR p) (cG p) (cB p)) CharStep in
    if negb reverse then len - i else i.

(** [ASCIIChars[i%len(ASCIIChars)]] *)
Definition ramp (i : Z) : option Z :=
  slice.get ASCIIChars (Z.rem i (Z.of_nat (length ASCIIChars))).

(** [convertRow] *)
Definition convertRow (img : Image) (y : Z) (reverse : bool)
  : option (list PixelChar) :=
  let max := X (Max (Bounds img)) in
  mapM (fun x =>
          ch ← ramp (convertRow_i reverse (At img x y));
          Some (mkPixelChar x y ch))
       (seqZ 0 max).

(** The body of the collector of [imgToASCII]. *)
Definition collect (matrix : list (list Z)) (pc : PixelChar)
  : option (list (list Z)) :=
  row ← slice.get matrix (y pc);
  row' ← slice.set row (x pc) (char pc);
  slice.set matrix (y pc) row'.

Definition imgToASCII_matrix (reverse : bool) (scaled : Image)
  : option (list (list Z)) :=
  let max := Max (Bounds scaled) in
  matrix ← convert.make_matrix 0 max;
  ch ← convert.in_row_order
         (map (fun y => convertRow scaled y reverse) (seqZ 0 (Y max)));
  slice.range collect ch matrix.

(** [imgToASCII]; of the configuration only [c.reverse] is read. *)
Definition imgToASCII (reverse : bool) (scaled : Image) : option gostring :=
  matrix ← imgToASCII_matrix reverse scaled;
  let chunks :=
    map (fun r => TrimRight (string_of_runes r) (lit " ")) matrix in
  Some (Join chunks newline).

End main.

(** * Notions the properties are stated with *)

(** ** The exact quotient [29 s / 196605] *)

Module quotients.

Import Float64 image convert.

(** The truncated quotient, for one channel sum, against the exact
    rational quotient [29 s / 196605]. *)
Definition quotient_ok (s : Z) : bool :=
  if s <=? 196605 then
    match to_int (of_uint63 (Uint63.of_Z s) / CharStep)%float with
    | Some i => i =? 29 * s / 196605
    | None => false
    end
  else true.

(** [quotient_ok] on the [2^k] sums from [lo] on. *)
Fixpoint quotient_ok_from (k : nat) (lo : Z) : bool :=
  match k with
  | O => quotient_ok lo
  | S k' =>
      quotient_ok_from k' lo && quotient_ok_from k' (lo + 2 ^ Z.of_nat k')
  end.

(** The quotient as an integer expression. *)
Definition quotient (p : RGBA) : Z := 29 * (cR p + cG p + cB p) / 196605.

End quotients.

(** ** What a collector does to the matrix *)

Module collector.

Import slice.

(** The shape the three collectors share: the cell of the message is
    written, in the mirrored column when [invert] is set. *)
Definition write {M A : Type} (xof yof : M -> Z) (val : M -> A)
  (invert : bool) (matrix : list (list A)) (m : M)
  : option (list (list A)) :=
  row ← get matrix (yof m);
  let i := xof m in
  let i := if invert then Z.of_nat (length row) - i - 1 else i in
  row' ← set row i (val m);
  set matrix (yof m) row'.

(** A row as the collector leaves it: mirrored, or not. *)
Definition orient {A : Type} (invert : bool) (l : list A) : list A :=
  if invert then reverse l else l.

(** A row on its way: [done] holds what was received, [n] cells are
    still at their zero value [z]. *)
Definition partial {A : Type} (invert : bool) (z : A) (done : list A)
  (n : nat) : list A :=
  if invert then replicate n z ++ reverse done
  else done ++ replicate n z.

End collector.

(** ** The matrices in closed form *)

Module closed_form.

Import gostr Float64 image colour convert collector.

Definition is_Some_b {A : Type} (o : option A) : bool :=
  match o with Some _ => true | None => false end.

(** The glyph [convertRow] sends for a pixel. *)
Definition glyph (reverse : bool) (p : RGBA) : Z :=
  default 0 (convertRow_i reverse p ≫= ramp).

Definition cellASCII (img : Image) (reverse : bool) (x y : Z) : PixelChar :=
  mkPixelChar x y (glyph reverse (At img x y)).

(** The matrix of [ImgToASCII] in closed form: row [y] holds the glyphs
    of the pixels of row [y], in column order or mirrored. *)
Definition glyph_rows (img : Image) (negative invert : bool)
  : list (list Z) :=
  map (fun y => orient invert
                  (map (fun x => glyph negative (At img x y))
                       (seqZ 0 (X (Max (Bounds img))))))
      (seqZ 0 (Y (Max (Bounds img)))).

(** The escape prefix of a pixel: empty for a transparent one. *)
Definition esc (p : RGBA) : gostring :=
  match FromColor p with Some c => TrueEsc c | None => [] end.

Definition cellColour (img : Image) (reverse : bool) (x y : Z)
  : ColourPixelChar :=
  mkColourPixelChar (cellASCII img reverse x y) (FromColor (At img x y)).

(** What [ImgToASCIIColoured] puts in the cell of a pixel. *)
Definition unit (negative : bool) (p : RGBA) : gostring :=
  esc p ++ EncodeRune (glyph negative p).

Definition unit_rows (img : Image) (negative invert : bool)
  : list (list gostring) :=
  map (fun y => orient invert
                  (map (fun x => unit negative (At img x y))
                       (seqZ 0 (X (Max (Bounds img))))))
      (seqZ 0 (Y (Max (Bounds img)))).

(** What [ImgToPreview] puts in the cell of a pixel. *)
Definition block (single : bool) (p : RGBA) : gostring :=
  esc p ++ (if single then emptySingleChar else emptyChar).

Definition block_rows (img : Image) (single : bool) : list (list gostring) :=
  map (fun y => map (fun x => block single (At img x y))
                    (seqZ 0 (X (Max (Bounds img)))))
      (seqZ 0 (Y (Max (Bounds img)))).

(** [matrix[y][x]] *)
Definition cell {A : Type} (matrix : list (list A)) (y x : Z) : option A :=
  row ← slice.get matrix y; slice.get row x.

End closed_form.

(** ** The same for the single-file variant *)

Module closed_form_main.

Import gostr image.

(** The glyph the variant's [convertRow] sends for a pixel. *)
Definition glyph (reverse : bool) (p : RGBA) : Z :=
  default 0 (main.ramp (main.convertRow_i reverse p)).

Definition glyph_rows (img : Image) (reverse : bool) : list (list Z) :=
  map (fun y => map (fun x => glyph reverse (At img x y))
                    (seqZ 0 (X (Max (Bounds img)))))
      (seqZ 0 (Y (Max (Bounds img)))).

End closed_form_main.

(** ** Rounding to the nearest integer *)

Module rounding.

Import Float64.

(** The float of a positive integer below [2^53]: the integer shifted
    to 53 digits, and the exponent that undoes the shift. *)
Definition shifted (p : positive) : positive * Z :=
  shl_align p 0 (fexp prec emax (Z.pos (digits2_pos p) + 0)).

(** The integer nearest to [num / den], halves away from zero. *)
Definition round_half_away (num den : Z) : Z :=
  Z.sgn num * ((2 * Z.abs num + den) / (2 * den)).

(** [round(v)] for the value [v] of a float, as an [int]: the value of a
    finite float is [+/- m * 2^e], a fraction with a power of two below. *)
Definition nearest (x : float64) : option Z :=
  match Prim2SF x with
  | S754_zero _ => Some 0
  | S754_finite s m e =>
      let num := (if s then -1 else 1) * (Z.pos m * 2 ^ Z.max e 0) in
      let den := 2 ^ Z.max (- e) 0 in
      let n := round_half_away num den in
      if (MinInt <=? n) && (n <=? MaxInt) then Some n else None
  | _ => None
  end.

End rounding.

(** ** Sample pixels and images *)

Module samples.

Import gostr Float64 image colour convert.

Definition white : RGBA := mkRGBA 65535 65535 65535 65535.
Definition black : RGBA := mkRGBA 0 0 0 65535.
Definition clear : RGBA := mkRGBA 0 0 0 0.

(** An image of one colour. *)
Definition uniform (w h : Z) (p : RGBA) : Image :=
  mkImage (Rect 0 0 w h) (fun _ _ => p).

(** The index the ramp is read at: [i % cLen]. *)
Definition ramp_index (reverse : bool) (p : RGBA) : option Z :=
  i ← convertRow_i reverse p;
  Some (Z.rem i (Z.of_nat (length ASCIIChars))).

Ltac wf_uniform :=
  unfold wf_image, wf_colour; simpl; repeat split; intros; lia.

(** A row of three pixels: opaque black, opaque grey, transparent. *)
Definition three : Image :=
  mkImage (Rect 0 0 3 1)
          (fun x _ => if x =? 0 then black
                      else if x =? 1 then mkRGBA 30000 30000 30000 65535
                      else clear).

End samples.

(** * The rest of the packages and the commands *)

(** ** File names: [filepath.Ext], [strings.ReplaceAll], [strings.ToLower] *)

Module gopath.

Import gostr.

(** [os.IsPathSeparator] on a Unix system. *)
Definition IsPathSeparator (b : byte) : bool := Byte.eqb b "/"%byte.

(** The loop of [filepath.Ext], from the last byte of the path down:
    [seen] is what the loop has passed. *)
Fixpoint Ext_from (rpath seen : gostring) : gostring :=
  match rpath with
  | [] => []
  | b :: rest =>
      if IsPathSeparator b then []
      else if Byte.eqb b "."%byte then b :: seen
      else Ext_from rest (b :: seen)
  end.

(** [filepath.Ext]: the suffix from the last dot of the last element
    of the path on, empty when that element has no dot. *)
Definition Ext (path : gostring) : gostring := Ext_from (reverse path) [].

(** [strings.ReplaceAll(s, old, new)] for an [old] of one byte. *)
Definition ReplaceAll (s : gostring) (old : byte) (new : gostring)
  : gostring :=
  concat (map (fun b => if Byte.eqb b old then new else [b]) s).

Definition is_upper (b : byte) : bool :=
  (65 <=? Z_of_byte b) && (Z_of_byte b <=? 90).

(** [strings.ToLower] on a string of ASCII bytes: [A] to [Z] become
    [a] to [z].  A string with other bytes goes through the Unicode
    tables, which are not part of this development: a property that
    says what [ToLower] returns is stated for ASCII file names.  The
    other properties only compare callers that apply [ToLower] to the
    same string, and do not depend on what it returns. *)
Definition ToLower (s : gostring) : gostring :=
  map (fun b => if is_upper b then byte_of_Z (Z_of_byte b + 32) else b) s.

Definition is_ascii (s : gostring) : bool :=
  forallb (fun b => Z_of_byte b <? 128) s.

(** [s == t] on strings. *)
Fixpoint eqb (s t : gostring) : bool :=
  match s, t with
  | [], [] => true
  | a :: s', b :: t' => Byte.eqb a b && eqb s' t'
  | _, _ => false
  end.

(** [m[k]] with the comma-ok form, for a map written as its entries. *)
Fixpoint lookup {V : Type} (m : list (gostring * V)) (k : gostring)
  : option V :=
  match m with
  | [] => None
  | (k', v) :: m' => if eqb k k' then Some v else lookup m' k
  end.

End gopath.

(** ** Package scale: file types and the names of the modes *)

Module scale_names.

Import gostr gopath scale.

(** [supportedTypes], a set of strings. *)
Definition supportedTypes : list (gostring * unit) :=
  [ (lit "png", tt); (lit "jpeg", tt); (lit "jpg", tt) ].

(** [IsSupportedFile] *)
Definition IsSupportedFile (path : gostring) : gostring * bool :=
  let ext := ToLower (ReplaceAll (Ext path) "."%byte []) in
  match lookup supportedTypes ext with
  | Some _ => (ext, true)
  | None => (ext, false)
  end.

(** [Mode] is a [uint32]; the four constants are numbered by [iota]. *)
Definition Mode_value (m : Mode) : Z :=
  match m with
  | NearestNeighbourScaling => 0
  | ApproxBilinearScaling => 1
  | BilinearScaling => 2
  | CatmullRomScaling => 3
  end.

(** [scaleStr], a map from modes to their names. *)
Definition scaleStr : list (Z * gostring) :=
  [ (Mode_value NearestNeighbourScaling, lit "Nearest Neighbour");
    (Mode_value ApproxBilinearScaling, lit "Approximate Bilinear");
    (Mode_value BilinearScaling, lit "Bilinear");
    (Mode_value CatmullRomScaling, lit "CatmullRom") ].

(** [Mode.String], on any [uint32]. *)
Definition String (s : Z) : gostring :=
  match List.find (fun kv => fst kv =? s) scaleStr with
  | Some (_, m) => m
  | None => []
  end.

End scale_names.

(** ** The file system, as [os.Stat] shows it *)

Module files.

Import gostr.

(** What [os.Stat] says of a path: no such file, another error, a
    directory, or anything else that exists. *)
Inductive Stat : Type := StatNotExist | StatError | StatDir | StatFile.

(** [fileExists], the same in the three commands and in [main.go].
    When [os.Stat] fails for another reason than a missing file,
    [info] is [nil] and [info.IsDir()] panics. *)
Definition fileExists (stat : gostring -> Stat) (path : gostring)
  : option bool :=
  match stat path with
  | StatNotExist => Some false
  | StatError => None
  | StatDir => Some false
  | StatFile => Some true
  end.

End files.

(** ** Command asciify: the flags and their validation *)

Module asciify.

Import gostr Float64 gopath scale scale_names files.

Inductive Error : Type :=
| ErrInvalidDimensions
| ErrInvalidInputFormat
| ErrMissingInputFile
| ErrInvalidScalingMethod
| ErrOutputFileExists.

(** [Config]; [in_] is the field [in]. *)
Record Config : Type := mkConfig {
  ScaleOpts_ : ScaleOpts;
  in_ : gostring;
  out : gostring;
  overwrite : bool;
  printASCII : bool;
  reverse : bool;
  saveScaled : gostring;
  colour : bool;
  inExt : gostring;
  outExt : gostring
}.

(** [scaleModes], a map from flag values to modes. *)
Definition scaleModes : list (gostring * Z) :=
  [ (lit "near", Mode_value NearestNeighbourScaling);
    (lit "approx", Mode_value ApproxBilinearScaling);
    (lit "bilinear", Mode_value BilinearScaling);
    (lit "cat", Mode_value CatmullRomScaling) ].

(** [scaleModeFromFalgStr]: the mode is the zero value when the flag
    is not a key. *)
Definition scaleModeFromFalgStr (fs : gostring) : Z * option Error :=
  match lookup scaleModes fs with
  | Some m => (m, None)
  | None => (0, Some ErrInvalidScalingMethod)
  end.

(** [scaleModeFlagStr]: [for k, v := range scaleModes] visits the
    entries in an order that Go does not fix; [visited] is that
    order. *)
Definition scaleModeFlagStr (visited : list (gostring * Z)) (s : Z)
  : gostring :=
  match List.find (fun kv => snd kv =? s) visited with
  | Some (k, _) => k
  | None => []
  end.

Definition with_opts (c : Config) (o : ScaleOpts) : Config :=
  mkConfig o (in_ c) (out c) (overwrite c) (printASCII c) (reverse c)
           (saveScaled c) (colour c) (inExt c) (outExt c).

Definition with_inExt (c : Config) (ext : gostring) : Config :=
  mkConfig (ScaleOpts_ c) (in_ c) (out c) (overwrite c) (printASCII c)
           (reverse c) (saveScaled c) (colour c) ext (outExt c).

Definition with_out (c : Config) (o : gostring) : Config :=
  mkConfig (ScaleOpts_ c) (in_ c) o (overwrite c) (printASCII c)
           (reverse c) (saveScaled c) (colour c) (inExt c) (outExt c).

Definition with_outExt (c : Config) (ext : gostring) : Config :=
  mkConfig (ScaleOpts_ c) (in_ c) (out c) (overwrite c) (printASCII c)
           (reverse c) (saveScaled c) (colour c) (inExt c) ext.

(** The first half of [Validate], on the embedded [ScaleOpts]: the
    two tests of the dimensions, then [clear whichever dimension
    values we won't use]. *)
Definition Validate_dimensions (o : ScaleOpts) : Error + ScaleOpts :=
  if (Width o =? 0) && (Height o =? 0) && (Factor o <=? 0)%float
  then inl ErrInvalidDimensions
  else if (Factor o =? 0)%float && ((Width o =? 0) || (Height o =? 0))
  then inl ErrInvalidDimensions
  else if negb (Width o =? 0) && negb (Height o =? 0)
  then inr (mkScaleOpts (Width o) (Height o) 0%float (mode o))
  else inr (mkScaleOpts 0 0 (Factor o) (mode o)).

(** [Validate], a method on [*Config]: the configuration as the call
    leaves it, and the error returned.  [None] is a panic. *)
Definition Validate (stat : gostring -> Stat) (c : Config)
  : option (Config * option Error) :=
  match Validate_dimensions (ScaleOpts_ c) with
  | inl err => Some (c, Some err)
  | inr o =>
      let c := with_opts c o in
      found ← (if eqb (in_ c) [] then Some false
               else fileExists stat (in_ c));
      if negb found then Some (c, Some ErrMissingInputFile)
      else
        let '(ext, ok) := IsSupportedFile (in_ c) in
        if negb ok then Some (c, Some ErrInvalidInputFormat)
        else
          let c := with_inExt c ext in
          let c := if eqb (out c) [] then with_out c (lit "output.txt")
                   else c in
          taken ← (if overwrite c then Some false
                   else fileExists stat (out c));
          if taken : bool then Some (c, Some ErrOutputFileExists)
          else
            let c :=
              if (0 <? length (saveScaled c))%nat
              then with_outExt c
                     (ToLower (ReplaceAll (Ext (saveScaled c)) "."%byte []))
              else c in
            Some (c, None)
  end.

End asciify.

(** ** Command preview: the flags and their validation *)

Module preview.

Import gostr Float64 gopath scale scale_names files.

Inductive Error : Type :=
| ErrInvalidInputFormat
| ErrMissingInputFile
| ErrInvalidScalingMethod.



End preview.

(** ** Command asciicam: what it does to the options *)

Module asciicam.

Import Float64 scale.


End asciicam.

(** ** Package scale: opening and decoding a file *)

Module scale_io.

Import gostr gopath image scale scale_names.

(** The errors the functions of the package return: its own, or one
    that [os.Open] or a decoder gave, kept as its message. *)
Inductive Error : Type :=
| UnsupportedFileTypeErr
| Foreign (msg : gostring).

(** What the package asks of the outside: [os.Open], which fails with
    an error or not, and the two decoders on the opened file, which
    return an image and no error, or no image and an error. *)
Record World : Type := mkWorld {
  Open : gostring -> option gostring;
  png_Decode : gostring -> gostring + Image;
  jpeg_Decode : gostring -> gostring + Image
}.

(** [if ext == "png" { png.Decode } else { jpeg.Decode }] *)
Definition decode (w : World) (imgFile ext : gostring) : gostring + Image :=
  if eqb ext (lit "png") then png_Decode w imgFile
  else jpeg_Decode w imgFile.


(** [FileToWindow], from the path.  The error of the decoder is
    assigned and never read; [src] is then [nil], and the first
    [src.Bounds()] panics: the one of [determine factor], or the one
    every case of the [switch] of [Image] has. *)
Definition FileToWindow (w : World) (imgFile : gostring) (opts : ScaleOpts)
  : option (Error + Rectangle) :=
  match Open w imgFile with
  | Some err => Some (inl (Foreign err))
  | None =>
      let ext := ToLower (ReplaceAll (Ext imgFile) "."%byte []) in
      match lookup supportedTypes ext with
      | None => Some (inl UnsupportedFileTypeErr)
      | Some _ =>
          match decode w imgFile ext with
          | inl _ => None
          | inr src => r ← scale.FileToWindow src opts; Some (inr r)
          end
      end
  end.


End scale_io.

(** ** [main.go]: the flags and their validation *)

Module main_flags.

Import gostr Float64 gopath scale files.

Inductive Error : Type :=
| InvalidDimensionsErr
| InvalidInputFormatErr
| MissingInputFileErr
| InvalidScalingMethodErr
| OutputFileExistsErr.

(** [Config]; [in_] is the field [in], and [mode] one of the four
    constants of [ScaleMode]. *)
Record Config : Type := mkConfig {
  w : Z;
  h : Z;
  fact : float64;
  in_ : gostring;
  out : gostring;
  mode : Mode;
  overwrite : bool;
  printASCII : bool;
  reverse : bool;
  saveScaled : gostring;
  inExt : gostring;
  outExt : gostring
}.

(** [supportedTypes] *)
Definition supportedTypes : list (gostring * unit) :=
  [ (lit "jpg", tt); (lit "jpeg", tt); (lit "png", tt) ].

Definition with_sizes (c : Config) (w h : Z) (fact : float64) : Config :=
  mkConfig w h fact (in_ c) (out c) (mode c) (overwrite c) (printASCII c)
           (reverse c) (saveScaled c) (inExt c) (outExt c).

Definition with_inExt (c : Config) (ext : gostring) : Config :=
  mkConfig (w c) (h c) (fact c) (in_ c) (out c) (mode c) (overwrite c)
           (printASCII c) (reverse c) (saveScaled c) ext (outExt c).

Definition with_out (c : Config) (o : gostring) : Config :=
  mkConfig (w c) (h c) (fact c) (in_ c) o (mode c) (overwrite c)
           (printASCII c) (reverse c) (saveScaled c) (inExt c) (outExt c).

Definition with_outExt (c : Config) (ext : gostring) : Config :=
  mkConfig (w c) (h c) (fact c) (in_ c) (out c) (mode c) (overwrite c)
           (printASCII c) (reverse c) (saveScaled c) (inExt c) ext.

(** [Validate]: the configuration as the call leaves it, and the
    error returned. *)
Definition Validate (stat : gostring -> Stat) (c : Config)
  : option (Config * option Error) :=
  if (w c =? 0) && (h c =? 0) && (fact c <=? 0)%float
  then Some (c, Some InvalidDimensionsErr)
  else if (fact c =? 0)%float && ((w c =? 0) || (h c =? 0))
  then Some (c, Some InvalidDimensionsErr)
  else
    let c := if negb (w c =? 0) && negb (h c =? 0)
             then with_sizes c (w c) (h c) 0%float
             else with_sizes c 0 0 (fact c) in
    found ← (if eqb (in_ c) [] then Some false
             else fileExists stat (in_ c));
    if negb found then Some (c, Some MissingInputFileErr)
    else
      let ext := ToLower (ReplaceAll (Ext (in_ c)) "."%byte []) in
      match lookup supportedTypes ext with
      | None => Some (c, Some InvalidInputFormatErr)
      | Some _ =>
          let c := with_inExt c ext in
          let c := if eqb (out c) [] then with_out c (lit "output.txt")
                   else c in
          taken ← (if overwrite c then Some false
                   else fileExists stat (out c));
          if taken : bool then Some (c, Some OutputFileExistsErr)
          else if (0 <? length (saveScaled c))%nat
          then
            let ext :=
              ToLower (ReplaceAll (Ext (saveScaled c)) "."%byte []) in
            match lookup supportedTypes ext with
            | None => Some (c, Some InvalidInputFormatErr)
            | Some _ => Some (with_outExt c ext, None)
            end
          else Some (c, None)
      end.

(** [getScaledXY] *)
Definition getScaledXY (c : Config) (src : image.Image) : option (Z * Z) :=
  if (fact c =? 0)%float
  then Some (int_of_uint (w c), int_of_uint (h c))
  else
    let max := image.Max (image.Bounds src) in
    let x := Round (of_Z (image.X max) * fact c)%float in
    let y := Round (of_Z (image.Y max) * fact c)%float in
    x ← to_int x; y ← to_int y; Some (x, y).

End main_flags.

(** ** The two versions of the command side by side *)

Module versions.

Import gostr scale.

(** The configuration of the command of the package that holds what a
    configuration of [main.go] holds; [colour] is the flag the
    package added. *)
Definition of_main (c : main_flags.Config) (colour : bool)
  : asciify.Config :=
  asciify.mkConfig
    (mkScaleOpts (main_flags.w c) (main_flags.h c) (main_flags.fact c)
                 (main_flags.mode c))
    (main_flags.in_ c) (main_flags.out c) (main_flags.overwrite c)
    (main_flags.printASCII c) (main_flags.reverse c)
    (main_flags.saveScaled c) colour (main_flags.inExt c)
    (main_flags.outExt c).

(** The errors have the same messages under other names. *)
Definition error_of_main (e : main_flags.Error) : asciify.Error :=
  match e with
  | main_flags.InvalidDimensionsErr => asciify.ErrInvalidDimensions
  | main_flags.InvalidInputFormatErr => asciify.ErrInvalidInputFormat
  | main_flags.MissingInputFileErr => asciify.ErrMissingInputFile
  | main_flags.InvalidScalingMethodErr => asciify.ErrInvalidScalingMethod
  | main_flags.OutputFileExistsErr => asciify.ErrOutputFileExists
  end.

Definition result_of_main (colour : bool)
  (r : option (main_flags.Config * option main_flags.Error))
  : option (asciify.Config * option asciify.Error) :=
  match r with
  | Some (c, e) => Some (of_main c colour, option_map error_of_main e)
  | None => None
  end.

End versions.

(** * More notions *)

(** ** Colours as numbers *)

Module colour_codec.

Import gostr colour.

(** The number a string of hexadecimal digits denotes, most significant
    digit first; [None] when a byte is not a hexadecimal digit. *)
Definition hex_digit (b : byte) : option Z :=
  match digit_value (Z_of_byte b) with
  | Some d => if d <? 16 then Some d else None
  | None => None
  end.

Fixpoint hex_value_from (n : Z) (s : gostring) : option Z :=
  match s with
  | [] => Some n
  | b :: s' => d ← hex_digit b; hex_value_from (n * 16 + d) s'
  end.

Definition hex_value (s : gostring) : option Z := hex_value_from 0 s.

(** The colour whose [UInt] is the low 24 bits of [v]. *)
Definition unpack (v : Z) : Colour256 :=
  mkColour256 (v / 65536 mod 256) (v / 256 mod 256) (v mod 256).

(** A decimal digit. *)
Definition is_digit (b : byte) : bool :=
  (48 <=? Z_of_byte b) && (Z_of_byte b <=? 57).

(** The number a string of decimal digits denotes. *)
Definition decimal (s : gostring) : Z :=
  fold_left (fun n b => n * 10 + (Z_of_byte b - 48)) s 0.

End colour_codec.

(** ** Bands of the channel sum *)

Module tone_bands.

Import image.



End tone_bands.

(** ** A text without its escapes *)

Module plain_text.

Import gostr.

(** A text with its escape sequences taken out: everything from an
    ESC to the next [m], both included. *)
Fixpoint strip_from (inside : bool) (s : gostring) : gostring :=
  match s with
  | [] => []
  | b :: s' =>
      if inside then strip_from (negb (Byte.eqb b "m"%byte)) s'
      else if Byte.eqb b x1b then strip_from true s'
      else b :: strip_from false s'
  end.

Definition strip (s : gostring) : gostring := strip_from false s.

(** The pixels of an image, row by row, as the collectors lay them
    out. *)
Definition pixel_rows (img : image.Image) (invert : bool)
  : list (list image.RGBA) :=
  map (fun y => collector.orient invert
                  (map (fun x => image.At img x y)
                       (seqZ 0 (image.X (image.Max (image.Bounds img))))))
      (seqZ 0 (image.Y (image.Max (image.Bounds img)))).

End plain_text.

(** ** File names and sample file systems *)

Module path_notions.

Import gostr.

(** A byte of a file name's last element that ends no extension scan. *)
Definition plain (b : byte) : Prop := b <> "."%byte /\ b <> "/"%byte.

End path_notions.

Module sample_worlds.

Import gostr gopath image scale files scale_io.




End sample_worlds.

(** ** Fractions and normal floats *)

Module rounding_notions.

(** Where [r / d] lies between 0 and 1, for [0 <= r < d]: at 0, below
    the middle, at the middle or above it. *)
Definition locZ (r d : Z) : location :=
  if r =? 0 then loc_Exact else loc_Inexact (2 * r ?= d).

(** A record of [shr] stands for the fraction [n / d]: its mantissa is
    the quotient, and its two bits say where the remainder lies. *)
Definition stands_for (mrs : shr_record) (n d : Z) : Prop :=
  shr_m mrs = n / d /\ loc_of_shr_record mrs = locZ (n mod d) d.

End rounding_notions.

Module normal_floats.

Import Float64.

(** A positive normal float: its mantissa [M] has 53 binary digits and
    its value is [M * 2^E]. *)
Definition normal (x : float64) (M E : Z) : Prop :=
  Prim2SF x = S754_finite false (Z.to_pos M) E /\ 2 ^ 52 <= M < 2 ^ 53.

End normal_floats.

(** * Properties *)

(** ** The quotient [float64(r+g+b) / CharStep] *)

Module index_facts.

Import Float64 image convert.
Import quotients.

(** Below [2^63] the conversion of an integer is the kernel's own. *)
Lemma of_Z_uint63 (n : Z) :
  0 <= n < 2 ^ 63 -> of_Z n = of_uint63 (Uint63.of_Z n).
Proof.
  intros Hn. unfold of_Z.
  rewrite <- (SF2Prim_Prim2SF (of_uint63 (Uint63.of_Z n))).
  rewrite of_uint63_spec, Uint63.of_Z_spec.
  rewrite Z.mod_small; [reflexivity|].
  change wB with (2 ^ 63). lia.
Qed.

Lemma quotient_ok_from_sound (k : nat) :
  forall lo, quotient_ok_from k lo = true ->
  forall s, lo <= s < lo + 2 ^ Z.of_nat k -> quotient_ok s = true.
Proof.
  induction k as [|k IH]; intros lo Hall s Hs.
  - simpl in *. assert (s = lo) as -> by lia. exact Hall.
  - cbn [quotient_ok_from] in Hall. apply andb_prop in Hall as [Hl Hr].
    rewrite Nat2Z.inj_succ, Z.pow_succ_r in Hs by lia.
    destruct (Z_lt_ge_dec s (lo + 2 ^ Z.of_nat k)).
    + apply (IH lo Hl). lia.
    + apply (IH _ Hr). lia.
Qed.

(** Every channel sum of a well-formed pixel, by evaluation. *)
Lemma quotient_table : quotient_ok_from 18 0 = true.
Proof. vm_compute. reflexivity. Qed.

Lemma quotient_exact (s : Z) :
  0 <= s <= 196605 ->
  to_int (of_Z s / CharStep)%float = Some (29 * s / 196605).
Proof.
  intros Hs. rewrite of_Z_uint63 by lia.
  pose proof (quotient_ok_from_sound 18 0 quotient_table s) as H.
  unfold quotient_ok in H.
  rewrite (proj2 (Z.leb_le s 196605)) in H by lia.
  destruct (to_int _) as [i|]; [|discriminate H; simpl; lia].
  f_equal. apply Z.eqb_eq. apply H. simpl. lia.
Qed.

Lemma add_u32_small (p : RGBA) :
  wf_colour p ->
  add_u32 (cR p) (cG p) (cB p) = cR p + cG p + cB p
  /\ 0 <= cR p + cG p + cB p <= 196605.
Proof.
  intros (Hr & Hg & Hb). unfold add_u32.
  rewrite Z.mod_small; lia.
Qed.

Lemma quotient_range (p : RGBA) : wf_colour p -> 0 <= quotient p <= 29.
Proof.
  intros Hp. destruct (add_u32_small p Hp) as [_ Hs]. unfold quotient.
  split.
  - apply Z.div_pos; lia.
  - apply Z.div_le_upper_bound; lia.
Qed.

Lemma quotient_mono (p1 p2 : RGBA) :
  cR p2 + cG p2 + cB p2 <= cR p1 + cG p1 + cB p1 ->
  quotient p2 <= quotient p1.
Proof. intros H. unfold quotient. apply Z.div_le_mono; lia. Qed.

Lemma convertRow_i_opaque (reverse : bool) (p : RGBA) :
  wf_colour p -> cA p <> 0 ->
  convertRow_i reverse p
  = Some (if negb reverse then 29 - quotient p else quotient p).
Proof.
  intros Hp Ha. unfold convertRow_i.
  rewrite (proj2 (Z.eqb_neq _ _) Ha).
  destruct (add_u32_small p Hp) as [-> Hs].
  rewrite quotient_exact by exact Hs. reflexivity.
Qed.

Lemma convertRow_i_transparent (reverse : bool) (p : RGBA) :
  cA p = 0 -> convertRow_i reverse p = Some 28.
Proof. intros Ha. unfold convertRow_i. rewrite Ha. reflexivity. Qed.

Lemma convertRowColour_i_eq (reverse : bool) (p : RGBA) :
  convertRowColour_i reverse p = convertRow_i reverse p.
Proof. reflexivity. Qed.

End index_facts.

(** ** The collector: every cell is written where it belongs *)

Module collector_facts.

Import slice.
Import collector.

Lemma range_app {S M : Type} (body : S -> M -> option S) (a b : list M)
  (st : S) :
  range body (a ++ b) st = range body a st ≫= range body b.
Proof.
  revert st. induction a as [|m a IH]; intros st; simpl; [reflexivity|].
  destruct (body st m) as [st'|]; simpl; [apply IH|reflexivity].
Qed.

Lemma get_of_nat {A : Type} (s : list A) (k : nat) :
  get s (Z.of_nat k) = s !! k.
Proof.
  unfold get. rewrite (proj2 (Z.leb_le 0 _)) by lia.
  rewrite Nat2Z.id. reflexivity.
Qed.

Lemma set_of_nat {A : Type} (s : list A) (i : Z) (k : nat) (v : A) :
  i = Z.of_nat k -> (k < length s)%nat -> set s i v = Some (<[k := v]> s).
Proof.
  intros -> Hk. unfold set.
  rewrite (proj2 (Z.leb_le 0 _)), (proj2 (Z.ltb_lt _ _)) by lia.
  rewrite Nat2Z.id. reflexivity.
Qed.

Lemma seqZ_succ_cons (k : Z) (n : nat) :
  seqZ k (Z.of_nat (S n)) = k :: seqZ (k + 1) (Z.of_nat n).
Proof.
  rewrite seqZ_cons by lia. f_equal. f_equal; lia.
Qed.

Section writer.

Context {M A : Type}.
Variables (xof yof : M -> Z) (val : M -> A) (invert : bool).

Lemma write_at (matrix : list (list A)) (m : M) (y k : nat)
  (row : list A) :
  yof m = Z.of_nat y ->
  matrix !! y = Some row ->
  (if invert then Z.of_nat (length row) - xof m - 1 else xof m)
  = Z.of_nat k ->
  (k < length row)%nat ->
  write xof yof val invert matrix m
  = Some (<[y := <[k := val m]> row]> matrix).
Proof.
  intros Hy Hrow Hk Hlt. unfold write.
  rewrite Hy, get_of_nat, Hrow. cbn [mbind option_bind]. cbv zeta.
  rewrite (set_of_nat row _ k) by assumption. cbn [mbind option_bind].
  apply set_of_nat; [reflexivity|]. by eapply lookup_lt_Some.
Qed.

Variable cell : Z -> Z -> M.
Hypothesis cell_x : forall x y, xof (cell x y) = x.
Hypothesis cell_y : forall x y, yof (cell x y) = y.

Lemma length_partial (z : A) (done : list A) (n : nat) :
  length (partial invert z done n) = (length done + n)%nat.
Proof.
  unfold partial. destruct invert;
    rewrite length_app, ?length_reverse, length_replicate; lia.
Qed.

Lemma partial_step (z v : A) (done : list A) (n : nat) :
  <[(if invert then n else length done) := v]> (partial invert z done (S n))
  = partial invert z (done ++ [v]) n.
Proof.
  unfold partial. destruct invert.
  - change (replicate (S n) z) with (z :: replicate n z).
    rewrite replicate_cons_app, <- app_assoc.
    rewrite insert_app_r_alt by (rewrite length_replicate; lia).
    rewrite length_replicate, Nat.sub_diag.
    rewrite reverse_app. reflexivity.
  - rewrite insert_app_r_alt by lia.
    rewrite Nat.sub_diag. simpl. rewrite <- app_assoc. reflexivity.
Qed.

(** One row's messages, received in order, fill that row. *)
Lemma range_row (z : A) (y : nat) (n : nat) :
  forall (done : list A) (matrix : list (list A)),
  matrix !! y = Some (partial invert z done n) ->
  range (write xof yof val invert)
        (map (fun x => cell x (Z.of_nat y))
             (seqZ (Z.of_nat (length done)) (Z.of_nat n)))
        matrix
  = Some (<[y := orient invert
                   (done ++ map (fun x => val (cell x (Z.of_nat y)))
                                (seqZ (Z.of_nat (length done))
                                      (Z.of_nat n)))]> matrix).
Proof.
  induction n as [|n IH]; intros done matrix Hrow.
  - simpl. rewrite app_nil_r. f_equal. symmetry.
    apply list_insert_id. rewrite Hrow. unfold partial, orient.
    destruct invert; simpl; [reflexivity | by rewrite app_nil_r].
  - rewrite seqZ_succ_cons. cbn [map range].
    rewrite (write_at matrix _ y (if invert then n else length done)
                      (partial invert z done (S n))).
    + cbn [mbind option_bind]. rewrite partial_step.
      specialize (IH (done ++ [val (cell (Z.of_nat (length done))
                                         (Z.of_nat y))])).
      rewrite length_app in IH. simpl in IH.
      replace (Z.of_nat (length done + 1))
        with (Z.of_nat (length done) + 1) in IH by lia.
      rewrite IH.
      * rewrite list_insert_insert_eq, <- app_assoc. reflexivity.
      * apply list_lookup_insert_eq. by eapply lookup_lt_Some.
    + apply cell_y.
    + exact Hrow.
    + rewrite cell_x, length_partial. destruct invert; lia.
    + rewrite length_partial. destruct invert; lia.
Qed.

(** The messages of every row, row after row, fill the matrix. *)
Lemma range_rows (z : A) (W n : nat) :
  forall (rows : list (list A)),
  range (write xof yof val invert)
    (concat (map (fun y => map (fun x => cell x y) (seqZ 0 (Z.of_nat W)))
                 (seqZ (Z.of_nat (length rows)) (Z.of_nat n))))
    (rows ++ replicate n (replicate W z))
  = Some (rows
          ++ map (fun y => orient invert
                                  (map (fun x => val (cell x y))
                                       (seqZ 0 (Z.of_nat W))))
                 (seqZ (Z.of_nat (length rows)) (Z.of_nat n))).
Proof.
  induction n as [|n IH]; intros rows.
  - simpl. reflexivity.
  - rewrite seqZ_succ_cons. cbn [map concat]. rewrite range_app.
    pose proof (range_row z (length rows) W []
                  (rows ++ replicate (S n) (replicate W z))) as Hrow.
    cbn [length app] in Hrow. change (Z.of_nat 0) with 0 in Hrow.
    rewrite Hrow; clear Hrow.
    + cbn [mbind option_bind replicate].
      rewrite insert_app_r_alt, Nat.sub_diag by lia.
      cbn [insert list_insert].
      specialize (IH (rows ++ [orient invert
                        (map (fun x => val (cell x (Z.of_nat (length rows))))
                             (seqZ 0 (Z.of_nat W)))])).
      rewrite length_app in IH. simpl in IH.
      replace (Z.of_nat (length rows + 1))
        with (Z.of_nat (length rows) + 1) in IH by lia.
      rewrite <- !app_assoc in IH. exact IH.
    + rewrite lookup_app_r, Nat.sub_diag by lia. simpl.
      unfold partial. destruct invert; simpl; [|reflexivity].
      by rewrite app_nil_r.
Qed.

Lemma range_matrix (z : A) (W H : nat) :
  range (write xof yof val invert)
    (concat (map (fun y => map (fun x => cell x y) (seqZ 0 (Z.of_nat W)))
                 (seqZ 0 (Z.of_nat H))))
    (replicate H (replicate W z))
  = Some (map (fun y => orient invert
                               (map (fun x => val (cell x y))
                                    (seqZ 0 (Z.of_nat W))))
              (seqZ 0 (Z.of_nat H))).
Proof. exact (range_rows z W H []). Qed.

End writer.

Lemma mapM_total {A B : Type} (f : A -> option B) (g : A -> B)
  (l : list A) :
  (forall a, a ∈ l -> f a = Some (g a)) -> mapM f l = Some (map g l).
Proof.
  induction l as [|a l IH]; intros Hf; [reflexivity|].
  cbn [mapM map]. rewrite Hf by left. cbn [mbind option_bind].
  rewrite IH; [reflexivity|]. intros b Hb. apply Hf. by right.
Qed.

Lemma in_row_order_total {A M : Type} (f : A -> option (list M))
  (g : A -> list M) (l : list A) :
  (forall a, a ∈ l -> f a = Some (g a)) ->
  convert.in_row_order (map f l) = Some (concat (map g l)).
Proof.
  intros Hf. unfold convert.in_row_order.
  match goal with
  | |- context [mapM ?i ?rows] =>
      assert (mapM i rows = Some (map g l)) as ->; [|reflexivity]
  end.
  induction l as [|a l IH]; [reflexivity|].
  cbn [mapM map]. rewrite Hf by left.
  change (id (Some (g a))) with (Some (g a)). cbn [mbind option_bind].
  rewrite IH; [reflexivity|]. intros b Hb. apply Hf. by right.
Qed.

Lemma make_matrix_nonneg {A : Type} (z : A) (max : image.Point) :
  0 <= image.X max -> 0 <= image.Y max ->
  convert.make_matrix z max
  = Some (replicate (Z.to_nat (image.Y max))
                    (replicate (Z.to_nat (image.X max)) z)).
Proof.
  intros HX HY. unfold convert.make_matrix, make.
  rewrite (proj2 (Z.ltb_ge _ _)) by lia.
  destruct (Z.eqb_spec (image.Y max) 0) as [->|]; [reflexivity|].
  rewrite (proj2 (Z.leb_le _ _)) by lia. reflexivity.
Qed.

End collector_facts.

(** ** The glyph of a pixel, and the matrices in closed form *)

Module convert_facts.

Import gostr Float64 image colour convert index_facts collector_facts.
Import collector closed_form.

Lemma map_fmap {A B : Type} (f : A -> B) (l : list A) : map f l = f <$> l.
Proof. induction l as [|a l IH]; simpl; [reflexivity|by rewrite IH]. Qed.

(** A property checked on every integer of [[0, n)]. *)
Lemma below_forallb (P : Z -> bool) (n : Z) :
  forallb P (seqZ 0 n) = true -> forall i, 0 <= i < n -> P i = true.
Proof.
  intros Hall i Hi. rewrite forallb_forall in Hall. apply Hall.
  apply list_elem_of_In, elem_of_seqZ. lia.
Qed.

Lemma ramp_total (i : Z) : 0 <= i <= 29 -> is_Some (ramp i).
Proof.
  intros Hi.
  assert (is_Some_b (ramp i) = true) as Hok.
  { apply (below_forallb (fun i => is_Some_b (ramp i)) 30);
      [vm_compute; reflexivity | lia]. }
  destruct (ramp i); [by eexists | discriminate].
Qed.

Lemma convertRow_i_range (reverse : bool) (p : RGBA) :
  wf_colour p -> exists i, convertRow_i reverse p = Some i /\ 0 <= i <= 29.
Proof.
  intros Hp. destruct (Z.eq_dec (cA p) 0) as [Ha|Ha].
  - exists 28. rewrite convertRow_i_transparent by exact Ha. split; [done|lia].
  - rewrite convertRow_i_opaque by assumption.
    pose proof (quotient_range p Hp).
    eexists; split; [reflexivity|]. destruct reverse; simpl; lia.
Qed.

Lemma glyph_sent (reverse : bool) (p : RGBA) :
  wf_colour p -> convertRow_i reverse p ≫= ramp = Some (glyph reverse p).
Proof.
  intros Hp. unfold glyph.
  destruct (convertRow_i_range reverse p Hp) as (i & -> & Hi).
  cbn [mbind option_bind].
  destruct (ramp_total i Hi) as [g ->]. reflexivity.
Qed.

Lemma glyph_transparent (reverse : bool) (p : RGBA) :
  cA p = 0 -> glyph reverse p = 32.
Proof.
  intros Ha. unfold glyph. rewrite convertRow_i_transparent by exact Ha.
  reflexivity.
Qed.

Lemma convertRow_total (img : Image) (y : Z) (reverse : bool) :
  wf_image img ->
  convertRow img y reverse
  = Some (map (fun x => cellASCII img reverse x y)
              (seqZ 0 (X (Max (Bounds img))))).
Proof.
  intros (_ & _ & Hp). unfold convertRow. apply mapM_total. intros x _.
  pose proof (glyph_sent reverse (At img x y) (Hp x y)) as Hg.
  destruct (convertRow_i reverse (At img x y)) as [i|]; [|discriminate].
  cbn [mbind option_bind] in *. rewrite Hg. reflexivity.
Qed.

Lemma ImgToASCII_matrix_eq (img : Image) (negative invert : bool) :
  wf_image img ->
  ImgToASCII_matrix img negative invert
  = Some (glyph_rows img negative invert).
Proof.
  intros Hwf. pose proof Hwf as (HX & HY & _).
  unfold ImgToASCII_matrix.
  rewrite make_matrix_nonneg by assumption. cbn [mbind option_bind].
  rewrite (in_row_order_total _
             (fun y => map (fun x => cellASCII img negative x y)
                           (seqZ 0 (X (Max (Bounds img))))))
    by (intros y _; by apply convertRow_total).
  cbn [mbind option_bind].
  change (collect invert) with (write x y char invert).
  pose proof (range_matrix x y char invert (cellASCII img negative)
                (fun _ _ => eq_refl) (fun _ _ => eq_refl) 0
                (Z.to_nat (X (Max (Bounds img))))
                (Z.to_nat (Y (Max (Bounds img))))) as Hfill.
  rewrite !Z2Nat.id in Hfill by assumption. exact Hfill.
Qed.

Lemma convertRowColour_total (img : Image) (y : Z) (reverse : bool) :
  wf_image img ->
  convertRowColour img y reverse
  = Some (map (fun x => cellColour img reverse x y)
              (seqZ 0 (X (Max (Bounds img))))).
Proof.
  intros (_ & _ & Hp). unfold convertRowColour. apply mapM_total.
  intros x _. cbv zeta. rewrite convertRowColour_i_eq.
  pose proof (glyph_sent reverse (At img x y) (Hp x y)) as Hg.
  destruct (convertRow_i reverse (At img x y)) as [i|]; [|discriminate].
  cbn [mbind option_bind] in *. rewrite Hg. reflexivity.
Qed.

Lemma ImgToASCIIColoured_matrix_eq (img : Image) (negative invert : bool) :
  wf_image img ->
  ImgToASCIIColoured_matrix img negative invert
  = Some (unit_rows img negative invert).
Proof.
  intros Hwf. pose proof Hwf as (HX & HY & _).
  unfold ImgToASCIIColoured_matrix.
  rewrite make_matrix_nonneg by assumption. cbn [mbind option_bind].
  rewrite (in_row_order_total _
             (fun y => map (fun x => cellColour img negative x y)
                           (seqZ 0 (X (Max (Bounds img))))))
    by (intros y _; by apply convertRowColour_total).
  cbn [mbind option_bind].
  change (collectColoured invert)
    with (write (fun m => x (pc m)) (fun m => y (pc m))
                (fun m => match c m with Some c => TrueEsc c | None => [] end
                          ++ EncodeRune (char (pc m)))
                invert).
  pose proof (range_matrix (fun m => x (pc m)) (fun m => y (pc m))
                (fun m => match c m with Some c => TrueEsc c | None => [] end
                          ++ EncodeRune (char (pc m)))
                invert (cellColour img negative)
                (fun _ _ => eq_refl) (fun _ _ => eq_refl) []
                (Z.to_nat (X (Max (Bounds img))))
                (Z.to_nat (Y (Max (Bounds img))))) as Hfill.
  rewrite !Z2Nat.id in Hfill by assumption. exact Hfill.
Qed.

Lemma ImgToPreview_matrix_eq (img : Image) (single : bool) :
  0 <= X (Max (Bounds img)) -> 0 <= Y (Max (Bounds img)) ->
  ImgToPreview_matrix img single = Some (block_rows img single).
Proof.
  intros HX HY. unfold ImgToPreview_matrix.
  rewrite make_matrix_nonneg by assumption. cbn [mbind option_bind].
  rewrite (in_row_order_total _ (fun y => rowColours img y))
    by reflexivity.
  cbn [mbind option_bind].
  pose proof (range_matrix (fun m => x (pc m)) (fun m => y (pc m))
                (fun m => match c m with Some c => TrueEsc c | None => [] end
                          ++ (if single then emptySingleChar else emptyChar))
                false
                (fun x y => mkColourPixelChar (mkPixelChar x y 0)
                                              (FromColor (At img x y)))
                (fun _ _ => eq_refl) (fun _ _ => eq_refl) []
                (Z.to_nat (X (Max (Bounds img))))
                (Z.to_nat (Y (Max (Bounds img))))) as Hfill.
  rewrite !Z2Nat.id in Hfill by assumption. exact Hfill.
Qed.

End convert_facts.

(** ** The single-file variant *)

Module main_facts.

Import gostr image collector_facts.
Import collector closed_form_main.

Lemma main_convertRow_i_range (reverse : bool) (p : RGBA) :
  wf_colour p -> 0 <= main.convertRow_i reverse p <= 30.
Proof.
  intros Hp. unfold main.convertRow_i.
  change (Z.of_nat (length main.ASCIIChars)) with 30.
  destruct (cA p =? 0); [lia|].
  destruct (index_facts.add_u32_small p Hp) as [-> Hs].
  assert (0 <= Z.quot (cR p + cG p + cB p) main.CharStep <= 22) as Hq.
  { rewrite Z.quot_div_nonneg by (unfold main.CharStep; lia).
    unfold main.CharStep. split.
    - apply Z.div_pos; lia.
    - apply Z.lt_succ_r, Z.div_lt_upper_bound; lia. }
  revert Hq. generalize (Z.quot (cR p + cG p + cB p) main.CharStep).
  intros q Hq. destruct reverse; cbn [negb]; lia.
Qed.

Lemma main_ramp_total (i : Z) : 0 <= i <= 30 -> is_Some (main.ramp i).
Proof.
  intros Hi.
  assert (closed_form.is_Some_b (main.ramp i) = true) as Hok.
  { apply (convert_facts.below_forallb
             (fun i => closed_form.is_Some_b (main.ramp i)) 31);
      [vm_compute; reflexivity | lia]. }
  destruct (main.ramp i); [by eexists | discriminate].
Qed.

Lemma main_convertRow_total (img : Image) (y : Z) (reverse : bool) :
  wf_image img ->
  main.convertRow img y reverse
  = Some (map (fun x => main.mkPixelChar x y (glyph reverse (At img x y)))
              (seqZ 0 (X (Max (Bounds img))))).
Proof.
  intros (_ & _ & Hp). unfold main.convertRow. apply mapM_total.
  intros x _. unfold glyph.
  destruct (main_ramp_total _ (main_convertRow_i_range reverse _ (Hp x y)))
    as [g ->].
  reflexivity.
Qed.

Lemma imgToASCII_matrix_eq (img : Image) (reverse : bool) :
  wf_image img ->
  main.imgToASCII_matrix reverse img = Some (glyph_rows img reverse).
Proof.
  intros Hwf. pose proof Hwf as (HX & HY & _).
  unfold main.imgToASCII_matrix.
  rewrite make_matrix_nonneg by assumption. cbn [mbind option_bind].
  rewrite (in_row_order_total _
             (fun y => map (fun x => main.mkPixelChar x y
                                       (glyph reverse (At img x y)))
                           (seqZ 0 (X (Max (Bounds img))))))
    by (intros y _; by apply main_convertRow_total).
  cbn [mbind option_bind].
  pose proof (range_matrix main.x main.y main.char false
                (fun x y => main.mkPixelChar x y (glyph reverse (At img x y)))
                (fun _ _ => eq_refl) (fun _ _ => eq_refl) 0
                (Z.to_nat (X (Max (Bounds img))))
                (Z.to_nat (Y (Max (Bounds img))))) as Hfill.
  rewrite !Z2Nat.id in Hfill by assumption. exact Hfill.
Qed.

End main_facts.

(** ** The order in which the collector receives does not matter *)

Module schedule_facts.

Import slice collector collector_facts.

Section any_order.

Context {M A : Type}.
Variables (xof yof : M -> Z) (val : M -> A) (invert : bool).

(** What a successful write is. *)
Lemma write_Some (matrix matrix' : list (list A)) (m : M) :
  write xof yof val invert matrix m = Some matrix' ->
  exists (y i : nat) (row : list A),
    yof m = Z.of_nat y /\ matrix !! y = Some row
    /\ (if invert then Z.of_nat (length row) - xof m - 1 else xof m)
       = Z.of_nat i
    /\ (i < length row)%nat
    /\ matrix' = <[y := <[i := val m]> row]> matrix.
Proof.
  unfold write, get, set. intros Hw.
  destruct (Z.leb_spec 0 (yof m)) as [Hy|]; [|discriminate].
  destruct (matrix !! Z.to_nat (yof m)) as [row|] eqn:Hrow; [|discriminate].
  cbn [mbind option_bind] in Hw. cbv zeta in Hw.
  set (i := if invert then Z.of_nat (length row) - xof m - 1 else xof m) in *.
  destruct (Z.leb_spec 0 i) as [Hi|]; [|discriminate].
  destruct (Z.ltb_spec i (Z.of_nat (length row))) as [Hlt|]; [|discriminate].
  cbn [andb mbind option_bind] in Hw.
  assert ((yof m <? Z.of_nat (length matrix)) = true) as Hin.
  { apply Z.ltb_lt. apply lookup_lt_Some in Hrow. lia. }
  rewrite Hin in Hw. cbn [andb] in Hw.
  injection Hw as <-.
  exists (Z.to_nat (yof m)), (Z.to_nat i), row.
  repeat split; [lia | exact Hrow | lia | lia].
Qed.

(** A write keeps the length of the matrix and of every row. *)
Lemma write_shape (matrix matrix' : list (list A)) (m : M) :
  write xof yof val invert matrix m = Some matrix' ->
  map length matrix' = map length matrix.
Proof.
  intros Hw. apply write_Some in Hw as (y & i & row & _ & Hrow & _ & _ & ->).
  rewrite !convert_facts.map_fmap, list_fmap_insert, length_insert.
  apply list_insert_id. rewrite list_lookup_fmap, Hrow. reflexivity.
Qed.

(** Whether a write succeeds is decided by that shape. *)
Lemma write_defined (m1 m2 : list (list A)) (m : M) :
  map length m1 = map length m2 ->
  is_Some (write xof yof val invert m1 m) ->
  is_Some (write xof yof val invert m2 m).
Proof.
  intros Hshape [m1' Hw].
  apply write_Some in Hw as (y & i & row & Hy & Hrow & Hi & Hlt & _).
  assert (exists row2, m2 !! y = Some row2 /\ length row2 = length row)
    as (row2 & Hrow2 & Hlen).
  { assert (map length m2 !! y = Some (length row)) as Hl.
    { rewrite <- Hshape, convert_facts.map_fmap, list_lookup_fmap, Hrow.
      reflexivity. }
    rewrite convert_facts.map_fmap, list_lookup_fmap in Hl.
    destruct (m2 !! y) as [row2|]; [|discriminate].
    exists row2. split; [reflexivity|]. simpl in Hl. congruence. }
  eexists. eapply write_at; eauto.
  - rewrite Hlen. exact Hi.
  - rewrite Hlen. exact Hlt.
Qed.

(** Two writes to different cells can be made in either order. *)
Lemma write_comm (matrix : list (list A)) (a b : M) :
  (yof a, xof a) <> (yof b, xof b) ->
  write xof yof val invert matrix a
    ≫= (fun m1 => write xof yof val invert m1 b)
  = write xof yof val invert matrix b
      ≫= (fun m1 => write xof yof val invert m1 a).
Proof.
  intros Hne.
  destruct (write xof yof val invert matrix a) as [ma|] eqn:Ha;
    destruct (write xof yof val invert matrix b) as [mb|] eqn:Hb;
    cbn [mbind option_bind].
  - pose proof Ha as Ha'. pose proof Hb as Hb'.
    apply write_Some in Ha' as (ya & ia & ra & Hya & Hra & Hia & Hla & ->).
    apply write_Some in Hb' as (yb & ib & rb & Hyb & Hrb & Hib & Hlb & ->).
    destruct (decide (ya = yb)) as [<-|Hy].
    + assert (rb = ra) as -> by congruence.
      assert (ia <> ib) as Hi.
      { intros <-. apply Hne. f_equal; [congruence|].
        destruct invert; lia. }
      rewrite (write_at xof yof val invert _ b ya ib (<[ia := val a]> ra));
        [|assumption
         |apply list_lookup_insert_eq; by eapply lookup_lt_Some
         |by rewrite length_insert
         |by rewrite length_insert].
      rewrite (write_at xof yof val invert _ a ya ia (<[ib := val b]> ra));
        [|assumption
         |apply list_lookup_insert_eq; by eapply lookup_lt_Some
         |by rewrite length_insert
         |by rewrite length_insert].
      rewrite !list_insert_insert_eq. f_equal. f_equal.
      apply list_insert_insert_ne. congruence.
    + rewrite (write_at xof yof val invert _ b yb ib rb);
        [|assumption
         |by rewrite list_lookup_insert_ne
         |assumption|assumption].
      rewrite (write_at xof yof val invert _ a ya ia ra);
        [|assumption
         |by rewrite list_lookup_insert_ne
         |assumption|assumption].
      f_equal. apply list_insert_insert_ne. congruence.
  - destruct (write xof yof val invert ma b) as [m'|] eqn:Hb'; [|reflexivity].
    exfalso.
    assert (is_Some (write xof yof val invert matrix b)) as [? Hs];
      [|congruence].
    eapply write_defined; [eapply write_shape; exact Ha|by eexists].
  - destruct (write xof yof val invert mb a) as [m'|] eqn:Ha'; [|reflexivity].
    exfalso.
    assert (is_Some (write xof yof val invert matrix a)) as [? Hs];
      [|congruence].
    eapply write_defined; [eapply write_shape; exact Hb|by eexists].
  - reflexivity.
Qed.

(** Messages for different cells, received in any order, leave the same
    matrix. *)
Lemma range_any_order (ch ch' : list M) :
  ch ≡ₚ ch' ->
  NoDup (map (fun m => (yof m, xof m)) ch) ->
  forall matrix,
    range (write xof yof val invert) ch matrix
    = range (write xof yof val invert) ch' matrix.
Proof.
  induction 1 as [|m ch ch' Hperm IH|a b ch|ch ch' ch'' H1 IH1 H2 IH2];
    intros Hnd matrix.
  - reflexivity.
  - cbn [map] in Hnd. apply NoDup_cons in Hnd as [_ Hnd]. cbn [range].
    destruct (write xof yof val invert matrix m); cbn [mbind option_bind];
      [by apply IH | reflexivity].
  - cbn [map] in Hnd. apply NoDup_cons in Hnd as [Hab _].
    cbn [range].
    pose proof (write_comm matrix b a) as Hc.
    destruct (write xof yof val invert matrix a) as [ma|],
             (write xof yof val invert matrix b) as [mb|];
      cbn [mbind option_bind] in *.
    + rewrite <- Hc; [reflexivity|]. intros Heq. apply Hab.
      rewrite Heq. left.
    + destruct (write xof yof val invert ma b); [|reflexivity].
      discriminate Hc. intros Heq. apply Hab. rewrite Heq. left.
    + destruct (write xof yof val invert mb a); [|reflexivity].
      symmetry in Hc. discriminate Hc. intros Heq. apply Hab.
      rewrite Heq. left.
    + reflexivity.
  - rewrite IH1 by exact Hnd. apply IH2.
    pose proof (Permutation_map (fun m => (yof m, xof m)) H1) as Hp.
    rewrite <- Hp. exact Hnd.
Qed.

Variable cell : Z -> Z -> M.
Hypothesis cell_x : forall x y, xof (cell x y) = x.
Hypothesis cell_y : forall x y, yof (cell x y) = y.

Lemma NoDup_pairs (ys xs : list Z) :
  NoDup ys -> NoDup xs ->
  NoDup (concat (map (fun y => map (fun x => (y, x)) xs) ys)).
Proof.
  intros Hys Hxs. induction Hys as [|y ys Hy _ IH]; [constructor|].
  cbn [map concat]. apply NoDup_app. split; [|split; [|exact IH]].
  - rewrite convert_facts.map_fmap. apply NoDup_fmap_2; [|exact Hxs].
    intros x1 x2 [= ->]. reflexivity.
  - intros [y' x'] Hin Hin'.
    apply list_elem_of_In, in_map_iff in Hin as (x & [= <- <-] & _).
    apply list_elem_of_In, in_concat in Hin' as (l & Hl & Hin').
    apply in_map_iff in Hl as (y'' & <- & Hy'').
    apply in_map_iff in Hin' as (x'' & [= <- _] & _).
    apply Hy, list_elem_of_In, Hy''.
Qed.

Lemma cells_targets (W H : Z) :
  map (fun m => (yof m, xof m))
      (concat (map (fun y => map (fun x => cell x y) (seqZ 0 W)) (seqZ 0 H)))
  = concat (map (fun y => map (fun x => (y, x)) (seqZ 0 W)) (seqZ 0 H)).
Proof.
  rewrite concat_map, map_map. f_equal. apply map_ext. intros y.
  rewrite map_map. apply map_ext. intros x. by rewrite cell_x, cell_y.
Qed.

(** The messages of every row, received in any order, fill the matrix
    as they do row after row. *)
Lemma range_matrix_any_order (z : A) (W H : nat) (ch : list M) :
  ch ≡ₚ concat (map (fun y => map (fun x => cell x y) (seqZ 0 (Z.of_nat W)))
                    (seqZ 0 (Z.of_nat H))) ->
  range (write xof yof val invert) ch (replicate H (replicate W z))
  = Some (map (fun y => orient invert
                          (map (fun x => val (cell x y))
                               (seqZ 0 (Z.of_nat W))))
              (seqZ 0 (Z.of_nat H))).
Proof.
  intros Hperm.
  rewrite <- (range_matrix xof yof val invert cell cell_x cell_y z W H).
  symmetry. apply range_any_order; [by symmetry|].
  rewrite cells_targets. apply NoDup_pairs; apply NoDup_seqZ.
Qed.

End any_order.

Import image convert closed_form convert_facts.

(** [ImgToASCII] fills the same matrix whatever the order in which its
    collector receives what the rows send. *)
Lemma ImgToASCII_any_schedule (img : Image) (negative invert : bool)
  (sent ch : list PixelChar) :
  wf_image img ->
  in_row_order (map (fun y => convertRow img y negative)
                    (seqZ 0 (Y (Max (Bounds img))))) = Some sent ->
  ch ≡ₚ sent ->
  (matrix ← make_matrix 0 (Max (Bounds img));
   range (collect invert) ch matrix)
  = ImgToASCII_matrix img negative invert.
Proof.
  intros Hwf Hsent Hperm. pose proof Hwf as (HX & HY & _).
  rewrite ImgToASCII_matrix_eq by exact Hwf.
  rewrite (in_row_order_total _
             (fun y => map (fun x => cellASCII img negative x y)
                           (seqZ 0 (X (Max (Bounds img)))))) in Hsent
    by (intros y _; by apply convertRow_total).
  injection Hsent as <-.
  rewrite make_matrix_nonneg by assumption. cbn [mbind option_bind].
  change (collect invert) with (write x y char invert).
  pose proof (range_matrix_any_order x y char invert (cellASCII img negative)
                (fun _ _ => eq_refl) (fun _ _ => eq_refl) 0
                (Z.to_nat (X (Max (Bounds img))))
                (Z.to_nat (Y (Max (Bounds img)))) ch) as Hfill.
  rewrite !Z2Nat.id in Hfill by assumption. exact (Hfill Hperm).
Qed.

(** And so does [ImgToASCIIColoured]. *)
Lemma ImgToASCIIColoured_any_schedule (img : Image) (negative invert : bool)
  (sent ch : list ColourPixelChar) :
  wf_image img ->
  in_row_order (map (fun y => convertRowColour img y negative)
                    (seqZ 0 (Y (Max (Bounds img))))) = Some sent ->
  ch ≡ₚ sent ->
  (matrix ← make_matrix [] (Max (Bounds img));
   range (collectColoured invert) ch matrix)
  = ImgToASCIIColoured_matrix img negative invert.
Proof.
  intros Hwf Hsent Hperm. pose proof Hwf as (HX & HY & _).
  rewrite ImgToASCIIColoured_matrix_eq by exact Hwf.
  rewrite (in_row_order_total _
             (fun y => map (fun x => cellColour img negative x y)
                           (seqZ 0 (X (Max (Bounds img)))))) in Hsent
    by (intros y _; by apply convertRowColour_total).
  injection Hsent as <-.
  rewrite make_matrix_nonneg by assumption. cbn [mbind option_bind].
  pose proof (range_matrix_any_order
                (fun m => x (pc m)) (fun m => y (pc m))
                (fun m => match c m with
                          | Some c => colour.TrueEsc c
                          | None => []
                          end ++ gostr.EncodeRune (char (pc m)))
                invert (cellColour img negative)
                (fun _ _ => eq_refl) (fun _ _ => eq_refl) []
                (Z.to_nat (X (Max (Bounds img))))
                (Z.to_nat (Y (Max (Bounds img)))) ch) as Hfill.
  rewrite !Z2Nat.id in Hfill by assumption. exact (Hfill Hperm).
Qed.

End schedule_facts.

(** ** Integers that a float64 holds exactly *)

Module float_facts.

Import Float64.
Import rounding.

Lemma digits2_pos_lower (p : positive) :
  2 ^ (Z.pos (digits2_pos p) - 1) <= Z.pos p.
Proof.
  induction p as [p IH|p IH|]; cbn [digits2_pos]; [| |simpl; lia].
  - rewrite Pos2Z.inj_succ.
    replace (Z.succ (Z.pos (digits2_pos p)) - 1)
      with (Z.succ (Z.pos (digits2_pos p) - 1)) by lia.
    rewrite Z.pow_succ_r by lia. lia.
  - rewrite Pos2Z.inj_succ.
    replace (Z.succ (Z.pos (digits2_pos p)) - 1)
      with (Z.succ (Z.pos (digits2_pos p) - 1)) by lia.
    rewrite Z.pow_succ_r by lia. lia.
Qed.

Lemma digits2_pos_small (p : positive) :
  Z.pos p < 2 ^ 53 -> Z.pos (digits2_pos p) <= 53.
Proof.
  intros Hp. pose proof (digits2_pos_lower p) as Hlow.
  destruct (Z_le_gt_dec (Z.pos (digits2_pos p)) 53) as [|Hgt]; [assumption|].
  exfalso.
  assert (2 ^ 53 <= 2 ^ (Z.pos (digits2_pos p) - 1))
    by (apply Z.pow_le_mono_r; lia).
  lia.
Qed.

Lemma iter_xO_digits (k p : positive) :
  Z.pos (digits2_pos (Pos.iter xO p k)) = Z.pos (digits2_pos p) + Z.pos k.
Proof.
  induction k as [|k IH] using Pos.peano_ind.
  - simpl. lia.
  - rewrite Pos.iter_succ. cbn [digits2_pos]. lia.
Qed.

Lemma iter_xO_value (k p : positive) :
  Z.pos (Pos.iter xO p k) = Z.pos p * 2 ^ Z.pos k.
Proof.
  induction k as [|k IH] using Pos.peano_ind.
  - simpl. lia.
  - rewrite Pos.iter_succ, Pos2Z.inj_succ, Z.pow_succ_r by lia.
    rewrite Pos2Z.inj_xO, IH. lia.
Qed.

(** A canonical mantissa is left as it is by the rounding. *)
Lemma binary_round_aux_canonical (s : bool) (m : positive) (e : Z) :
  bounded prec emax m e = true ->
  binary_round_aux prec emax s (Z.pos m) e loc_Exact = S754_finite s m e.
Proof.
  unfold bounded, canonical_mantissa. intros Hb.
  apply andb_prop in Hb as [Hc He]. apply Z.eqb_eq in Hc.
  unfold binary_round_aux, shr_fexp. cbn [Zdigits2 shr_record_of_loc].
  rewrite Hc, Z.sub_diag. cbn [shr shr_m loc_of_shr_record round_nearest_even].
  cbn [Zdigits2 shr_record_of_loc]. rewrite Hc, Z.sub_diag. cbn [shr shr_m].
  rewrite He. reflexivity.
Qed.

Lemma shifted_spec (p : positive) :
  Z.pos p < 2 ^ 53 ->
  let '(m, e) := shifted p in
  bounded prec emax m e = true /\ - 52 <= e <= 0
  /\ Z.pos m = Z.pos p * 2 ^ (- e).
Proof.
  intros Hp. pose proof (digits2_pos_small p Hp) as Hd.
  unfold shifted, shl_align, fexp, emin, prec, emax.
  set (d := Z.pos (digits2_pos p)) in *.
  assert (0 < d) by (unfold d; lia).
  rewrite Z.add_0_r, Z.sub_0_r.
  rewrite Z.max_l by lia.
  destruct (d - 53) as [|k|k] eqn:Hk; try lia.
  - split; [|split; [lia|simpl; lia]].
    unfold bounded, canonical_mantissa, fexp, emin. fold d.
    rewrite Z.max_l by lia.
    apply andb_true_intro. split; [apply Z.eqb_eq; lia | apply Z.leb_le; lia].
  - split; [|split; [lia|]].
    + unfold bounded, canonical_mantissa, fexp, emin.
      rewrite iter_xO_digits. fold d.
      rewrite Z.max_l by lia.
      apply andb_true_intro.
      split; [apply Z.eqb_eq; lia | apply Z.leb_le; lia].
    + rewrite iter_xO_value. reflexivity.
Qed.

Lemma binary_round_small (s : bool) (p : positive) :
  Z.pos p < 2 ^ 53 ->
  binary_round prec emax s p 0
  = S754_finite s (fst (shifted p)) (snd (shifted p)).
Proof.
  intros Hp. pose proof (shifted_spec p Hp) as Hs.
  unfold binary_round. fold (shifted p).
  destruct (shifted p) as [m e]. destruct Hs as (Hb & _ & _).
  apply binary_round_aux_canonical. exact Hb.
Qed.

Lemma digits2_pos_upper (p : positive) :
  Z.pos p < 2 ^ Z.pos (digits2_pos p).
Proof.
  induction p as [p IH|p IH|]; cbn [digits2_pos]; [| |simpl; lia].
  - rewrite Pos2Z.inj_succ, Z.pow_succ_r by lia. lia.
  - rewrite Pos2Z.inj_succ, Z.pow_succ_r by lia. lia.
Qed.

Lemma bounded_small (m : positive) (e : Z) :
  bounded prec emax m e = true -> Z.pos m < 2 ^ 53.
Proof.
  unfold bounded, canonical_mantissa, fexp. intros Hb.
  apply andb_prop in Hb as [Hc _]. apply Z.eqb_eq in Hc.
  pose proof (digits2_pos_upper m) as Hup.
  assert (Z.pos (digits2_pos m) <= 53) as Hd by (unfold prec in Hc; lia).
  eapply Z.lt_le_trans; [exact Hup|]. apply Z.pow_le_mono_r; lia.
Qed.

(** The binary64 number one. *)
Lemma Prim2SF_one : Prim2SF 1 = S754_finite false 4503599627370496 (-52).
Proof. reflexivity. Qed.

Lemma SFmul_one (s : bool) (m : positive) (e : Z) :
  bounded prec emax m e = true ->
  SFmul prec emax (S754_finite s m e)
        (S754_finite false 4503599627370496 (-52))
  = S754_finite s m e.
Proof.
  intros Hb. pose proof Hb as Hb'.
  unfold bounded, canonical_mantissa in Hb'.
  apply andb_prop in Hb' as [Hc He]. apply Z.eqb_eq in Hc.
  unfold SFmul. rewrite xorb_false_r.
  assert ((m * 4503599627370496)%positive = Pos.iter xO m 52) as ->
    by (rewrite Pos.mul_comm; reflexivity).
  unfold binary_round_aux at 1. unfold shr_fexp at 1.
  cbn [Zdigits2 shr_record_of_loc]. rewrite iter_xO_digits.
  replace (Z.pos (digits2_pos m) + 52 + (e + -52))
    with (Z.pos (digits2_pos m) + e) by lia.
  rewrite Hc. replace (e - (e + -52)) with 52 by lia.
  cbn [shr].
  assert (SpecFloat.iter_pos shr_1 52
            {| shr_m := Z.pos (Pos.iter xO m 52);
               shr_r := false; shr_s := false |}
          = {| shr_m := Z.pos m; shr_r := false; shr_s := false |}) as ->
    by reflexivity.
  cbn [shr_m loc_of_shr_record round_nearest_even].
  replace (e + -52 + 52) with e by lia.
  unfold shr_fexp. cbn [Zdigits2 shr_record_of_loc].
  rewrite Hc, Z.sub_diag. cbn [shr shr_m]. rewrite He. reflexivity.
Qed.

(** Multiplying a finite float by [1.0] gives it back. *)
Lemma mul_one (x : float64) (s : bool) (m : positive) (e : Z) :
  Prim2SF x = S754_finite s m e -> (x * 1)%float = x.
Proof.
  intros Hx. apply Prim2SF_inj. rewrite FloatAxioms.mul_spec, Hx, Prim2SF_one.
  apply SFmul_one. pose proof (Prim2SF_valid x) as Hv.
  rewrite Hx in Hv. exact Hv.
Qed.

Lemma Prim2SF_of_Z_pos (s : bool) (p : positive) :
  Z.pos p < 2 ^ 53 ->
  Prim2SF (SF2Prim (binary_round prec emax s p 0))
  = S754_finite s (fst (shifted p)) (snd (shifted p)).
Proof.
  intros Hp. rewrite binary_round_small by exact Hp.
  apply Prim2SF_SF2Prim. pose proof (shifted_spec p Hp) as Hs.
  destruct (shifted p) as [m e]. apply Hs.
Qed.

Lemma trunc_shifted (s : bool) (p : positive) :
  Z.pos p < 2 ^ 53 ->
  trunc (S754_finite s (fst (shifted p)) (snd (shifted p)))
  = Some (if s then - Z.pos p else Z.pos p).
Proof.
  intros Hp. pose proof (shifted_spec p Hp) as Hs.
  destruct (shifted p) as [m e]. destruct Hs as (_ & He & Hm).
  cbn [trunc fst snd]. f_equal.
  assert ((if 0 <=? e then Z.pos m * 2 ^ e else Z.shiftr (Z.pos m) (- e))
          = Z.pos p) as ->; [|reflexivity].
  destruct (Z.leb_spec 0 e).
  - assert (e = 0) as -> by lia. simpl in Hm. lia.
  - rewrite Z.shiftr_div_pow2 by lia. rewrite Hm.
    apply Z.div_mul. apply Z.pow_nonzero; lia.
Qed.

(** [int(float64(n))] gives [n] back, and so does rounding in between. *)
Lemma to_int_of_Z (n : Z) :
  0 <= n < 2 ^ 53 ->
  to_int (of_Z n) = Some n /\ Round (of_Z n) = of_Z n
  /\ (of_Z n * 1)%float = of_Z n.
Proof.
  intros Hn. destruct n as [|p|p]; [repeat split; reflexivity| |lia].
  unfold of_Z. cbn [binary_normalize].
  pose proof (Prim2SF_of_Z_pos false p (proj2 Hn)) as Hx.
  pose proof (shifted_spec p (proj2 Hn)) as Hs.
  pose proof (trunc_shifted false p (proj2 Hn)) as Ht.
  split; [|split].
  - unfold to_int. rewrite Hx, Ht. unfold MinInt, MaxInt.
    rewrite (proj2 (Z.leb_le _ _)), (proj2 (Z.leb_le _ _)) by lia.
    reflexivity.
  - unfold Round. rewrite Hx.
    destruct (shifted p) as [m e]. destruct Hs as (_ & He & Hm).
    cbn [fst snd] in *.
    destruct (Z.leb_spec 0 e); [reflexivity|].
    rewrite Hm, Z.div_mul, Z.mod_mul by (apply Z.pow_nonzero; lia).
    rewrite (proj2 (Z.leb_gt _ _))
      by (rewrite Z.mul_0_r; apply Z.pow_pos_nonneg; lia).
    reflexivity.
  - eapply mul_one. exact Hx.
Qed.

Lemma half_up_div (m d : Z) :
  0 <= m -> 0 < d ->
  (2 * m + d) / (2 * d) = if d <=? 2 * (m mod d) then m / d + 1 else m / d.
Proof.
  intros Hm Hd.
  pose proof (Z.div_mod m d ltac:(lia)) as Hdiv.
  pose proof (Z.mod_pos_bound m d Hd) as Hr.
  destruct (Z.leb_spec d (2 * (m mod d))).
  - symmetry. apply (Z.div_unique _ _ _ (2 * (m mod d) - d)); lia.
  - symmetry. apply (Z.div_unique _ _ _ (2 * (m mod d) + d)); lia.
Qed.

Lemma round_half_away_signed (s : bool) (a den : Z) :
  0 <= a -> 0 < den ->
  round_half_away ((if s then -1 else 1) * a) den
  = (if s then -1 else 1) * ((2 * a + den) / (2 * den)).
Proof.
  intros Ha Hden. unfold round_half_away.
  destruct (Z.eq_dec a 0) as [->|Hne].
  - rewrite Z.mul_0_r. change (Z.sgn 0) with 0. change (Z.abs 0) with 0.
    rewrite (Z.div_small (2 * 0 + den)) by lia. lia.
  - destruct s.
    + replace (Z.sgn (-1 * a)) with (-1) by lia.
      replace (Z.abs (-1 * a)) with a by lia. reflexivity.
    + replace (Z.sgn (1 * a)) with 1 by lia.
      replace (Z.abs (1 * a)) with a by lia. reflexivity.
Qed.

Lemma Prim2SF_zero (s : bool) : Prim2SF (SF2Prim (S754_zero s)) = S754_zero s.
Proof. destruct s; reflexivity. Qed.

(** [int(math.Round(x))] is the nearest integer, halves away from zero. *)
Lemma to_int_Round (x : float64) : to_int (Round x) = nearest x.
Proof.
  unfold Round, nearest.
  destruct (Prim2SF x) as [sz|si| |s m e] eqn:Hx;
    try (unfold to_int; rewrite Hx; reflexivity).
  pose proof (Prim2SF_valid x) as Hv. rewrite Hx in Hv. cbn in Hv.
  pose proof (bounded_small m e Hv) as Hm.
  destruct (Z.leb_spec 0 e) as [He|He].
  - unfold to_int. rewrite Hx. cbn [trunc].
    rewrite (proj2 (Z.leb_le 0 e)) by lia.
    rewrite Z.max_l, Z.max_r by lia.
    rewrite round_half_away_signed by (simpl; lia).
    change (2 ^ 0) with 1.
    replace ((2 * (Z.pos m * 2 ^ e) + 1) / (2 * 1)) with (Z.pos m * 2 ^ e).
    2:{ apply (Z.div_unique _ _ _ 1); lia. }
    replace (if s then - (Z.pos m * 2 ^ e) else Z.pos m * 2 ^ e)
      with ((if s then -1 else 1) * (Z.pos m * 2 ^ e))
      by (destruct s; lia).
    reflexivity.
  - rewrite Z.max_r, Z.max_l by lia. rewrite Z.pow_0_r, Z.mul_1_r.
    assert (0 < 2 ^ (- e)) as Hd by (apply Z.pow_pos_nonneg; lia).
    assert (2 <= 2 ^ (- e)) as Hd2.
    { change 2 with (2 ^ 1) at 1. apply Z.pow_le_mono_r; lia. }
    rewrite round_half_away_signed by lia.
    rewrite half_up_div by lia.
    set (n := if 2 ^ (- e) <=? 2 * (Z.pos m mod 2 ^ (- e))
              then Z.pos m / 2 ^ (- e) + 1 else Z.pos m / 2 ^ (- e)).
    assert (0 <= n < 2 ^ 53) as Hn.
    { assert (0 <= Z.pos m / 2 ^ (- e)) by (apply Z.div_pos; lia).
      assert (Z.pos m / 2 ^ (- e) <= Z.pos m / 2)
        by (apply Z.div_le_compat_l; lia).
      assert (Z.pos m / 2 < 2 ^ 52)
        by (apply Z.div_lt_upper_bound; [lia|];
            change (2 * 2 ^ 52) with (2 ^ 53); lia).
      unfold n. destruct (_ <=? _); lia. }
    destruct n as [|p|p] eqn:Hnp; [| |lia].
    + replace (if s then - 0 else 0) with 0 by (destruct s; reflexivity).
      cbn [binary_normalize]. unfold to_int. rewrite Prim2SF_zero.
      rewrite Z.mul_0_r. reflexivity.
    + assert (binary_normalize prec emax
                (if s then - Z.pos p else Z.pos p) 0 s
              = binary_round prec emax s p 0) as ->
        by (destruct s; reflexivity).
      unfold to_int.
      rewrite Prim2SF_of_Z_pos, trunc_shifted by lia.
      replace (if s then - Z.pos p else Z.pos p)
        with ((if s then -1 else 1) * Z.pos p) by (destruct s; lia).
      reflexivity.
Qed.

End float_facts.

(** ** Reading the matrices *)

Module matrix_facts.

Import gostr image convert collector_facts convert_facts.
Import collector closed_form.

Lemma get_map_seqZ {A : Type} (f : Z -> A) (n i : Z) :
  0 <= i < n -> slice.get (map f (seqZ 0 n)) i = Some (f i).
Proof.
  intros Hi. unfold slice.get. rewrite (proj2 (Z.leb_le 0 i)) by lia.
  rewrite map_fmap, list_lookup_fmap, lookup_seqZ_lt by lia.
  simpl. f_equal. f_equal. lia.
Qed.

Lemma length_map_seqZ {A : Type} (f : Z -> A) (n : Z) :
  length (map f (seqZ 0 n)) = Z.to_nat n.
Proof. rewrite length_map. apply length_seqZ. Qed.

Lemma get_reverse_map_seqZ {A : Type} (f : Z -> A) (n i : Z) :
  0 <= i < n ->
  slice.get (reverse (map f (seqZ 0 n))) (n - i - 1) = Some (f i).
Proof.
  intros Hi. unfold slice.get. rewrite (proj2 (Z.leb_le 0 _)) by lia.
  rewrite reverse_lookup by (rewrite length_map_seqZ; lia).
  rewrite length_map_seqZ.
  replace (Z.to_nat n - S (Z.to_nat (n - i - 1)))%nat with (Z.to_nat i)
    by lia.
  pose proof (get_map_seqZ f n i Hi) as Hg. unfold slice.get in Hg.
  rewrite (proj2 (Z.leb_le 0 i)) in Hg by lia. exact Hg.
Qed.

(** In a matrix in closed form the cell of a pixel holds its value, at
    the mirrored column when the rows are mirrored. *)
Lemma cell_closed_form {A : Type} (invert : bool) (f : Z -> Z -> A)
  (W H x y : Z) :
  0 <= x < W -> 0 <= y < H ->
  cell (map (fun y => orient invert (map (fun x => f x y) (seqZ 0 W)))
            (seqZ 0 H))
       y (if invert then W - x - 1 else x)
  = Some (f x y).
Proof.
  intros Hx Hy. unfold cell. rewrite get_map_seqZ by exact Hy.
  cbn [mbind option_bind]. unfold orient. destruct invert.
  - apply (get_reverse_map_seqZ (fun x => f x y)). exact Hx.
  - apply (get_map_seqZ (fun x => f x y)). exact Hx.
Qed.

Lemma closed_form_mirror {A : Type} (f : Z -> Z -> A) (W H : Z) :
  map reverse
      (map (fun y => orient true (map (fun x => f x y) (seqZ 0 W)))
           (seqZ 0 H))
  = map (fun y => orient false (map (fun x => f x y) (seqZ 0 W)))
        (seqZ 0 H).
Proof.
  rewrite map_map. apply map_ext. intros y. unfold orient.
  apply reverse_involutive.
Qed.


End matrix_facts.

(** ** Strings *)

Module gostr_facts.

Import gostr.






End gostr_facts.

(** ** The glyph mapper (C1, C2, C3, C7, C8, C9, C10) *)

Module glyph_properties.

Import gostr Float64 image colour convert.
Import index_facts collector_facts convert_facts matrix_facts gostr_facts.
Import quotients collector closed_form samples.

(** C1.  A solid white 1x1 image converted with [negative = false]
    comes out as the glyph of index 0, U+00D1, and not as the space
    that the specification and the comment of [ImgToASCII] announce; a
    solid black pixel comes out as that same glyph, as specified. *)
Theorem C1_white_pixel_renders_densest_glyph :
  ImgToASCII (uniform 1 1 white) false false = Some (EncodeRune 209)
  /\ ImgToASCII (uniform 1 1 white) false false <> Some (lit " ")
  /\ convertRow_i false white = Some 0
  /\ ImgToASCII (uniform 1 1 black) false false = Some (EncodeRune 209)
  /\ ramp 0 = Some 209.
Proof.
  assert (ImgToASCII (uniform 1 1 white) false false
          = Some (EncodeRune 209)) as Hw by (vm_compute; reflexivity).
  split; [exact Hw|].
  split; [rewrite Hw; intros H; vm_compute in H; discriminate H|].
  repeat split; vm_compute; reflexivity.
Qed.

(** Every pixel of a solid black image is sent as the glyph of
    index 0 when [reverse = false]. *)
Lemma black_glyph (p : RGBA) :
  cR p = 0 -> cG p = 0 -> cB p = 0 -> cA p <> 0 -> glyph false p = 209.
Proof.
  intros Hr Hg Hb Ha. unfold glyph.
  rewrite convertRow_i_opaque by (unfold wf_colour; lia || assumption).
  unfold quotient. rewrite Hr, Hg, Hb. reflexivity.
Qed.

(** Before the modulo the index does follow the channel sum: it does
    not grow with the sum when [reverse = false], and does not shrink
    when [reverse = true]. *)
Lemma index_before_modulo_monotone (reverse : bool) (p1 p2 : RGBA) :
  wf_colour p1 -> wf_colour p2 -> cA p1 <> 0 -> cA p2 <> 0 ->
  cR p2 + cG p2 + cB p2 < cR p1 + cG p1 + cB p1 ->
  exists i1 i2,
    convertRow_i reverse p1 = Some i1 /\ convertRow_i reverse p2 = Some i2
    /\ if reverse then i2 <= i1 else i1 <= i2.
Proof.
  intros Hp1 Hp2 Ha1 Ha2 Hsum.
  rewrite !convertRow_i_opaque by assumption.
  pose proof (quotient_mono p1 p2 ltac:(lia)).
  do 2 eexists. split; [reflexivity|]. split; [reflexivity|].
  destruct reverse; simpl; lia.
Qed.

(** C2.  The ramp index does not follow the channel sum at the end of
    the range, where [i = cLen] is folded to 0 by the modulo: with
    [reverse = false] the pixel (6780, 0, 0) is brighter than black
    and gets index 28 against 0; with [reverse = true] white gets
    index 0 against 28 for the darker (65535, 65535, 65534). *)
Theorem C2_modulo_breaks_tone_order :
  ramp_index false (mkRGBA 6780 0 0 65535) = Some 28
  /\ ramp_index false black = Some 0
  /\ ramp_index true white = Some 0
  /\ ramp_index true (mkRGBA 65535 65535 65534 65535) = Some 28.
Proof. repeat split; vm_compute; reflexivity. Qed.

(** C3.  A pixel with alpha 0 gets index 28, the space, whatever
    [reverse] is; [ImgToASCII] and [ImgToASCIIColoured] put a space,
    with no escape before it, in the cell of the pixel, mirrored or
    not. *)
Theorem C3_transparent_pixel_is_space (img : Image)
  (negative invert : bool) (x y : Z) :
  wf_image img ->
  0 <= x < X (Max (Bounds img)) -> 0 <= y < Y (Max (Bounds img)) ->
  cA (At img x y) = 0 ->
  convertRow_i negative (At img x y) = Some 28
  /\ convertRowColour_i negative (At img x y) = Some 28
  /\ ramp 28 = Some 32
  /\ (exists m,
        ImgToASCII_matrix img negative invert = Some m
        /\ cell m y (if invert then X (Max (Bounds img)) - x - 1 else x)
           = Some 32)
  /\ (exists m,
        ImgToASCIIColoured_matrix img negative invert = Some m
        /\ cell m y (if invert then X (Max (Bounds img)) - x - 1 else x)
           = Some (lit " ")).
Proof.
  intros Hwf Hx Hy Ha.
  split; [by apply convertRow_i_transparent|].
  split; [by apply convertRow_i_transparent|].
  split; [reflexivity|]. split.
  - eexists. split; [by apply ImgToASCII_matrix_eq|].
    unfold glyph_rows.
    rewrite (cell_closed_form invert
               (fun x y => glyph negative (At img x y))) by assumption.
    by rewrite glyph_transparent.
  - eexists. split; [by apply ImgToASCIIColoured_matrix_eq|].
    unfold unit_rows.
    rewrite (cell_closed_form invert
               (fun x y => unit negative (At img x y))) by assumption.
    unfold unit, esc, FromColor. rewrite Ha, glyph_transparent by exact Ha.
    reflexivity.
Qed.

Lemma C3_transparent_pixel_is_space_witness :
  exists m,
    ImgToASCII_matrix (uniform 2 1 clear) true true = Some m
    /\ cell m 0 1 = Some 32.
Proof.
  destruct (C3_transparent_pixel_is_space (uniform 2 1 clear) true true 0 0)
    as (_ & _ & _ & H & _).
  - wf_uniform.
  - simpl; lia.
  - simpl; lia.
  - reflexivity.
  - exact H.
Defined.

(** C7.  With [invert = true] the glyph of the pixel of column [x] is
    in column [W - x - 1] of its row, and so is the coloured unit of
    [ImgToASCIIColoured]; the mirrored matrix is the plain one with
    every row reversed, and mirroring it again gives the plain one
    back. *)
Theorem C7_mirror_placement (img : Image) (negative : bool) (x y : Z) :
  wf_image img ->
  0 <= x < X (Max (Bounds img)) -> 0 <= y < Y (Max (Bounds img)) ->
  exists m m0 mc mc0,
    ImgToASCII_matrix img negative true = Some m
    /\ ImgToASCII_matrix img negative false = Some m0
    /\ ImgToASCIIColoured_matrix img negative true = Some mc
    /\ ImgToASCIIColoured_matrix img negative false = Some mc0
    /\ cell m y (X (Max (Bounds img)) - x - 1)
       = Some (glyph negative (At img x y))
    /\ cell m0 y x = Some (glyph negative (At img x y))
    /\ cell mc y (X (Max (Bounds img)) - x - 1)
       = Some (unit negative (At img x y))
    /\ cell mc0 y x = Some (unit negative (At img x y))
    /\ map reverse m = m0 /\ map reverse mc = mc0
    /\ map reverse (map reverse m0) = m0
    /\ map reverse (map reverse mc0) = mc0.
Proof.
  intros Hwf Hx Hy.
  exists (glyph_rows img negative true), (glyph_rows img negative false),
         (unit_rows img negative true), (unit_rows img negative false).
  rewrite !ImgToASCII_matrix_eq, !ImgToASCIIColoured_matrix_eq
    by exact Hwf.
  repeat split.
  - apply (cell_closed_form true
             (fun x y => glyph negative (At img x y))); assumption.
  - apply (cell_closed_form false
             (fun x y => glyph negative (At img x y))); assumption.
  - apply (cell_closed_form true
             (fun x y => unit negative (At img x y))); assumption.
  - apply (cell_closed_form false
             (fun x y => unit negative (At img x y))); assumption.
  - apply closed_form_mirror.
  - apply closed_form_mirror.
  - rewrite map_map. rewrite <- (map_id (glyph_rows _ _ _)) at 2.
    apply map_ext. intros r. apply reverse_involutive.
  - rewrite map_map. rewrite <- (map_id (unit_rows _ _ _)) at 2.
    apply map_ext. intros r. apply reverse_involutive.
Qed.

Lemma three_wf : wf_image three.
Proof.
  unfold wf_image, wf_colour, three; simpl.
  split; [lia|]. split; [lia|]. intros a b.
  destruct (a =? 0); [simpl; lia|]. destruct (a =? 1); simpl; lia.
Qed.

Lemma C7_mirror_placement_witness :
  exists m m0,
    ImgToASCII_matrix three false true = Some m
    /\ ImgToASCII_matrix three false false = Some m0
    /\ cell m 0 2 = Some 209 /\ cell m0 0 0 = Some 209
    /\ map reverse m = m0.
Proof.
  destruct (C7_mirror_placement three false 0 0 three_wf)
    as (m & m0 & _ & _ & Hm & Hm0 & _ & _ & Hc & Hc0 & _ & _ & Hr & _).
  - simpl; lia.
  - simpl; lia.
  - exists m, m0. repeat split; assumption.
Defined.


Lemma glyph_in_ramp (reverse : bool) (p : RGBA) :
  wf_colour p -> glyph reverse p ∈ ASCIIChars.
Proof.
  intros Hp. pose proof (glyph_sent reverse p Hp) as Hg.
  destruct (convertRow_i reverse p) as [i|]; [|discriminate].
  cbn [mbind option_bind] in Hg. unfold ramp, slice.get in Hg.
  destruct (0 <=? _); [|discriminate].
  eapply list_elem_of_lookup_2. exact Hg.
Qed.






(** The text [ImgToASCIIColoured] returns: the units of a row side by
    side, the rows joined by a bare newline, one reset at the end. *)
Lemma ImgToASCIIColoured_text (img : Image) (negative invert : bool) :
  wf_image img ->
  ImgToASCIIColoured img negative invert
  = Some (Join (map (fun r => Join r [])
                    (unit_rows img negative invert)) newline
          ++ ResetColour).
Proof.
  intros Hwf. unfold ImgToASCIIColoured.
  rewrite ImgToASCIIColoured_matrix_eq by exact Hwf. reflexivity.
Qed.


(** C8.  On an image of one column and two rows of black pixels,
    [ImgToASCIIColoured] returns the two units separated by a bare
    newline, and one reset at the very end: no reset ends the first
    line.  [ImgToPreview] on the same image does put the reset before
    the newline, and none after the last line. *)
Theorem C8_reset_only_at_end_of_block :
  ImgToASCIIColoured (uniform 1 2 black) false false
  = Some ((TrueEsc (mkColour256 0 0 0) ++ EncodeRune 209)
          ++ newline
          ++ (TrueEsc (mkColour256 0 0 0) ++ EncodeRune 209)
          ++ ResetColour)
  /\ ImgToPreview (uniform 1 2 black) true
     = Some ((TrueEsc (mkColour256 0 0 0) ++ lit " ")
             ++ ResetColour ++ newline
             ++ (TrueEsc (mkColour256 0 0 0) ++ lit " ")).
Proof. split; vm_compute; reflexivity. Qed.

End glyph_properties.

(** ** The colour codec (C4) *)

Module colour_properties.

Import gostr colour.

(** C4.  [Hex] writes the prefix [0x]; [FromHex] parses in base 16
    with [strconv.ParseUint], which takes no prefix unless the base
    argument is 0, and stops at the [x] with a syntax error.  So
    [FromHex (Hex c)] is an error for every colour, and never the
    colour. *)
Theorem C4_FromHex_refuses_Hex (c : Colour256) :
  FromHex (Hex c) = inl ErrSyntax
  /\ take 2 (Hex c) = lit "0x"
  /\ digit_value (Z_of_byte "x"%byte) = Some 33.
Proof. split; [|split]; reflexivity. Qed.

Lemma digit_value_digit (d : Z) :
  0 <= d < 16 -> digit_value (Z_of_byte (digit d)) = Some d.
Proof.
  intros Hd.
  assert (match digit_value (Z_of_byte (digit d)) with
          | Some v => v =? d
          | None => false
          end = true) as Hok.
  { apply (convert_facts.below_forallb
             (fun d => match digit_value (Z_of_byte (digit d)) with
                       | Some v => v =? d
                       | None => false
                       end) 16);
      [vm_compute; reflexivity | exact Hd]. }
  destruct (digit_value _) as [v|]; [|discriminate].
  apply Z.eqb_eq in Hok. by subst.
Qed.

(** One hex digit read by the loop of [ParseUint(s, 16, 32)]. *)
Lemma ParseUint_loop_digit (d n : Z) (s : gostring) :
  0 <= d < 16 -> 0 <= n -> n * 16 + d <= 2 ^ 32 - 1 ->
  ParseUint_loop 16 ((2 ^ 64 - 1) / 16 + 1) (2 ^ 32 - 1) (digit d :: s) n
  = ParseUint_loop 16 ((2 ^ 64 - 1) / 16 + 1) (2 ^ 32 - 1) s (n * 16 + d).
Proof.
  intros Hd Hn Hmax. cbn [ParseUint_loop].
  rewrite digit_value_digit by exact Hd.
  rewrite (proj2 (Z.leb_gt 16 d)) by lia.
  change ((2 ^ 64 - 1) / 16 + 1) with 1152921504606846976.
  change (2 ^ 32 - 1) with 4294967295 in *.
  rewrite (proj2 (Z.leb_gt _ n)) by lia.
  cbv zeta. rewrite (Z.mod_small (n * 16)) by lia.
  rewrite (Z.mod_small (n * 16 + d)) by lia.
  rewrite (proj2 (Z.ltb_ge _ _)), (proj2 (Z.ltb_ge _ _)) by lia.
  reflexivity.
Qed.

(** Without the prefix the six digits are read back as the colour. *)
Lemma FromHex_digits_of_Hex (c : Colour256) :
  wf_Colour256 c -> FromHex (drop 2 (Hex c)) = inr c.
Proof.
  destruct c as [r g b]. intros (Hr & Hg & Hb). simpl in Hr, Hg, Hb.
  unfold FromHex, Hex, ParseUint, fmt_02x. cbn [R G B app].
  match goal with
  | |- context [drop 2 (lit "0x" ++ ?l)] =>
      change (drop 2 (lit "0x" ++ l)) with l
  end.
  assert (forall v, 0 <= v <= 255 -> 0 <= v / 16 < 16 /\ 0 <= v mod 16 < 16)
    as Hdig.
  { intros v Hv. split; [|apply Z.mod_pos_bound; lia].
    split; [apply Z.div_pos; lia | apply Z.div_lt_upper_bound; lia]. }
  destruct (Hdig r Hr) as [Hr1 Hr2], (Hdig g Hg) as [Hg1 Hg2],
           (Hdig b Hb) as [Hb1 Hb2].
  rewrite !ParseUint_loop_digit by (change (2 ^ 32 - 1) with 4294967295; lia).
  cbn [ParseUint_loop].
  assert ((((((0 * 16 + r / 16) * 16 + r mod 16) * 16 + g / 16) * 16
             + g mod 16) * 16 + b / 16) * 16 + b mod 16
          = (r * 256 + g) * 256 + b) as ->.
  { pose proof (Z.div_mod r 16 ltac:(lia)).
    pose proof (Z.div_mod g 16 ltac:(lia)).
    pose proof (Z.div_mod b 16 ltac:(lia)). lia. }
  f_equal. unfold uint8.
  change 255 with (Z.ones 8). rewrite !Z.land_ones by lia.
  rewrite !Z.shiftr_div_pow2 by lia.
  change (2 ^ 8) with 256. change (2 ^ 16) with (256 * 256).
  assert (((r * 256 + g) * 256 + b) / (256 * 256) = r) as ->.
  { rewrite <- Z.div_div by lia.
    rewrite (Z.div_add_l _ 256) by lia. rewrite (Z.div_small b) by lia.
    rewrite Z.add_0_r, Z.div_add_l by lia. rewrite (Z.div_small g) by lia.
    lia. }
  assert (((r * 256 + g) * 256 + b) / 256 = r * 256 + g) as ->.
  { rewrite Z.div_add_l by lia. rewrite (Z.div_small b) by lia. lia. }
  assert (((r * 256 + g) * 256 + b) mod 256 = b) as ->.
  { rewrite Z.add_comm, Z.mod_add by lia. apply Z.mod_small; lia. }
  assert ((r * 256 + g) mod 256 = g) as ->.
  { rewrite Z.add_comm, Z.mod_add by lia. apply Z.mod_small; lia. }
  rewrite !Z.mod_small by lia. reflexivity.
Qed.

End colour_properties.

(** ** The geometry of the resampler (C5, C6) *)

Module scale_properties.

Import Float64 image scale float_facts.
Import rounding.

(** The factor [FileToWindow] hands to [Image] is never above 1.0 when
    a width, a height and a factor were given. *)
Lemma FileToWindow_opts_clamped (src : Image) (opts : ScaleOpts) :
  Width opts <> 0 -> Height opts <> 0 -> (Factor opts =? 0)%float = false ->
  (1 <? Factor (FileToWindow_opts src opts))%float = false.
Proof.
  intros HW HH HF. unfold FileToWindow_opts.
  rewrite (proj2 (Z.eqb_neq _ _) HW), (proj2 (Z.eqb_neq _ _) HH), HF.
  cbn [negb andb].
  destruct (if Height opts <? _ then _ else _) as [f1 u1].
  destruct (if Width opts <? _ then _ else _) as [f2 u2].
  destruct (1 <? f2)%float eqn:Hf; destruct u2; cbn [Factor];
    (exact Hf || reflexivity).
Qed.

(** C5.  For a 2816x1880 source and the options width 400, height
    110, factor 1.0, [FileToWindow] adopts the factor 110/1880, between
    0.0585 and 0.0586: the smaller of 110/1880 and 400/2816, which is
    not above 1.0; it clears the width and the height, and the scaled
    image is 165 by 110. *)
Theorem C5_fit_to_window (px : Z -> Z -> RGBA) (m : Mode) :
  FileToWindow_opts (mkImage (Rect 0 0 2816 1880) px)
                    (mkScaleOpts 400 110 1%float m)
  = mkScaleOpts 0 0 (of_Z 110 / of_Z 1880)%float m
  /\ (of_Z 110 / of_Z 1880 <? of_Z 400 / of_Z 2816)%float = true
  /\ (of_Z 585 / of_Z 10000 <? of_Z 110 / of_Z 1880)%float = true
  /\ (of_Z 110 / of_Z 1880 <? of_Z 586 / of_Z 10000)%float = true
  /\ (1 <? of_Z 110 / of_Z 1880)%float = false
  /\ getScaledXY (FileToWindow_opts (mkImage (Rect 0 0 2816 1880) px)
                                    (mkScaleOpts 400 110 1%float m))
                 (mkImage (Rect 0 0 2816 1880) px)
     = Some (165, 110)
  /\ FileToWindow (mkImage (Rect 0 0 2816 1880) px)
                  (mkScaleOpts 400 110 1%float m)
     = Some (Rect 0 0 165 110)
  /\ Dx (Rect 0 0 165 110) = 165 /\ Dy (Rect 0 0 165 110) = 110.
Proof. repeat split; vm_compute; reflexivity. Qed.




End scale_properties.

(** * More properties of the code *)

(** ** The colour codec: numbers, digits and escapes *)

Module colour_codec_facts.
Import gostr colour colour_codec.

Lemma UInt_value (c : Colour256) :
  wf_Colour256 c -> UInt c = 65536 * R c + 256 * G c + B c.
Proof.
  intros (Hr & Hg & Hb). unfold UInt.
  rewrite !Z.shiftl_mul_pow2 by lia.
  change (2 ^ 16) with 65536. change (2 ^ 8) with 256.
  change (2 ^ 64) with 18446744073709551616.
  rewrite Z.mod_small by lia. lia.
Qed.

Lemma unpack_pack (r g b : Z) :
  0 <= r <= 255 -> 0 <= g <= 255 -> 0 <= b <= 255 ->
  unpack (65536 * r + 256 * g + b) = mkColour256 r g b.
Proof.
  intros Hr Hg Hb. unfold unpack. f_equal.
  - replace (65536 * r + 256 * g + b) with (r * 65536 + (256 * g + b)) by lia.
    rewrite Z.div_add_l by lia. rewrite (Z.div_small (256 * g + b)) by lia.
    rewrite Z.add_0_r. apply Z.mod_small; lia.
  - replace (65536 * r + 256 * g + b) with ((256 * r + g) * 256 + b) by lia.
    rewrite Z.div_add_l by lia. rewrite (Z.div_small b) by lia.
    rewrite Z.add_0_r. replace (256 * r + g) with (g + r * 256) by lia.
    rewrite Z.mod_add by lia. apply Z.mod_small; lia.
  - replace (65536 * r + 256 * g + b) with (b + (256 * r + g) * 256) by lia.
    rewrite Z.mod_add by lia. apply Z.mod_small; lia.
Qed.

Lemma FromHex_unpack (s : gostring) (v : Z) :
  0 <= v < 2 ^ 32 -> ParseUint s 16 32 = inr v ->
  FromHex s = inr (unpack v).
Proof.
  intros Hv Hp. unfold FromHex. rewrite Hp. unfold unpack, uint8.
  change 255 with (Z.ones 8). rewrite !Z.land_ones by lia.
  rewrite !Z.shiftr_div_pow2 by lia.
  change (2 ^ 8) with 256. change (2 ^ 16) with 65536.
  f_equal. f_equal; apply Z.mod_mod; lia.
Qed.

End colour_codec_facts.

Module colour_codec_properties.
Import gostr colour colour_codec colour_codec_facts.

Lemma digit_value_nonneg (c d : Z) :
  0 <= c -> digit_value c = Some d -> 0 <= d.
Proof.
  intros Hc. unfold digit_value, lower.
  destruct ((48 <=? c) && (c <=? 57)) eqn:H1.
  - intros [= <-]. lia.
  - destruct ((97 <=? Z.lor c 32) && (Z.lor c 32 <=? 122)) eqn:H2;
      [|discriminate].
    apply andb_true_iff in H2 as [H2 _]. apply Z.leb_le in H2.
    intros [= <-]. lia.
Qed.

Lemma Z_of_byte_nonneg (b : byte) : 0 <= Z_of_byte b.
Proof. unfold Z_of_byte. lia. Qed.

Lemma hex_digit_range (b : byte) (d : Z) :
  hex_digit b = Some d -> 0 <= d < 16 /\ digit_value (Z_of_byte b) = Some d.
Proof.
  unfold hex_digit. destruct (digit_value _) as [d'|] eqn:Hd; [|discriminate].
  destruct (d' <? 16) eqn:Hlt; [|discriminate]. intros [= <-].
  pose proof (digit_value_nonneg _ _ (Z_of_byte_nonneg b) Hd).
  apply Z.ltb_lt in Hlt. split; [lia | reflexivity].
Qed.

Lemma hex_value_from_ge (s : gostring) :
  forall n v, 0 <= n -> hex_value_from n s = Some v -> n <= v.
Proof.
  induction s as [|b s IH]; intros n v Hn; cbn [hex_value_from].
  - intros [= <-]. lia.
  - destruct (hex_digit b) as [d|] eqn:Hd; [|discriminate].
    cbn [mbind option_bind]. intros Hv.
    apply hex_digit_range in Hd as [Hd _].
    apply IH in Hv; lia.
Qed.

(** The digit loop of [ParseUint(s, 16, 32)] against the value of the
    digits. *)
Lemma ParseUint_loop_hex (s : gostring) :
  forall n v, 0 <= n < 2 ^ 32 ->
  ParseUint_loop 16 ((2 ^ 64 - 1) / 16 + 1) (2 ^ 32 - 1) s n = inr v
  <-> hex_value_from n s = Some v /\ v < 2 ^ 32.
Proof.
  change ((2 ^ 64 - 1) / 16 + 1) with 1152921504606846976.
  change (2 ^ 32 - 1) with 4294967295. change (2 ^ 32) with 4294967296.
  induction s as [|b s IH]; intros n v Hn;
    cbn [ParseUint_loop hex_value_from].
  - split; [intros [= <-]; split; [reflexivity|lia]
           | intros [[= <-] _]; reflexivity].
  - unfold hex_digit.
    destruct (digit_value (Z_of_byte b)) as [d|] eqn:Hd;
      [|split; [discriminate | intros [? _]; discriminate]].
    pose proof (digit_value_nonneg _ _ (Z_of_byte_nonneg b) Hd) as Hd0.
    destruct (16 <=? d) eqn:H16.
    + apply Z.leb_le in H16. rewrite (proj2 (Z.ltb_ge d 16)) by lia.
      split; [discriminate | intros [? _]; discriminate].
    + apply Z.leb_gt in H16. rewrite (proj2 (Z.ltb_lt d 16)) by lia.
      cbn [mbind option_bind].
      rewrite (proj2 (Z.leb_gt _ n)) by lia. cbv zeta.
      change (2 ^ 64) with 18446744073709551616.
      rewrite (Z.mod_small (n * 16)) by lia.
      rewrite (Z.mod_small (n * 16 + d)) by lia.
      rewrite (proj2 (Z.ltb_ge (n * 16 + d) (n * 16))) by lia.
      cbn [orb].
      destruct (4294967295 <? n * 16 + d) eqn:Hmax.
      * apply Z.ltb_lt in Hmax.
        split; [discriminate|]. intros [Hv Hlt].
        apply hex_value_from_ge in Hv; lia.
      * apply Z.ltb_ge in Hmax. apply IH. lia.
Qed.

(** [ParseUint(s, 16, 32)] against the value of the digits. *)
Lemma ParseUint_hex (s : gostring) (v : Z) :
  ParseUint s 16 32 = inr v
  <-> s <> [] /\ hex_value s = Some v /\ v < 2 ^ 32.
Proof.
  unfold ParseUint, hex_value. destruct s as [|b s].
  - split; [discriminate | intros [H _]; congruence].
  - rewrite ParseUint_loop_hex by lia.
    split; [intros [? ?]; by repeat split | intros (_ & ? & ?); by split].
Qed.

Lemma hex_value_nonneg (s : gostring) (v : Z) : hex_value s = Some v -> 0 <= v.
Proof. intros H. apply hex_value_from_ge in H; lia. Qed.

Lemma hex_value_from_bound (s : gostring) :
  forall n w, hex_value_from n s = Some w -> 0 <= n ->
              w < (n + 1) * 16 ^ Z.of_nat (length s).
Proof.
  induction s as [|b s IH]; intros n w; cbn [hex_value_from length].
  - intros [= <-] ?. simpl. lia.
  - destruct (hex_digit b) as [d|] eqn:Hd; [|discriminate].
    cbn [mbind option_bind]. intros Hw Hn.
    apply hex_digit_range in Hd as [Hd _].
    apply IH in Hw; [|lia].
    rewrite Nat2Z.inj_succ, Z.pow_succ_r by lia.
    assert (0 < 16 ^ Z.of_nat (length s)) by (apply Z.pow_pos_nonneg; lia).
    nia.
Qed.

(** The colour of a number below [2^24] has that number as [UInt]. *)
Lemma unpack_value (v : Z) :
  0 <= v < 2 ^ 24 ->
  wf_Colour256 (unpack v)
  /\ 65536 * R (unpack v) + 256 * G (unpack v) + B (unpack v) = v.
Proof.
  change (2 ^ 24) with 16777216. intros Hv. unfold unpack, wf_Colour256.
  cbn [R G B].
  pose proof (Z.div_mod v 65536 ltac:(lia)).
  pose proof (Z.div_mod v 256 ltac:(lia)).
  pose proof (Z.mod_pos_bound v 256 ltac:(lia)).
  pose proof (Z.mod_pos_bound v 65536 ltac:(lia)).
  assert (v / 65536 mod 256 = v / 65536) as ->.
  { apply Z.mod_small. split; [apply Z.div_pos; lia|].
    apply Z.div_lt_upper_bound; lia. }
  assert (0 <= v / 65536 < 256).
  { split; [apply Z.div_pos; lia | apply Z.div_lt_upper_bound; lia]. }
  assert (v / 256 mod 256 = v / 256 - 256 * (v / 65536)) as ->.
  { change 65536 with (256 * 256). rewrite <- Z.div_div by lia.
    pose proof (Z.div_mod (v / 256) 256 ltac:(lia)). lia. }
  pose proof (Z.mod_pos_bound (v / 256) 256 ltac:(lia)).
  assert (v / 256 mod 256 = v / 256 - 256 * (v / 65536)) as Hm.
  { change 65536 with (256 * 256). rewrite <- Z.div_div by lia.
    pose proof (Z.div_mod (v / 256) 256 ltac:(lia)). lia. }
  lia.
Qed.

(** X1.  [FromHex] returns a colour exactly for the non-empty strings of
    hexadecimal digits, of either case and of any length, that denote
    a number below [2^32]; the colour is made of the low 24 bits of
    that number, so two more digits than a colour has are accepted
    and dropped. *)
Theorem FromHex_accepts (s : gostring) (c : Colour256) :
  FromHex s = inr c
  <-> s <> [] /\ exists v, hex_value s = Some v /\ v < 2 ^ 32
                           /\ c = unpack v.
Proof.
  split.
  - intros H. unfold FromHex in H.
    destruct (ParseUint s 16 32) as [e|v] eqn:Hp; [discriminate|].
    pose proof (proj1 (ParseUint_hex s v) Hp) as (Hs & Hv & Hlt).
    split; [exact Hs|]. exists v. split; [exact Hv|]. split; [exact Hlt|].
    pose proof (hex_value_nonneg s v Hv) as Hv0.
    pose proof (FromHex_unpack s v ltac:(lia) Hp) as Hu.
    unfold FromHex in Hu. rewrite Hp in Hu. congruence.
  - intros (Hs & v & Hv & Hlt & ->).
    pose proof (hex_value_nonneg s v Hv) as Hv0.
    apply FromHex_unpack; [lia|]. apply ParseUint_hex. by repeat split.
Qed.

(** X2.  [UInt] packs the three channels into [0xRRGGBB], a number in
    [[0, 0xffffff]], and the channels can be read back from it: two
    colours with the same [UInt] are the same colour. *)
Theorem UInt_packs (c : Colour256) :
  wf_Colour256 c ->
  UInt c = 65536 * R c + 256 * G c + B c
  /\ 0 <= UInt c <= 16777215
  /\ unpack (UInt c) = c.
Proof.
  intros Hc. pose proof Hc as (Hr & Hg & Hb).
  rewrite UInt_value by exact Hc. split; [reflexivity|]. split; [lia|].
  destruct c as [r g b]. apply unpack_pack; assumption.
Qed.

Lemma UInt_packs_witness :
  UInt (mkColour256 255 128 0) = 65536 * 255 + 256 * 128 + 0
  /\ 0 <= UInt (mkColour256 255 128 0) <= 16777215
  /\ unpack (UInt (mkColour256 255 128 0)) = mkColour256 255 128 0.
Proof.
  apply (UInt_packs (mkColour256 255 128 0)).
  unfold wf_Colour256; simpl; lia.
Defined.

(** X3.  The six digits [Hex] writes after its prefix denote [UInt]:
    [ParseUint] reads them as that number, and [FromHex] reads them
    back as the colour. *)
Theorem Hex_digits_denote_UInt (c : Colour256) :
  wf_Colour256 c ->
  length (Hex c) = 8%nat
  /\ hex_value (drop 2 (Hex c)) = Some (UInt c)
  /\ ParseUint (drop 2 (Hex c)) 16 32 = inr (UInt c)
  /\ FromHex (drop 2 (Hex c)) = inr c.
Proof.
  intros Hc. split; [reflexivity|].
  pose proof (colour_properties.FromHex_digits_of_Hex c Hc) as HF.
  assert (exists v, ParseUint (drop 2 (Hex c)) 16 32 = inr v) as [v Hp].
  { unfold FromHex in HF.
    destruct (ParseUint (drop 2 (Hex c)) 16 32) as [e|v]; [discriminate|].
    by exists v. }
  pose proof (proj1 (ParseUint_hex _ _) Hp) as (_ & Hv & Hlt).
  pose proof (hex_value_nonneg _ _ Hv) as Hv0.
  assert (v < 2 ^ 24) as H24.
  { apply hex_value_from_bound in Hv; [|lia].
    change (length (drop 2 (Hex c))) with 6%nat in Hv. simpl in Hv.
    change (2 ^ 24) with 16777216. lia. }
  assert (c = unpack v) as Hu.
  { pose proof (FromHex_unpack _ v ltac:(lia) Hp). congruence. }
  assert (v = UInt c) as ->.
  { rewrite (UInt_value c Hc), Hu.
    symmetry. apply unpack_value. lia. }
  by repeat split.
Qed.

Lemma Hex_digits_denote_UInt_witness :
  length (Hex (mkColour256 255 128 0)) = 8%nat
  /\ hex_value (drop 2 (Hex (mkColour256 255 128 0)))
     = Some (UInt (mkColour256 255 128 0))
  /\ ParseUint (drop 2 (Hex (mkColour256 255 128 0))) 16 32
     = inr (UInt (mkColour256 255 128 0))
  /\ FromHex (drop 2 (Hex (mkColour256 255 128 0)))
     = inr (mkColour256 255 128 0).
Proof.
  apply (Hex_digits_denote_UInt (mkColour256 255 128 0)).
  unfold wf_Colour256; simpl; lia.
Defined.

End colour_codec_properties.

Module escape_properties.

Import gostr image colour colour_codec.
Import convert_facts.

Lemma fmt_d_decimal (n : Z) :
  0 <= n < 256 ->
  forallb is_digit (fmt_d n) = true /\ decimal (fmt_d n) = n.
Proof.
  intros Hn.
  assert (forallb (fun n => forallb is_digit (fmt_d n)
                            && (decimal (fmt_d n) =? n))
                  (seqZ 0 256) = true) as Hall by (vm_compute; reflexivity).
  pose proof (below_forallb _ _ Hall n Hn) as Hok.
  apply andb_true_iff in Hok as [Hd Hv]. apply Z.eqb_eq in Hv. by split.
Qed.

(** Two runs of digits, each followed by a byte that is not a digit,
    are the same run when the texts are the same. *)
Lemma digits_then_stop (a a' : gostring) :
  forall (h h' : byte) (t t' : gostring),
  forallb is_digit a = true -> forallb is_digit a' = true ->
  is_digit h = false -> is_digit h' = false ->
  a ++ h :: t = a' ++ h' :: t' -> a = a' /\ t = t'.
Proof.
  revert a'. induction a as [|d a IH]; intros [|d' a'] h h' t t' Ha Ha' Hh Hh';
    cbn [app forallb] in *.
  - intros [= -> ->]. by split.
  - intros [= -> ->]. apply andb_true_iff in Ha' as [Hd _]. congruence.
  - intros [= -> _]. apply andb_true_iff in Ha as [Hd _]. congruence.
  - intros [= -> Heq].
    apply andb_true_iff in Ha as [_ Ha], Ha' as [_ Ha'].
    destruct (IH a' h h' t t' Ha Ha' Hh Hh' Heq) as [-> ->]. by split.
Qed.

(** X4.  Two colours with the same escape sequence are the same colour:
    [TrueEsc] writes the three channels in decimal between separators
    that are not digits, and loses nothing. *)
Theorem TrueEsc_injective (c1 c2 : Colour256) :
  wf_Colour256 c1 -> wf_Colour256 c2 ->
  TrueEsc c1 = TrueEsc c2 -> c1 = c2.
Proof.
  destruct c1 as [r1 g1 b1], c2 as [r2 g2 b2].
  intros (Hr1 & Hg1 & Hb1) (Hr2 & Hg2 & Hb2). cbn [R G B] in *.
  unfold TrueEsc. cbn [R G B].
  destruct (fmt_d_decimal r1 ltac:(lia)) as [Dr1 Vr1].
  destruct (fmt_d_decimal r2 ltac:(lia)) as [Dr2 Vr2].
  destruct (fmt_d_decimal g1 ltac:(lia)) as [Dg1 Vg1].
  destruct (fmt_d_decimal g2 ltac:(lia)) as [Dg2 Vg2].
  destruct (fmt_d_decimal b1 ltac:(lia)) as [Db1 Vb1].
  destruct (fmt_d_decimal b2 ltac:(lia)) as [Db2 Vb2].
  intros Heq. injection Heq as Heq.
  change (lit ";" ++ ?l) with (";"%byte :: l) in Heq.
  change (lit "m") with ["m"%byte] in Heq.
  apply digits_then_stop in Heq as [Er Heq]; [|assumption || reflexivity..].
  apply digits_then_stop in Heq as [Eg Heq]; [|assumption || reflexivity..].
  apply digits_then_stop in Heq as [Eb _]; [|assumption || reflexivity..].
  congruence.
Qed.

Lemma TrueEsc_injective_witness :
  mkColour256 (1 + 0) 23 4 = mkColour256 1 (20 + 3) 4.
Proof.
  apply (TrueEsc_injective (mkColour256 (1 + 0) 23 4)
                           (mkColour256 1 (20 + 3) 4));
    [unfold wf_Colour256; simpl; lia.. | reflexivity].
Defined.

(** X5.  [FromColor] returns [nil] exactly for the pixels of alpha 0.
    For any other pixel whose channels are in range it returns the
    high byte of each 16-bit channel: [uint8] cuts nothing off, white
    stays [255], and a channel that is not smaller is not given a
    smaller byte. *)
Theorem FromColor_high_bytes (p : RGBA) :
  wf_colour p ->
  (FromColor p = None <-> cA p = 0)
  /\ (cA p <> 0 ->
      exists c,
        FromColor p = Some c /\ wf_Colour256 c
        /\ 256 * R c <= cR p < 256 * (R c + 1)
        /\ 256 * G c <= cG p < 256 * (G c + 1)
        /\ 256 * B c <= cB p < 256 * (B c + 1)).
Proof.
  intros (Hr & Hg & Hb). unfold FromColor. split.
  - destruct (cA p =? 0) eqn:Ha.
    + apply Z.eqb_eq in Ha. by split.
    + apply Z.eqb_neq in Ha. split; [discriminate | contradiction].
  - intros Ha. rewrite (proj2 (Z.eqb_neq _ _) Ha). eexists.
    split; [reflexivity|]. unfold wf_Colour256, uint8. cbn [R G B].
    assert (forall v, 0 <= v <= 65535 ->
              v / 256 mod 256 = v / 256 /\ 0 <= v / 256 <= 255
              /\ 256 * (v / 256) <= v < 256 * (v / 256 + 1)) as Hbyte.
    { intros v Hv. pose proof (Z.div_mod v 256 ltac:(lia)).
      pose proof (Z.mod_pos_bound v 256 ltac:(lia)).
      assert (0 <= v / 256 <= 255).
      { split; [apply Z.div_pos; lia|].
        apply Z.lt_succ_r, Z.div_lt_upper_bound; lia. }
      split; [apply Z.mod_small; lia | lia]. }
    destruct (Hbyte _ Hr) as (-> & ? & ?), (Hbyte _ Hg) as (-> & ? & ?),
             (Hbyte _ Hb) as (-> & ? & ?).
    repeat split; lia.
Qed.

Lemma FromColor_high_bytes_witness :
  exists c,
    FromColor (mkRGBA 65535 32768 255 65535) = Some c /\ wf_Colour256 c
    /\ 256 * R c <= 65535 < 256 * (R c + 1)
    /\ 256 * G c <= 32768 < 256 * (G c + 1)
    /\ 256 * B c <= 255 < 256 * (B c + 1).
Proof.
  apply (proj2 (FromColor_high_bytes (mkRGBA 65535 32768 255 65535)
                  ltac:(unfold wf_colour; simpl; lia))).
  simpl. lia.
Defined.

End escape_properties.

(** ** The bands of the ramp *)

Module glyph_band_properties.

Import gostr Float64 image colour convert.
Import index_facts collector_facts convert_facts matrix_facts gostr_facts.
Import quotients collector closed_form samples tone_bands.

Lemma quotient_band (s k : Z) :
  0 <= s -> 29 * s / 196605 = k <-> 196605 * k <= 29 * s < 196605 * (k + 1).
Proof.
  intros Hs. pose proof (Z.div_mod (29 * s) 196605 ltac:(lia)) as Hdm.
  pose proof (Z.mod_pos_bound (29 * s) 196605 ltac:(lia)) as Hm.
  split; [intros <-; lia | intros Hk; nia].
Qed.

(** X6.  For an opaque pixel whose channels are in range, the index
    computed in [float64] is the exact one: with [reverse] it is [k]
    exactly when [29 (r+g+b)] lies in
    [[196605 k, 196605 (k+1))], and without [reverse] it is [29 - k]
    there.  The division by [CharStep] never puts a sum in the band of
    its neighbour, and only white reaches [k = 29]. *)
Theorem glyph_bands (p : RGBA) (k : Z) :
  wf_colour p -> cA p <> 0 ->
  (convertRow_i true p = Some k
   <-> 196605 * k <= 29 * (cR p + cG p + cB p) < 196605 * (k + 1))
  /\ (convertRow_i false p = Some (29 - k)
      <-> 196605 * k <= 29 * (cR p + cG p + cB p) < 196605 * (k + 1))
  /\ convertRowColour_i true p = convertRow_i true p
  /\ convertRowColour_i false p = convertRow_i false p
  /\ (convertRow_i true p = Some 29
      <-> cR p = 65535 /\ cG p = 65535 /\ cB p = 65535).
Proof.
  intros Hp Ha. pose proof Hp as (Hr & Hg & Hb).
  pose proof (quotient_band (cR p + cG p + cB p) k ltac:(lia)) as Hk.
  pose proof (quotient_band (cR p + cG p + cB p) 29 ltac:(lia)) as H29.
  split; [|split; [|split; [reflexivity|split; [reflexivity|]]]];
    rewrite convertRow_i_opaque by assumption; cbn [negb]; unfold quotient.
  - rewrite <- Hk. split; [intros [= ->]; reflexivity | intros ->; reflexivity].
  - rewrite <- Hk. split; [intros [= H]; lia | intros ->; reflexivity].
  - split.
    + intros [= H]. apply H29 in H. lia.
    + intros (-> & -> & ->). reflexivity.
Qed.

Lemma glyph_bands_witness :
  convertRow_i true (mkRGBA 6780 0 0 65535) = Some 1.
Proof.
  apply (proj1 (glyph_bands (mkRGBA 6780 0 0 65535) 1
                            ltac:(unfold wf_colour; simpl; lia)
                            ltac:(simpl; lia))).
  simpl. lia.
Defined.





(** X8.  [main.go] divides [r+g+b], at most [3 * 65535], by
    [34 * 257]: the quotient is at most 22.  So an opaque pixel is
    never looked up at the entries 23 to 29 of the 30-entry ramp when
    [reverse] is set (no opaque pixel comes out as the space), and
    never at the entries 1 to 7 when it is not. *)
Theorem main_ramp_entries_never_used (reverse : bool) (p : RGBA) :
  wf_colour p -> cA p <> 0 ->
  let i := Z.rem (main.convertRow_i reverse p)
                 (Z.of_nat (length main.ASCIIChars)) in
  (if reverse then 0 <= i <= 22 else i = 0 \/ 8 <= i <= 29)
  /\ main.ramp (main.convertRow_i reverse p)
     = slice.get main.ASCIIChars i
  /\ (reverse = true -> closed_form_main.glyph reverse p <> 32).
Proof.
  intros Hp Ha. pose proof (add_u32_small p Hp) as [Hadd Hsum].
  apply Z.eqb_neq in Ha.
  cbv zeta. unfold main.convertRow_i, closed_form_main.glyph, main.ramp.
  unfold main.convertRow_i.
  rewrite Ha, Hadd.
  change (Z.of_nat (length main.ASCIIChars)) with 30.
  unfold main.CharStep. change (34 * 257) with 8738.
  set (q := Z.quot (cR p + cG p + cB p) 8738).
  assert (0 <= q <= 22) as Hq.
  { unfold q. rewrite Z.quot_div_nonneg by lia.
    split; [apply Z.div_pos; lia|].
    apply Z.lt_succ_r, Z.div_lt_upper_bound; lia. }
  destruct reverse; cbn [negb].
  - rewrite Z.rem_small by lia. split; [lia|]. split; [reflexivity|].
    intros _. unfold slice.get. rewrite (proj2 (Z.leb_le 0 q)) by lia.
    assert (forallb (fun q => negb (default 0 (main.ASCIIChars !! Z.to_nat q)
                                     =? 32)) (seqZ 0 23) = true) as Hall
      by (vm_compute; reflexivity).
    pose proof (below_forallb _ _ Hall q ltac:(lia)) as Hne.
    apply negb_true_iff, Z.eqb_neq in Hne. exact Hne.
  - split; [|split; [reflexivity | discriminate]].
    destruct (Z.eq_dec q 0) as [->|Hq0]; [left; reflexivity|].
    right. rewrite Z.rem_small by lia. lia.
Qed.

Lemma main_ramp_entries_never_used_witness :
  closed_form_main.glyph true white <> 32.
Proof.
  apply (main_ramp_entries_never_used true white
           ltac:(unfold wf_colour, white; simpl; lia)
           ltac:(simpl; lia)).
  reflexivity.
Defined.

End glyph_band_properties.

(** ** The coloured text and the plain text *)

Module text_properties.

Import gostr Float64 image colour convert.
Import index_facts collector_facts convert_facts matrix_facts gostr_facts.
Import quotients collector closed_form samples plain_text.

Lemma Join_nil (r : list gostring) : Join r [] = concat r.
Proof.
  induction r as [|a [|b r] IH]; [reflexivity | simpl; by rewrite app_nil_r |].
  change (Join (a :: b :: r) []) with (a ++ [] ++ Join (b :: r) []).
  rewrite IH. reflexivity.
Qed.


Lemma Join_replicate_nil (n : nat) (sep : gostring) :
  Join (replicate (S n) []) sep = concat (replicate n sep).
Proof.
  induction n as [|n IH]; [reflexivity|].
  change (Join (replicate (S (S n)) []) sep)
    with ([] ++ sep ++ Join (replicate (S n) []) sep).
  rewrite IH. reflexivity.
Qed.

Lemma orient_map {A B : Type} (f : A -> B) (invert : bool) (l : list A) :
  orient invert (map f l) = map f (orient invert l).
Proof.
  unfold orient. destruct invert; [|reflexivity].
  rewrite !map_fmap. apply symmetry, fmap_reverse.
Qed.

Lemma glyph_rows_pixels (img : Image) (negative invert : bool) :
  glyph_rows img negative invert
  = map (map (glyph negative)) (pixel_rows img invert).
Proof.
  unfold glyph_rows, pixel_rows. rewrite map_map. apply map_ext.
  intros y. rewrite <- orient_map, map_map. reflexivity.
Qed.

Lemma unit_rows_pixels (img : Image) (negative invert : bool) :
  unit_rows img negative invert
  = map (map (unit negative)) (pixel_rows img invert).
Proof.
  unfold unit_rows, pixel_rows. rewrite map_map. apply map_ext.
  intros y. rewrite <- orient_map, map_map. reflexivity.
Qed.

Lemma pixel_rows_wf (img : Image) (invert : bool) :
  (forall x y, wf_colour (At img x y)) ->
  Forall (Forall wf_colour) (pixel_rows img invert).
Proof.
  intros Hp. unfold pixel_rows. apply Forall_forall. intros r Hr.
  apply list_elem_of_In, in_map_iff in Hr as (y & <- & _).
  assert (Forall wf_colour
            (map (fun x => At img x y) (seqZ 0 (X (Max (Bounds img))))))
    as Hrow.
  { apply Forall_forall. intros p Hin.
    apply list_elem_of_In, in_map_iff in Hin as (x & <- & _). apply Hp. }
  unfold orient. destruct invert; [by apply Forall_reverse | exact Hrow].
Qed.

(** Stripping goes through a text that holds no ESC. *)
Lemma strip_plain (a rest : gostring) :
  ~ In x1b a -> strip (a ++ rest) = a ++ strip rest.
Proof.
  unfold strip. induction a as [|b a IH]; intros Hin; [reflexivity|].
  cbn [app strip_from].
  destruct (Byte.eqb b x1b) eqn:Hb.
  - apply Byte.byte_dec_bl in Hb. subst b. exfalso. apply Hin. by left.
  - rewrite IH; [reflexivity|]. intros H. apply Hin. by right.
Qed.

(** Inside an escape, everything up to the first [m] is dropped. *)
Lemma strip_inside (a rest : gostring) :
  ~ In "m"%byte a ->
  strip_from true (a ++ "m"%byte :: rest) = strip rest.
Proof.
  induction a as [|b a IH]; intros Hin; [reflexivity|].
  cbn [app strip_from].
  destruct (Byte.eqb b "m"%byte) eqn:Hb.
  - apply Byte.byte_dec_bl in Hb. subst b. exfalso. apply Hin. by left.
  - cbn [negb]. apply IH. intros H. apply Hin. by right.
Qed.

Lemma fmt_d_no_m (n : Z) : 0 <= n < 256 -> ~ In "m"%byte (fmt_d n).
Proof.
  intros Hn.
  assert (forallb (fun n => negb (existsb (Byte.eqb "m"%byte) (fmt_d n)))
                  (seqZ 0 256) = true) as Hall by (vm_compute; reflexivity).
  pose proof (below_forallb _ _ Hall n Hn) as Hok.
  apply negb_true_iff in Hok. intros Hin.
  assert (existsb (Byte.eqb "m"%byte) (fmt_d n) = true); [|congruence].
  apply existsb_exists. exists "m"%byte. split; [exact Hin|].
  apply Byte.byte_dec_lb. reflexivity.
Qed.

Lemma strip_TrueEsc (c : Colour256) (rest : gostring) :
  wf_Colour256 c -> strip (TrueEsc c ++ rest) = strip rest.
Proof.
  intros (Hr & Hg & Hb). unfold TrueEsc, strip.
  cbn [app strip_from]. change (Byte.eqb x1b x1b) with true. cbv iota.
  rewrite <- !app_assoc.
  change (lit "m" ++ rest) with ("m"%byte :: rest).
  rewrite !app_assoc. apply strip_inside.
  intros Hin. rewrite !in_app_iff in Hin.
  pose proof (fmt_d_no_m (R c) ltac:(lia)).
  pose proof (fmt_d_no_m (G c) ltac:(lia)).
  pose proof (fmt_d_no_m (B c) ltac:(lia)).
  assert (forall l, ~ In "m"%byte (lit ";" ++ l) <-> ~ In "m"%byte l) as Hsemi.
  { intros l. simpl. intuition discriminate. }
  simpl in Hin. intuition discriminate.
Qed.

Lemma FromColor_wf (p : RGBA) (c : Colour256) :
  FromColor p = Some c -> wf_Colour256 c.
Proof.
  unfold FromColor. destruct (cA p =? 0); [discriminate|]. intros [= <-].
  unfold wf_Colour256, uint8. cbn [R G B].
  pose proof (Z.mod_pos_bound (cR p / 256) 256 ltac:(lia)).
  pose proof (Z.mod_pos_bound (cG p / 256) 256 ltac:(lia)).
  pose proof (Z.mod_pos_bound (cB p / 256) 256 ltac:(lia)). lia.
Qed.

Lemma ramp_no_ESC (g : Z) : g ∈ ASCIIChars -> ~ In x1b (EncodeRune g).
Proof.
  assert (Forall (fun g => ~ In x1b (EncodeRune g)) ASCIIChars) as Hall
    by (repeat constructor; simpl; intuition discriminate).
  rewrite Forall_forall in Hall. apply Hall.
Qed.

Lemma strip_unit (negative : bool) (p : RGBA) (rest : gostring) :
  wf_colour p ->
  strip (unit negative p ++ rest)
  = EncodeRune (glyph negative p) ++ strip rest.
Proof.
  intros Hp. unfold unit, esc. rewrite <- app_assoc.
  destruct (FromColor p) as [c|] eqn:Hc.
  - rewrite strip_TrueEsc by (eapply FromColor_wf; exact Hc).
    apply strip_plain, ramp_no_ESC, glyph_properties.glyph_in_ramp, Hp.
  - cbn [app].
    apply strip_plain, ramp_no_ESC, glyph_properties.glyph_in_ramp, Hp.
Qed.

Lemma strip_row (negative : bool) (ps : list RGBA) (rest : gostring) :
  Forall wf_colour ps ->
  strip (concat (map (unit negative) ps) ++ rest)
  = string_of_runes (map (glyph negative) ps) ++ strip rest.
Proof.
  unfold string_of_runes.
  induction 1 as [|p ps Hp _ IH]; [reflexivity|].
  cbn [map concat]. rewrite <- !app_assoc, strip_unit by exact Hp.
  by rewrite IH.
Qed.

Lemma strip_rows (negative : bool) (rows : list (list RGBA))
  (rest : gostring) :
  Forall (Forall wf_colour) rows ->
  strip (Join (map (fun r => Join r []) (map (map (unit negative)) rows))
              newline ++ rest)
  = Join (map string_of_runes (map (map (glyph negative)) rows)) newline
    ++ strip rest.
Proof.
  induction 1 as [|r [|r' rows] Hr Hrows IH]; [reflexivity | |].
  - cbn [map Join]. rewrite Join_nil. by apply strip_row.
  - change (map (fun r => Join r [])
                (map (map (unit negative)) (r :: r' :: rows)))
      with (Join (map (unit negative) r) []
            :: map (fun r => Join r [])
                   (map (map (unit negative)) (r' :: rows))).
    change (map string_of_runes
                (map (map (glyph negative)) (r :: r' :: rows)))
      with (string_of_runes (map (glyph negative) r)
            :: map string_of_runes
                   (map (map (glyph negative)) (r' :: rows))).
    cbn [map] in IH |- *.
    match goal with
    | |- strip (Join (?a :: ?b :: ?l) ?sep ++ _)
         = Join (?a' :: ?b' :: ?l') _ ++ _ =>
        change (Join (a :: b :: l) sep) with (a ++ sep ++ Join (b :: l) sep);
        change (Join (a' :: b' :: l') sep)
          with (a' ++ sep ++ Join (b' :: l') sep)
    end.
    rewrite Join_nil, <- !app_assoc, strip_row by exact Hr.
    f_equal. unfold newline at 1 3. cbn [app].
    change (strip (x0a :: ?l)) with (x0a :: strip l).
    f_equal. exact IH.
Qed.

(** X9.  The coloured text is the plain text with escapes put in: for
    an image whose colours are in range, taking every escape sequence
    out of what [ImgToASCIIColoured] returns leaves what [ImgToASCII]
    returns, for the same [negative] and [invert]. *)
Theorem coloured_text_stripped_is_plain (img : Image)
  (negative invert : bool) :
  wf_image img ->
  exists plain coloured,
    ImgToASCII img negative invert = Some plain
    /\ ImgToASCIIColoured img negative invert = Some coloured
    /\ strip coloured = plain.
Proof.
  intros Hwf. pose proof Hwf as (_ & _ & Hp).
  do 2 eexists. split; [|split].
  - unfold ImgToASCII. rewrite ImgToASCII_matrix_eq by exact Hwf.
    reflexivity.
  - unfold ImgToASCIIColoured.
    rewrite ImgToASCIIColoured_matrix_eq by exact Hwf. reflexivity.
  - rewrite unit_rows_pixels, glyph_rows_pixels.
    rewrite strip_rows by (by apply pixel_rows_wf).
    change (strip ResetColour) with (@nil byte). by rewrite app_nil_r.
Qed.

Lemma coloured_text_stripped_is_plain_witness :
  exists plain coloured,
    ImgToASCII three true true = Some plain
    /\ ImgToASCIIColoured three true true = Some coloured
    /\ strip coloured = plain.
Proof.
  apply (coloured_text_stripped_is_plain three true true).
  exact glyph_properties.three_wf.
Defined.

End text_properties.

(** ** Images without rows or columns, and the end of a preview *)

Module edge_properties.

Import gostr Float64 image colour convert.
Import index_facts collector_facts convert_facts matrix_facts gostr_facts.
Import quotients collector closed_form samples plain_text text_properties.

Lemma map_const {A B : Type} (b : B) (l : list A) :
  map (fun _ => b) l = replicate (length l) b.
Proof. induction l as [|a l IH]; [reflexivity | simpl; by rewrite IH]. Qed.

Lemma map_const_seqZ {A : Type} (a : A) (n : Z) :
  map (fun _ => a) (seqZ 0 n) = replicate (Z.to_nat n) a.
Proof. by rewrite map_const, length_seqZ. Qed.

Lemma concat_nils {A : Type} (n : nat) : concat (replicate n (@nil A)) = [].
Proof. induction n as [|n IH]; [reflexivity | exact IH]. Qed.

Section no_column.

Context {M A : Type}.
Variables (body : list (list A) -> M -> option (list (list A))).
Variables (row : Z -> option (list M)) (z : A) (max : Point).
Hypothesis no_column : X max = 0.
Hypothesis rows : 0 < Y max.
Hypothesis row_empty : forall y, row y = Some [].

Lemma collected_no_column :
  (matrix ← make_matrix z max;
   ch ← in_row_order (map row (seqZ 0 (Y max)));
   slice.range body ch matrix)
  = Some (replicate (Z.to_nat (Y max)) []).
Proof.
  rewrite make_matrix_nonneg by lia. cbn [mbind option_bind].
  rewrite (in_row_order_total row (fun _ => [])) by (intros; apply row_empty).
  cbn [mbind option_bind].
  rewrite map_const_seqZ, concat_nils, no_column. reflexivity.
Qed.

End no_column.

Lemma Join_blank_rows (f : list gostring -> gostring) (h : Z)
  (sep : gostring) :
  0 < h -> f [] = [] ->
  Join (map f (replicate (Z.to_nat h) [])) sep
  = concat (replicate (Z.to_nat (h - 1)) sep).
Proof.
  intros Hh Hf. replace (Z.to_nat h) with (S (Z.to_nat (h - 1))) by lia.
  rewrite map_fmap, fmap_replicate, Hf. apply Join_replicate_nil.
Qed.

Lemma Join_blank_runes (f : list Z -> gostring) (h : Z) (sep : gostring) :
  0 < h -> f [] = [] ->
  Join (map f (replicate (Z.to_nat h) [])) sep
  = concat (replicate (Z.to_nat (h - 1)) sep).
Proof.
  intros Hh Hf. replace (Z.to_nat h) with (S (Z.to_nat (h - 1))) by lia.
  rewrite map_fmap, fmap_replicate, Hf. apply Join_replicate_nil.
Qed.

Lemma mapM_seqZ_0 {A : Type} (f : Z -> option A) (n : Z) :
  n = 0 -> mapM f (seqZ 0 n) = Some [].
Proof. intros ->. reflexivity. Qed.

(** X10.  An image with no row is converted to the empty text, and to a
    lone reset by [ImgToASCIIColoured]; an image with rows but no
    column to as many empty lines, with the reset of [ImgToPreview]
    before each newline.  No pixel is read, so nothing is asked of the
    colours.  A negative height panics. *)
Theorem empty_image_text (img : Image) (negative invert single : bool) :
  (Y (Max (Bounds img)) = 0 -> 0 <= X (Max (Bounds img)) ->
   ImgToASCII img negative invert = Some []
   /\ ImgToASCIIColoured img negative invert = Some ResetColour
   /\ ImgToPreview img single = Some []
   /\ main.imgToASCII negative img = Some [])
  /\ (X (Max (Bounds img)) = 0 -> 0 < Y (Max (Bounds img)) ->
      let blank sep :=
        Some (concat (replicate (Z.to_nat (Y (Max (Bounds img)) - 1)) sep)) in
      ImgToASCII img negative invert = blank newline
      /\ ImgToASCIIColoured img negative invert
         = Some (concat (replicate (Z.to_nat (Y (Max (Bounds img)) - 1))
                                   newline) ++ ResetColour)
      /\ ImgToPreview img single = blank (ResetColour ++ newline)
      /\ main.imgToASCII negative img = blank newline)
  /\ (Y (Max (Bounds img)) < 0 ->
      ImgToASCII img negative invert = None
      /\ ImgToASCIIColoured img negative invert = None
      /\ ImgToPreview img single = None
      /\ main.imgToASCII negative img = None).
Proof.
  split; [|split].
  - intros HY HX.
    unfold ImgToASCII, ImgToASCIIColoured, ImgToPreview, main.imgToASCII,
      ImgToASCII_matrix, ImgToASCIIColoured_matrix, ImgToPreview_matrix,
      main.imgToASCII_matrix, make_matrix.
    rewrite HY. repeat split; reflexivity.
  - intros HX HY. cbv zeta.
    assert (ImgToASCII_matrix img negative invert
            = Some (replicate (Z.to_nat (Y (Max (Bounds img)))) [])) as H1.
    { apply (collected_no_column (collect invert)
               (fun y => convertRow img y negative) 0 _ HX HY).
      intros; by apply mapM_seqZ_0. }
    assert (ImgToASCIIColoured_matrix img negative invert
            = Some (replicate (Z.to_nat (Y (Max (Bounds img)))) [])) as H2.
    { apply (collected_no_column (collectColoured invert)
               (fun y => convertRowColour img y negative) [] _ HX HY).
      intros; by apply mapM_seqZ_0. }
    assert (ImgToPreview_matrix img single
            = Some (replicate (Z.to_nat (Y (Max (Bounds img)))) [])) as H3.
    { apply (collected_no_column
               (collectPreview (if single then emptySingleChar else emptyChar))
               (fun y => Some (rowColours img y)) [] _ HX HY).
      intros; unfold rowColours; by rewrite HX. }
    assert (main.imgToASCII_matrix negative img
            = Some (replicate (Z.to_nat (Y (Max (Bounds img)))) [])) as H4.
    { apply (collected_no_column main.collect
               (fun y => main.convertRow img y negative) 0 _ HX HY).
      intros; by apply mapM_seqZ_0. }
    unfold ImgToASCII, ImgToASCIIColoured, ImgToPreview, main.imgToASCII.
    rewrite H1, H2, H3, H4. cbn [mbind option_bind].
    rewrite (Join_blank_runes string_of_runes) by (assumption || reflexivity).
    rewrite (Join_blank_rows (fun r => Join r []))
      by (assumption || reflexivity).
    rewrite (Join_blank_rows (fun r => Join r ResetColour))
      by (assumption || reflexivity).
    rewrite (Join_blank_runes
               (fun r => TrimRight (string_of_runes r) (lit " ")))
      by (assumption || reflexivity).
    repeat split; reflexivity.
  - intros HY. apply Z.ltb_lt in HY.
    unfold ImgToASCII, ImgToASCIIColoured, ImgToPreview, main.imgToASCII,
      ImgToASCII_matrix, ImgToASCIIColoured_matrix, ImgToPreview_matrix,
      main.imgToASCII_matrix, make_matrix.
    rewrite HY. repeat split; reflexivity.
Qed.

Lemma empty_image_text_witness :
  ImgToASCII (uniform 0 3 white) false false = Some (newline ++ newline)
  /\ ImgToASCII (uniform 4 0 white) false false = Some [].
Proof.
  split.
  - apply (proj1 (proj2 (empty_image_text (uniform 0 3 white)
                                            false false false)));
      [reflexivity | simpl; lia].
  - apply (proj1 (empty_image_text (uniform 4 0 white) false false false));
      [reflexivity | simpl; lia].
Defined.







End edge_properties.

(** ** Any order of the messages, for every converter *)

Module schedule_properties.

Import gostr image colour convert.
Import slice collector collector_facts convert_facts closed_form.
Import schedule_facts samples.

Lemma ImgToPreview_any_schedule (img : Image) (single : bool)
  (ch : list ColourPixelChar) :
  0 <= X (Max (Bounds img)) -> 0 <= Y (Max (Bounds img)) ->
  ch ≡ₚ concat (map (rowColours img) (seqZ 0 (Y (Max (Bounds img))))) ->
  (matrix ← make_matrix [] (Max (Bounds img));
   range (collectPreview (if single then emptySingleChar else emptyChar))
         ch matrix)
  = ImgToPreview_matrix img single.
Proof.
  intros HX HY Hperm.
  rewrite ImgToPreview_matrix_eq by assumption.
  rewrite make_matrix_nonneg by assumption. cbn [mbind option_bind].
  pose proof (range_matrix_any_order
                (fun m => x (pc m)) (fun m => y (pc m))
                (fun m => match c m with
                          | Some c => TrueEsc c
                          | None => []
                          end ++ (if single then emptySingleChar
                                  else emptyChar))
                false
                (fun x y => mkColourPixelChar (mkPixelChar x y 0)
                                              (FromColor (At img x y)))
                (fun _ _ => eq_refl) (fun _ _ => eq_refl) []
                (Z.to_nat (X (Max (Bounds img))))
                (Z.to_nat (Y (Max (Bounds img)))) ch) as Hfill.
  rewrite !Z2Nat.id in Hfill by assumption. exact (Hfill Hperm).
Qed.

(** X12.  The three converters of package [convert] fill the same
    matrix, and so return the same text, in whatever order the
    collector receives what the rows' goroutines send: each message
    has a cell of its own. *)
Theorem convert_any_schedule (img : Image) (negative invert single : bool) :
  wf_image img ->
  (forall sent ch,
      in_row_order (map (fun y => convertRow img y negative)
                        (seqZ 0 (Y (Max (Bounds img))))) = Some sent ->
      ch ≡ₚ sent ->
      (matrix ← make_matrix 0 (Max (Bounds img));
       range (collect invert) ch matrix)
      = ImgToASCII_matrix img negative invert)
  /\ (forall sent ch,
         in_row_order (map (fun y => convertRowColour img y negative)
                           (seqZ 0 (Y (Max (Bounds img))))) = Some sent ->
         ch ≡ₚ sent ->
         (matrix ← make_matrix [] (Max (Bounds img));
          range (collectColoured invert) ch matrix)
         = ImgToASCIIColoured_matrix img negative invert)
  /\ (forall ch,
         ch ≡ₚ concat (map (rowColours img)
                           (seqZ 0 (Y (Max (Bounds img))))) ->
         (matrix ← make_matrix [] (Max (Bounds img));
          range (collectPreview (if single then emptySingleChar
                                 else emptyChar)) ch matrix)
         = ImgToPreview_matrix img single).
Proof.
  intros Hwf. pose proof Hwf as (HX & HY & _). split; [|split].
  - intros sent ch. by apply ImgToASCII_any_schedule.
  - intros sent ch. by apply ImgToASCIIColoured_any_schedule.
  - intros ch. by apply ImgToPreview_any_schedule.
Qed.

(** Two rows of two pixels, received one pixel of each row in turn. *)
Lemma convert_any_schedule_witness :
  (matrix ← make_matrix 0 (Max (Bounds (uniform 2 2 black)));
   range (collect false)
         [mkPixelChar 0 0 209; mkPixelChar 0 1 209;
          mkPixelChar 1 0 209; mkPixelChar 1 1 209] matrix)
  = ImgToASCII_matrix (uniform 2 2 black) false false.
Proof.
  apply (proj1 (convert_any_schedule (uniform 2 2 black) false false false
                                     ltac:(wf_uniform))
           [mkPixelChar 0 0 209; mkPixelChar 1 0 209;
            mkPixelChar 0 1 209; mkPixelChar 1 1 209]).
  - vm_compute. reflexivity.
  - apply perm_skip, perm_swap.
Defined.

(** X13.  [imgToASCII] of [main.go] fills the same matrix, and so
    returns the same text, in whatever order its collector receives
    what the rows' goroutines send. *)
Theorem main_any_schedule (img : Image) (reverse : bool)
  (sent ch : list main.PixelChar) :
  wf_image img ->
  in_row_order (map (fun y => main.convertRow img y reverse)
                    (seqZ 0 (Y (Max (Bounds img))))) = Some sent ->
  ch ≡ₚ sent ->
  (matrix ← make_matrix 0 (Max (Bounds img));
   range main.collect ch matrix)
  = main.imgToASCII_matrix reverse img.
Proof.
  intros Hwf Hsent Hperm. pose proof Hwf as (HX & HY & _).
  rewrite main_facts.imgToASCII_matrix_eq by exact Hwf.
  rewrite (in_row_order_total _
             (fun y => map (fun x => main.mkPixelChar x y
                                       (closed_form_main.glyph
                                          reverse (At img x y)))
                           (seqZ 0 (X (Max (Bounds img)))))) in Hsent
    by (intros y _; by apply main_facts.main_convertRow_total).
  injection Hsent as <-.
  rewrite make_matrix_nonneg by assumption. cbn [mbind option_bind].
  pose proof (range_matrix_any_order main.x main.y main.char false
                (fun x y => main.mkPixelChar x y
                              (closed_form_main.glyph reverse (At img x y)))
                (fun _ _ => eq_refl) (fun _ _ => eq_refl) 0
                (Z.to_nat (X (Max (Bounds img))))
                (Z.to_nat (Y (Max (Bounds img)))) ch) as Hfill.
  rewrite !Z2Nat.id in Hfill by assumption. exact (Hfill Hperm).
Qed.

Lemma main_any_schedule_witness :
  (matrix ← make_matrix 0 (Max (Bounds (uniform 2 2 black)));
   range main.collect
         [main.mkPixelChar 0 0 195; main.mkPixelChar 0 1 195;
          main.mkPixelChar 1 0 195; main.mkPixelChar 1 1 195] matrix)
  = main.imgToASCII_matrix false (uniform 2 2 black).
Proof.
  apply (main_any_schedule (uniform 2 2 black) false
           [main.mkPixelChar 0 0 195; main.mkPixelChar 1 0 195;
            main.mkPixelChar 0 1 195; main.mkPixelChar 1 1 195]).
  - wf_uniform.
  - vm_compute. reflexivity.
  - apply perm_skip, perm_swap.
Defined.

End schedule_properties.

(** ** File names and file types *)

Module gopath_facts.

Import gostr gopath path_notions.

Lemma gostring_eqb_eq (s t : gostring) : eqb s t = true <-> s = t.
Proof.
  revert t. induction s as [|a s IH]; intros [|b t]; cbn [eqb];
    try (split; [discriminate | congruence]); [by split|].
  rewrite andb_true_iff, IH. split.
  - intros [Hab ->]. apply Byte.byte_dec_bl in Hab. by subst.
  - intros [= -> ->]. split; [by apply Byte.byte_dec_lb | reflexivity].
Qed.

Lemma gostring_eqb_refl (s : gostring) : eqb s s = true.
Proof. by apply gostring_eqb_eq. Qed.

Lemma byte_eqb_false (a b : byte) : Byte.eqb a b = false <-> a <> b.
Proof.
  split.
  - intros H ->. rewrite (Byte.byte_dec_lb eq_refl) in H. discriminate.
  - intros H. destruct (Byte.eqb a b) eqn:E; [|reflexivity].
    apply Byte.byte_dec_bl in E. contradiction.
Qed.

Lemma Ext_from_plain (s r seen : gostring) :
  Forall plain s ->
  Ext_from (s ++ r) seen = Ext_from r (reverse s ++ seen).
Proof.
  intros Hs. revert seen. induction Hs as [|b s [Hdot Hsep] _ IH];
    intros seen; [reflexivity|].
  cbn [app Ext_from]. unfold IsPathSeparator.
  rewrite (proj2 (byte_eqb_false _ _) Hdot), (proj2 (byte_eqb_false _ _) Hsep).
  rewrite IH, reverse_cons, <- app_assoc. reflexivity.
Qed.

(** The scan splits what it reads at the first dot or separator. *)
Lemma plain_prefix (r : gostring) :
  exists s r', r = s ++ r' /\ Forall plain s
               /\ match r' with
                  | [] => True
                  | b :: _ => b = "."%byte \/ b = "/"%byte
                  end.
Proof.
  induction r as [|b r (s & r' & -> & Hs & Hr')].
  - exists [], []. by repeat split.
  - destruct (Byte.eqb b "."%byte) eqn:Hdot.
    { apply Byte.byte_dec_bl in Hdot. subst b.
      exists [], ("."%byte :: s ++ r'). repeat split; [constructor | by left]. }
    destruct (Byte.eqb b "/"%byte) eqn:Hsep.
    { apply Byte.byte_dec_bl in Hsep. subst b.
      exists [], ("/"%byte :: s ++ r').
      repeat split; [constructor | by right]. }
    apply byte_eqb_false in Hdot, Hsep.
    exists (b :: s), r'. repeat split; [by constructor | exact Hr'].
Qed.

(** [Ext] of a path: the last dot and what follows, when no separator
    follows that dot; nothing otherwise. *)
Lemma Ext_spec (path : gostring) :
  (exists stem suffix,
      path = stem ++ "."%byte :: suffix /\ Forall plain suffix
      /\ Ext path = "."%byte :: suffix)
  \/ (Ext path = []
      /\ forall stem suffix,
           path = stem ++ "."%byte :: suffix -> ~ Forall plain suffix).
Proof.
  unfold Ext.
  destruct (plain_prefix (reverse path)) as (s & r' & Hr & Hs & Hr').
  assert (path = reverse r' ++ reverse s) as Hpath.
  { rewrite <- reverse_app, <- Hr. by rewrite reverse_involutive. }
  assert (Forall plain (reverse s)) as Hrs by (by apply Forall_reverse).
  rewrite Hr, Ext_from_plain, app_nil_r by exact Hs.
  destruct r' as [|b r'].
  - right. split; [reflexivity|]. intros stem suffix Heq Hsuf.
    change (reverse (@nil byte)) with (@nil byte) in Hpath.
    cbn [app] in Hpath. rewrite Hpath in Heq.
    assert (In "."%byte (reverse s)) as Hin
      by (rewrite Heq; apply in_or_app; right; by left).
    rewrite Forall_forall in Hrs.
    apply list_elem_of_In, Hrs in Hin as [Hin _]. by apply Hin.
  - destruct Hr' as [-> | ->].
    + left. exists (reverse r'), (reverse s).
      split; [by rewrite Hpath, reverse_cons, <- app_assoc|].
      split; [exact Hrs | reflexivity].
    + right. split; [reflexivity|]. intros stem suffix Heq Hsuf.
      rewrite Hpath, reverse_cons, <- app_assoc in Heq. cbn [app] in Heq.
      (* the separator sits after every dot of the path's head, so a
         plain suffix after a dot lies inside [reverse s], which has
         no dot *)
      assert (forall (a b c d : gostring),
                a ++ "/"%byte :: b = c ++ "."%byte :: d ->
                Forall plain d -> In "."%byte b) as Hsplit.
      { clear. induction a as [|x a IH]; intros b c d Heq Hd.
        - destruct c as [|y c]; [discriminate|].
          injection Heq as <- ->. apply in_or_app. right. by left.
        - destruct c as [|y c].
          + injection Heq as -> <-. rewrite Forall_forall in Hd.
            assert (In "/"%byte (a ++ "/"%byte :: b)) as Hin
              by (apply in_or_app; right; by left).
            apply list_elem_of_In, Hd in Hin as [_ Hin]. by destruct Hin.
          + injection Heq as _ Heq. by apply (IH b c d). }
      pose proof (Hsplit _ _ _ _ Heq Hsuf) as Hin.
      rewrite Forall_forall in Hrs.
      apply list_elem_of_In, Hrs in Hin as [Hin _]. by apply Hin.
Qed.

Lemma ReplaceAll_plain (s : gostring) :
  Forall plain s -> ReplaceAll s "."%byte [] = s.
Proof.
  unfold ReplaceAll. induction 1 as [|b s [Hdot _] _ IH]; [reflexivity|].
  cbn [map concat]. rewrite (proj2 (byte_eqb_false _ _) Hdot), IH.
  reflexivity.
Qed.

(** A path has one last dot with nothing but plain bytes after it. *)
Lemma dot_suffix_unique (a b c d : gostring) :
  a ++ "."%byte :: b = c ++ "."%byte :: d ->
  Forall plain b -> Forall plain d -> d = b.
Proof.
  revert c. induction a as [|x a IH]; intros [|y c] Heq Hb Hd.
  - by injection Heq.
  - injection Heq as <- ->. rewrite Forall_forall in Hb.
    assert (In "."%byte (c ++ "."%byte :: d)) as Hin
      by (apply in_or_app; right; by left).
    apply list_elem_of_In, Hb in Hin as [Hin _]. by destruct Hin.
  - injection Heq as -> <-. rewrite Forall_forall in Hd.
    assert (In "."%byte (a ++ "."%byte :: b)) as Hin
      by (apply in_or_app; right; by left).
    apply list_elem_of_In, Hd in Hin as [Hin _]. by destruct Hin.
  - injection Heq as _ Heq. by apply (IH c).
Qed.

End gopath_facts.

Module file_type_properties.

Import gostr gopath path_notions scale_names gopath_facts.

(** X14.  [IsSupportedFile] says yes exactly for the paths that end in
    a dot and [png], [jpeg] or [jpg] in either case, with no
    separator after that dot; what it returns with the answer is that
    ending in lower case, without the dot. *)
Theorem IsSupportedFile_spec (path ext : gostring) :
  is_ascii path = true ->
  IsSupportedFile path = (ext, true)
  <-> exists stem suffix,
        path = stem ++ "."%byte :: suffix
        /\ Forall plain suffix
        /\ ToLower suffix = ext
        /\ In ext [lit "png"; lit "jpeg"; lit "jpg"].
Proof.
  intros _. unfold IsSupportedFile.
  assert (forall e, is_Some (lookup supportedTypes e)
                    <-> In e [lit "png"; lit "jpeg"; lit "jpg"]) as Hsup.
  { intros e. unfold supportedTypes. cbn [lookup In].
    destruct (eqb e (lit "png")) eqn:H1;
      [apply gostring_eqb_eq in H1; split; [by left | by eexists]|].
    destruct (eqb e (lit "jpeg")) eqn:H2;
      [apply gostring_eqb_eq in H2; split; [by (right; left) | by eexists]|].
    destruct (eqb e (lit "jpg")) eqn:H3;
      [apply gostring_eqb_eq in H3;
       split; [by (right; right; left) | by eexists]|].
    split; [intros [? ?]; discriminate|].
    intros [<-|[<-|[<-|[]]]]; rewrite gostring_eqb_refl in *; discriminate. }
  destruct (Ext_spec path) as [(stem & suffix & Hpath & Hsuf & HExt)
                              | [HExt Hno]].
  - assert (ReplaceAll (Ext path) "."%byte [] = suffix) as ->.
    { rewrite HExt. unfold ReplaceAll. cbn [map concat].
      change (Byte.eqb "." ".") with true. cbv iota. cbn [app].
      by apply ReplaceAll_plain. }
    assert (forall stem' suffix',
              path = stem' ++ "."%byte :: suffix' -> Forall plain suffix' ->
              suffix' = suffix) as Huniq.
    { intros stem' suffix' Hpath' Hsuf'. rewrite Hpath in Hpath'.
      by apply (dot_suffix_unique _ _ _ _ Hpath'). }
    specialize (Hsup (ToLower suffix)).
    destruct (lookup supportedTypes (ToLower suffix)) as [[]|].
    + split.
      * intros [= <-]. exists stem, suffix.
        repeat split; [assumption.. | apply Hsup; by eexists].
      * intros (stem' & suffix' & Hpath' & Hsuf' & <- & _).
        by rewrite (Huniq _ _ Hpath' Hsuf').
    + split; [discriminate|].
      intros (stem' & suffix' & Hpath' & Hsuf' & Hlow & Hin).
      rewrite (Huniq _ _ Hpath' Hsuf') in Hlow. subst ext.
      apply Hsup in Hin as [? Hin]. discriminate Hin.
  - rewrite HExt. cbn. split; [discriminate|].
    intros (stem & suffix & Hpath & Hsuf & _). by destruct (Hno _ _ Hpath).
Qed.

Lemma IsSupportedFile_spec_witness :
  IsSupportedFile (lit "shots/tea.pot.JPG") = (lit "jpg", true).
Proof.
  apply (proj2 (IsSupportedFile_spec (lit "shots/tea.pot.JPG") (lit "jpg")
                  eq_refl)).
  exists (lit "shots/tea.pot"), (lit "JPG").
  split; [reflexivity|].
  split; [repeat constructor; discriminate|].
  split; [reflexivity | right; right; by left].
Defined.

End file_type_properties.

(** ** The flags of the scaling modes *)

Module flag_properties.

Import gostr gopath scale scale_names gopath_facts.

Lemma find_value_perm {K : Type} (s : Z) (l l' : list (K * Z)) :
  l ≡ₚ l' -> NoDup (map snd l) ->
  List.find (fun kv => snd kv =? s) l = List.find (fun kv => snd kv =? s) l'.
Proof.
  induction 1 as [|a l l' Hp IH|a b l|l l' l'' Hp IH Hp' IH']; intros Hnd.
  - reflexivity.
  - cbn [List.find]. destruct (snd a =? s); [reflexivity|].
    apply IH. cbn [map] in Hnd. by apply NoDup_cons in Hnd as [_ Hnd].
  - cbn [List.find].
    destruct (snd b =? s) eqn:Hb, (snd a =? s) eqn:Ha; try reflexivity.
    apply Z.eqb_eq in Ha, Hb. cbn [map] in Hnd.
    apply NoDup_cons in Hnd as [Hnd _]. exfalso. apply Hnd.
    rewrite Hb, <- Ha. by left.
  - rewrite IH by exact Hnd. apply IH'.
    rewrite <- (Permutation_map snd Hp). exact Hnd.
Qed.

Lemma scaleModes_values : NoDup (map snd asciify.scaleModes).
Proof.
  repeat (apply NoDup_cons; split;
          [intros Hin; repeat (apply elem_of_cons in Hin as [Hin|Hin];
                               [discriminate Hin|]);
           by apply elem_of_nil in Hin|]).
  apply NoDup_nil. constructor.
Qed.

(** X15.  The flag of a mode does not depend on the order in which
    [range] visits [scaleModes], since no two flags stand for the same
    mode.  A flag that [scaleModeFromFalgStr] accepts is the flag
    [scaleModeFlagStr] gives for its mode, and the other way round
    for the four modes; any other mode has the empty flag and the
    empty name, and the empty flag is refused. *)
Theorem flag_round_trip (visited : list (gostring * Z)) :
  visited ≡ₚ asciify.scaleModes ->
  (forall s,
      asciify.scaleModeFlagStr visited s
      = asciify.scaleModeFlagStr asciify.scaleModes s)
  /\ (forall fs m,
         asciify.scaleModeFromFalgStr fs = (m, None) ->
         asciify.scaleModeFlagStr visited m = fs /\ 0 <= m <= 3)
  /\ (forall s,
         0 <= s <= 3 ->
         asciify.scaleModeFromFalgStr (asciify.scaleModeFlagStr visited s)
         = (s, None)
         /\ String s <> [])
  /\ (forall s,
         ~ 0 <= s <= 3 ->
         asciify.scaleModeFlagStr visited s = [] /\ String s = [])
  /\ asciify.scaleModeFromFalgStr []
     = (0, Some asciify.ErrInvalidScalingMethod).
Proof.
  intros Hperm.
  assert (forall s,
             asciify.scaleModeFlagStr visited s
             = asciify.scaleModeFlagStr asciify.scaleModes s) as Hany.
  { intros s. unfold asciify.scaleModeFlagStr.
    rewrite (find_value_perm s asciify.scaleModes visited);
      [reflexivity | by symmetry | exact scaleModes_values]. }
  split; [exact Hany|]. split; [|split; [|split; [|reflexivity]]].
  - intros fs m. rewrite Hany.
    unfold asciify.scaleModeFromFalgStr, asciify.scaleModes. cbn [lookup].
    destruct (eqb fs (lit "near")) eqn:H1;
      [apply gostring_eqb_eq in H1; subst fs; intros [= <-];
       split; [reflexivity|]; simpl; lia|].
    destruct (eqb fs (lit "approx")) eqn:H2;
      [apply gostring_eqb_eq in H2; subst fs; intros [= <-];
       split; [reflexivity|]; simpl; lia|].
    destruct (eqb fs (lit "bilinear")) eqn:H3;
      [apply gostring_eqb_eq in H3; subst fs; intros [= <-];
       split; [reflexivity|]; simpl; lia|].
    destruct (eqb fs (lit "cat")) eqn:H4;
      [apply gostring_eqb_eq in H4; subst fs; intros [= <-];
       split; [reflexivity|]; simpl; lia|].
    discriminate.
  - intros s Hs. rewrite Hany.
    assert (s = 0 \/ s = 1 \/ s = 2 \/ s = 3) as [->|[->|[->| ->]]] by lia;
      split; (reflexivity || discriminate).
  - intros s Hs. rewrite Hany.
    unfold asciify.scaleModeFlagStr, String, asciify.scaleModes, scaleStr,
      Mode_value.
    cbn [List.find fst snd].
    rewrite !(proj2 (Z.eqb_neq _ s)) by lia. by split.
Qed.

Lemma flag_round_trip_witness :
  asciify.scaleModeFlagStr (reverse asciify.scaleModes) 0 = lit "near"
  /\ asciify.scaleModeFromFalgStr
       (asciify.scaleModeFlagStr (reverse asciify.scaleModes) 3)
     = (3, None).
Proof.
  pose proof (flag_round_trip (reverse asciify.scaleModes)
                (reverse_Permutation asciify.scaleModes))
    as (Hany & _ & Hback & _).
  split; [exact (Hany 0) | exact (proj1 (Hback 3 ltac:(lia)))].
Defined.

End flag_properties.

(** ** [Validate] of the command asciify *)

Module validate_properties.

Import gostr Float64 image gopath scale scale_names files gopath_facts.
Import sample_worlds.




(** X17.  [Validate] returns [ErrInvalidDimensions] exactly when no
    width, no height and a factor that is 0 or less were given, or a
    factor of 0 with a width or a height missing.  It then leaves the
    configuration as it was and looks at no file.  A factor that is
    not a number, and a negative factor next to a width or a height
    given alone, are let through. *)
Theorem Validate_dimension_errors (stat : gostring -> Stat)
  (c : asciify.Config) :
  let o := asciify.ScaleOpts_ c in
  let refused :=
    (Width o = 0 /\ Height o = 0 /\ (Factor o <=? 0)%float = true)
    \/ ((Factor o =? 0)%float = true /\ (Width o = 0 \/ Height o = 0)) in
  ((exists c', asciify.Validate stat c
               = Some (c', Some asciify.ErrInvalidDimensions))
   <-> refused)
  /\ (refused ->
      forall stat', asciify.Validate stat' c
                    = Some (c, Some asciify.ErrInvalidDimensions)).
Proof.
  cbv zeta.
  assert ((exists e, asciify.Validate_dimensions (asciify.ScaleOpts_ c)
                     = inl e)
          <-> (Width (asciify.ScaleOpts_ c) = 0
               /\ Height (asciify.ScaleOpts_ c) = 0
               /\ (Factor (asciify.ScaleOpts_ c) <=? 0)%float = true)
              \/ ((Factor (asciify.ScaleOpts_ c) =? 0)%float = true
                  /\ (Width (asciify.ScaleOpts_ c) = 0
                      \/ Height (asciify.ScaleOpts_ c) = 0))) as Hdim.
  { unfold asciify.Validate_dimensions.
    destruct (Z.eqb_spec (Width (asciify.ScaleOpts_ c)) 0) as [HW|HW],
             (Z.eqb_spec (Height (asciify.ScaleOpts_ c)) 0) as [HH|HH],
             (Factor _ <=? 0)%float eqn:Hle, (Factor _ =? 0)%float eqn:Heq;
      cbn [andb orb negb];
      (split; [intros [e He]; try discriminate He; tauto
              |intros H; try (by eexists);
               exfalso; intuition (congruence || lia)]). }
  assert (forall e stat', asciify.Validate_dimensions (asciify.ScaleOpts_ c)
                          = inl e ->
            e = asciify.ErrInvalidDimensions
            /\ asciify.Validate stat' c = Some (c, Some e)) as Hinl.
  { intros e stat' He. split.
    - unfold asciify.Validate_dimensions in He.
      repeat match type of He with
             | (if ?b then _ else _) = _ => destruct b
             end; congruence.
    - unfold asciify.Validate. by rewrite He. }
  split; [split|].
  - intros [c' Hv]. apply Hdim.
    destruct (asciify.Validate_dimensions (asciify.ScaleOpts_ c)) as [e|o]
      eqn:Hd; [by exists e|].
    exfalso. unfold asciify.Validate in Hv. rewrite Hd in Hv. cbv zeta in Hv.
    destruct (if eqb _ _ then _ else _) as [found|]; [|discriminate].
    cbn [mbind option_bind] in Hv.
    destruct (negb found); [discriminate|].
    destruct (IsSupportedFile _) as [ext ok].
    destruct (negb ok); [discriminate|].
    destruct (if asciify.overwrite _ then _ else _) as [taken|];
      [|discriminate].
    cbn [mbind option_bind] in Hv. destruct taken; discriminate.
  - intros Href. apply Hdim in Href as [e He]. exists c.
    destruct (Hinl e stat He) as [-> Hv]. exact Hv.
  - intros Href stat'. apply Hdim in Href as [e He].
    destruct (Hinl e stat' He) as [-> Hv]. exact Hv.
Qed.

Ltac refuted :=
  let H := fresh in
  intros H; first [discriminate H | destruct H as [? H]; discriminate H].

(** X18.  [Validate] accepts a configuration exactly when the
    dimensions pass, the input is named, exists, is not a directory
    and has a supported extension, and the output, [output.txt] when
    none is named, may be written: [-r] was given, or no file of that
    name exists.  A directory where the output goes does not count as
    an existing file.  The call panics, and only then, when [os.Stat]
    fails on a path it asks about for another reason than a missing
    file. *)
Theorem Validate_files (stat : gostring -> Stat) (c : asciify.Config) :
  let output := if eqb (asciify.out c) [] then lit "output.txt"
                else asciify.out c in
  let dimensions :=
    exists o, asciify.Validate_dimensions (asciify.ScaleOpts_ c) = inr o in
  ((exists c', asciify.Validate stat c = Some (c', None))
   <-> dimensions /\ asciify.in_ c <> [] /\ stat (asciify.in_ c) = StatFile
       /\ snd (IsSupportedFile (asciify.in_ c)) = true
       /\ (asciify.overwrite c = true \/ stat output = StatNotExist
           \/ stat output = StatDir))
  /\ (asciify.Validate stat c = None
      <-> dimensions /\ asciify.in_ c <> []
          /\ (stat (asciify.in_ c) = StatError
              \/ (stat (asciify.in_ c) = StatFile
                  /\ snd (IsSupportedFile (asciify.in_ c)) = true
                  /\ asciify.overwrite c = false
                  /\ stat output = StatError))).
Proof.
  cbv zeta. unfold asciify.Validate.
  destruct (asciify.Validate_dimensions (asciify.ScaleOpts_ c)) as [e|o].
  { split; (split; [refuted
                   |intros [[o Ho] _]; discriminate]). }
  cbv zeta. cbn [asciify.in_ asciify.with_opts].
  assert (exists o0 : ScaleOpts, @inr asciify.Error _ o = inr o0) as Hdim
    by (by exists o).
  destruct (eqb (asciify.in_ c) []) eqn:Hin.
  { apply gostring_eqb_eq in Hin. cbn [mbind option_bind negb].
    split; (split; [refuted
                   |intros (_ & Hne & _); contradiction]). }
  assert (asciify.in_ c <> []) as Hne.
  { intros H. apply gostring_eqb_eq in H. congruence. }
  change (fileExists stat (asciify.in_ c))
    with (match stat (asciify.in_ c) with
          | StatNotExist => Some false
          | StatError => None
          | StatDir => Some false
          | StatFile => Some true
          end).
  destruct (stat (asciify.in_ c)) eqn:Hs; cbn [mbind option_bind negb].
  - split; (split; [refuted
                   |intros H; exfalso; intuition congruence]).
  - split; [split; [refuted
                   |intros H; exfalso; intuition congruence]
           |split; [intros _; repeat split; auto | reflexivity]].
  - split; (split; [refuted
                   |intros H; exfalso; intuition congruence]).
  - destruct (IsSupportedFile (asciify.in_ c)) as [ext ok]. cbn [snd].
    destruct ok; cbn [negb].
    2:{ split; (split; [refuted
                       |intros H; exfalso; intuition congruence]). }
    cbn [asciify.out asciify.with_inExt asciify.with_out asciify.overwrite
           asciify.with_opts].
    assert (asciify.out
              (if eqb (asciify.out c) []
               then asciify.with_out
                      (asciify.with_inExt (asciify.with_opts c o) ext)
                      (lit "output.txt")
               else asciify.with_inExt (asciify.with_opts c o) ext)
            = (if eqb (asciify.out c) [] then lit "output.txt"
               else asciify.out c)) as Hout
      by (by destruct (eqb (asciify.out c) [])).
    assert (asciify.overwrite
              (if eqb (asciify.out c) []
               then asciify.with_out
                      (asciify.with_inExt (asciify.with_opts c o) ext)
                      (lit "output.txt")
               else asciify.with_inExt (asciify.with_opts c o) ext)
            = asciify.overwrite c) as Hover
      by (by destruct (eqb (asciify.out c) [])).
    rewrite Hout, Hover.
    destruct (asciify.overwrite c) eqn:Hov; cbn [mbind option_bind].
    { split; [split; [intros _; repeat split; auto | intros _; by eexists]
             |split; [discriminate
                     | intros H; exfalso; intuition congruence]]. }
    unfold fileExists.
    destruct (stat (if eqb (asciify.out c) [] then _ else _)) eqn:Ho;
      cbn [mbind option_bind].
    + split; [split; [intros _; repeat split; auto | intros _; by eexists]
             |split; [discriminate | intros H; exfalso; intuition congruence]].
    + split; [split; [refuted
                     |intros H; exfalso; intuition congruence]
             |split; [intros _; repeat split; auto | reflexivity]].
    + split; [split; [intros _; repeat split; auto | intros _; by eexists]
             |split; [discriminate | intros H; exfalso; intuition congruence]].
    + split; [split; [refuted
                     |intros H; exfalso; intuition congruence]
             |split; [discriminate | intros H; exfalso; intuition congruence]].
Qed.

End validate_properties.

(** ** From the flags to the size of the image *)

Module pipeline_properties.

Import gostr Float64 image gopath scale scale_names files gopath_facts.
Import float_facts convert_facts sample_worlds.


Lemma uint_of_int_small (i : Z) : 0 <= i < 2 ^ 63 -> uint_of_int i = i.
Proof. intros Hi. apply Z.mod_small. lia. Qed.








End pipeline_properties.

(** ** Files that do not open or do not decode *)

Module io_properties.

Import gostr gopath image scale scale_names scale_io gopath_facts.
Import sample_worlds.



End io_properties.

(** ** [main.go] against the command of the package *)

Module version_properties.

Import gostr gopath scale scale_names files gopath_facts versions.

Lemma supportedTypes_same (ext : gostring) :
  lookup main_flags.supportedTypes ext = lookup supportedTypes ext.
Proof.
  unfold main_flags.supportedTypes, supportedTypes. cbn [lookup].
  destruct (eqb ext (lit "jpg")) eqn:H1, (eqb ext (lit "jpeg")) eqn:H2,
           (eqb ext (lit "png")) eqn:H3; reflexivity.
Qed.

Ltac norm :=
  cbv zeta;
  cbn [main_flags.w main_flags.h main_flags.fact main_flags.in_
       main_flags.out main_flags.mode main_flags.overwrite
       main_flags.printASCII main_flags.reverse main_flags.saveScaled
       main_flags.inExt main_flags.outExt main_flags.with_sizes
       main_flags.with_inExt main_flags.with_out main_flags.with_outExt
       asciify.ScaleOpts_ asciify.in_ asciify.out asciify.overwrite
       asciify.printASCII asciify.reverse asciify.saveScaled asciify.colour
       asciify.inExt asciify.outExt asciify.with_opts asciify.with_inExt
       asciify.with_out asciify.with_outExt
       Width Height Factor scale.mode
       mbind option_bind negb result_of_main option_map error_of_main
       of_main fst snd length Nat.ltb Nat.leb].

(** X23.  [Validate] of [main.go] and [Validate] of the command of the
    package return the same error and leave the same configuration,
    but for one case: when a name is given for the scaled copy and
    its extension is not a supported one, [main.go] refuses it with
    [InvalidInputFormatErr], and the package accepts it, keeping the
    extension as it is. *)
Theorem Validate_versions (stat : gostring -> Stat)
  (c : main_flags.Config) (colour : bool) :
  let copy := main_flags.saveScaled c in
  (copy = [] \/ snd (IsSupportedFile copy) = true ->
   result_of_main colour (main_flags.Validate stat c)
   = asciify.Validate stat (of_main c colour))
  /\ (copy <> [] -> snd (IsSupportedFile copy) = false ->
      forall c', asciify.Validate stat (of_main c colour) = Some (c', None) ->
      exists c0,
        main_flags.Validate stat c
        = Some (c0, Some main_flags.InvalidInputFormatErr)
        /\ asciify.outExt c' = fst (IsSupportedFile copy)).
Proof.
  destruct c as [w h fact inp out mode ov pa rev copy iext oext].
  cbv zeta. cbn [main_flags.saveScaled].
  unfold main_flags.Validate, asciify.Validate, asciify.Validate_dimensions,
    IsSupportedFile, of_main.
  norm.
  destruct ((w =? 0) && (h =? 0) && (fact <=? 0)%float).
  { split; [reflexivity | discriminate]. }
  destruct ((fact =? 0)%float && ((w =? 0) || (h =? 0))).
  { split; [reflexivity | discriminate]. }
  rewrite !supportedTypes_same.
  destruct (negb (w =? 0) && negb (h =? 0)); norm;
    (destruct (if eqb inp [] then Some false else fileExists stat inp)
       as [[|]|]; norm; [|split; [reflexivity | discriminate]..]);
    rewrite ?supportedTypes_same;
    (destruct (lookup supportedTypes
                 (ToLower (ReplaceAll (Ext inp) "."%byte [])))
       as [[]|]; norm; [|split; [reflexivity | discriminate]]);
    (destruct (eqb out []); norm;
     (destruct (if ov then Some false else fileExists stat _) as [[|]|];
      norm;
      [split; [reflexivity | discriminate]
      | |split; [reflexivity | discriminate]]);
     (destruct copy as [|b s];
      [split; [reflexivity | intros H; by destruct H]|]);
     norm; rewrite ?supportedTypes_same;
     (destruct (lookup supportedTypes
                  (ToLower (ReplaceAll (Ext (b :: s)) "."%byte [])))
        as [[]|]; norm;
      [split; [reflexivity | discriminate]
      |split; [intros [H|H]; discriminate H
              |intros _ _ c' [= <-]; eexists; split; reflexivity]])).
Qed.

End version_properties.

(** ** Rounding a fraction to a [float64] *)

Module rounding_facts.

Import Float64 rounding_notions float_facts.

Lemma loc_bits (m r d : Z) (rb sb : bool) :
  0 <= r < d ->
  loc_of_shr_record (Build_shr_record m rb sb) = locZ r d
  <-> (rb = true <-> d <= 2 * r) /\ (sb = true <-> r <> 0 /\ 2 * r <> d).
Proof.
  intros Hr. unfold locZ, loc_of_shr_record.
  destruct (Z.eqb_spec r 0) as [->|Hr0];
    [|destruct (Z.compare_spec (2 * r) d)];
    destruct rb, sb;
    (split;
     [try discriminate; intros _; split; split;
      (discriminate || reflexivity || lia || (intros; lia))
     |intros [[H1 H2] [H3 H4]]; try reflexivity; exfalso;
      first [ specialize (H1 eq_refl); lia
            | destruct (H3 eq_refl); lia
            | specialize (H2 ltac:(lia)); discriminate
            | specialize (H4 ltac:(lia)); discriminate ]]).
Qed.

(** One step to the right halves the unit: the record then stands for
    the same number over twice the denominator. *)
Lemma shr_1_stands_for (mrs : shr_record) (n d : Z) :
  0 < d -> 0 <= n -> stands_for mrs n d -> stands_for (shr_1 mrs) n (d * 2).
Proof.
  intros Hd Hn [Hm Hl]. destruct mrs as [m rb sb]. cbn [shr_m] in Hm.
  pose proof (Z.mod_pos_bound n d Hd) as Hr.
  pose proof (Z.mod_pos_bound n (d * 2) ltac:(lia)) as Hr'.
  apply loc_bits in Hl as [Hrb Hsb]; [|exact Hr].
  assert (0 <= m) as Hm0 by (rewrite Hm; apply Z.div_pos; lia).
  assert (n / (d * 2) = m / 2) as Hq by (by rewrite <- Z.div_div, Hm by lia).
  assert (n mod (d * 2) = n mod d + d * (m mod 2)) as Hrem
    by (by rewrite Z.rem_mul_r, Hm by lia).
  assert (forall (m' : Z) (odd : bool),
            m' = m / 2 -> (odd = true <-> m mod 2 = 1) ->
            stands_for (Build_shr_record m' odd (rb || sb)) n (d * 2))
    as Hstep.
  { intros m' odd -> Hodd. split; [cbn [shr_m]; by rewrite Hq|].
    apply loc_bits; [exact Hr'|]. rewrite Hrem, Hodd, orb_true_iff, Hrb, Hsb.
    pose proof (Z.mod_pos_bound m 2 ltac:(lia)) as H2.
    assert (m mod 2 = 0 \/ m mod 2 = 1) as [-> | ->] by lia; lia. }
  unfold shr_1.
  destruct m as [|p|p]; [| |lia].
  - apply Hstep; [reflexivity | split; discriminate].
  - destruct p as [p|p|].
    + apply Hstep.
      * rewrite Pos2Z.inj_xI.
        replace (2 * Z.pos p + 1) with (1 + Z.pos p * 2) by lia.
        rewrite Z.div_add by lia. reflexivity.
      * split; [intros _|reflexivity]. rewrite Pos2Z.inj_xI.
        replace (2 * Z.pos p + 1) with (1 + Z.pos p * 2) by lia.
        by rewrite Z.mod_add by lia.
    + apply Hstep.
      * rewrite Pos2Z.inj_xO, Z.mul_comm. by rewrite Z.div_mul by lia.
      * split; [discriminate|]. rewrite Pos2Z.inj_xO, Z.mul_comm.
        rewrite Z.mod_mul by lia. discriminate.
    + apply Hstep; [reflexivity | split; reflexivity].
Qed.

Lemma iter_shr_1_stands_for (p : positive) :
  forall (mrs : shr_record) (n d : Z),
  0 < d -> 0 <= n -> stands_for mrs n d ->
  stands_for (SpecFloat.iter_pos shr_1 p mrs) n (d * 2 ^ Z.pos p).
Proof.
  induction p as [p IH|p IH|]; intros mrs n d Hd Hn Hs;
    cbn [SpecFloat.iter_pos].
  - apply shr_1_stands_for in Hs; [|assumption..].
    apply IH in Hs; [|lia|assumption].
    assert (0 < 2 ^ Z.pos p) by (apply Z.pow_pos_nonneg; lia).
    apply IH in Hs; [|nia|assumption].
    replace (d * 2 ^ Z.pos p~1)
      with (d * 2 * 2 ^ Z.pos p * 2 ^ Z.pos p); [exact Hs|].
    replace (Z.pos p~1) with (Z.pos p + Z.pos p + 1) by lia.
    rewrite !Z.pow_add_r by lia. change (2 ^ 1) with 2. ring.
  - apply IH in Hs; [|assumption..].
    assert (0 < 2 ^ Z.pos p) by (apply Z.pow_pos_nonneg; lia).
    apply IH in Hs; [|nia|assumption].
    replace (d * 2 ^ Z.pos p~0) with (d * 2 ^ Z.pos p * 2 ^ Z.pos p);
      [exact Hs|].
    replace (Z.pos p~0) with (Z.pos p + Z.pos p) by lia.
    rewrite !Z.pow_add_r by lia. ring.
  - apply shr_1_stands_for in Hs; [|assumption..]. exact Hs.
Qed.

End rounding_facts.

Module rounding_spec.

Import Float64 rounding_notions float_facts rounding_facts.

Lemma digits_of_range (m : positive) (k : Z) :
  2 ^ (k - 1) <= Z.pos m < 2 ^ k -> 0 < k -> Z.pos (digits2_pos m) = k.
Proof.
  intros [Hlo Hhi] Hk.
  pose proof (digits2_pos_lower m) as Hl.
  pose proof (digits2_pos_upper m) as Hu.
  assert (Z.pos (digits2_pos m) - 1 < k) as H1.
  { apply (Z.pow_lt_mono_r_iff 2); lia. }
  assert (k - 1 < Z.pos (digits2_pos m)) as H2.
  { apply (Z.pow_lt_mono_r_iff 2); lia. }
  lia.
Qed.

Lemma loc_of_shr_record_of_loc (m : Z) (l : location) :
  loc_of_shr_record (shr_record_of_loc m l) = l
  /\ shr_m (shr_record_of_loc m l) = m.
Proof. destruct l as [|[]]; by split. Qed.

Lemma round_nearest_even_spec (mrs : shr_record) (n d : Z) :
  0 < d -> 0 <= n -> stands_for mrs n d ->
  let M := round_nearest_even (shr_m mrs) (loc_of_shr_record mrs) in
  n / d <= M <= n / d + 1 /\ 2 * Z.abs (M * d - n) <= d.
Proof.
  intros Hd Hn [Hm Hl]. cbv zeta. rewrite Hm, Hl. unfold locZ.
  pose proof (Z.div_mod n d ltac:(lia)) as Hdm.
  pose proof (Z.mod_pos_bound n d Hd) as Hr.
  destruct (Z.eqb_spec (n mod d) 0) as [H0|H0]; cbn [round_nearest_even].
  - split; [lia|]. nia.
  - destruct (Z.compare_spec (2 * (n mod d)) d) as [He|Hlt|Hgt].
    + destruct (Z.even (n / d)); (split; [lia|]); nia.
    + split; [lia|]. nia.
    + split; [lia|]. nia.
Qed.

(** [binary_round_aux] on a mantissa of [53 + k] binary digits that
    stands for [n / d], far from the ends of the exponent range: the
    result is the nearest float, its mantissa [M] within half a unit
    of [n / (d 2^k)]; a mantissa rounded up to [2^53] is renormalised. *)
Lemma binary_round_aux_spec (m : positive) (e k : Z) (l : location)
  (n d : Z) :
  0 < d -> 0 <= n -> Z.pos m = n / d -> l = locZ (n mod d) d ->
  0 <= k -> 2 ^ (52 + k) <= Z.pos m < 2 ^ (53 + k) ->
  - 1074 <= e + k -> e + k < 971 ->
  exists M : Z,
    2 ^ 52 <= M <= 2 ^ 53
    /\ 2 * Z.abs (M * (d * 2 ^ k) - n) <= d * 2 ^ k
    /\ binary_round_aux prec emax false (Z.pos m) e l
       = if M <? 2 ^ 53 then S754_finite false (Z.to_pos M) (e + k)
         else S754_finite false (Z.to_pos (2 ^ 52)) (e + k + 1).
Proof.
  intros Hd Hn Hm Hl Hk Hrange Hlo Hhi.
  assert (0 < 2 ^ k) as Hpk by (apply Z.pow_pos_nonneg; lia).
  assert (Z.pos (digits2_pos m) = 53 + k) as Hdig.
  { apply digits_of_range; [|lia].
    by replace (53 + k - 1) with (52 + k) by lia. }
  unfold binary_round_aux, shr_fexp. cbn [Zdigits2]. rewrite Hdig.
  assert (fexp prec emax (53 + k + e) - e = k) as ->.
  { unfold fexp, SpecFloat.emin, prec, emax. lia. }
  set (mrs0 := shr_record_of_loc (Z.pos m) l).
  assert (stands_for mrs0 n d) as H0.
  { unfold stands_for, mrs0.
    destruct (loc_of_shr_record_of_loc (Z.pos m) l) as [-> ->]. by split. }
  assert (exists mrs', shr mrs0 e k = (mrs', e + k)
                       /\ stands_for mrs' n (d * 2 ^ k)) as (mrs' & -> & Hs).
  { unfold shr. destruct k as [|pk|pk]; [| |lia].
    - exists mrs0. rewrite Z.add_0_r, Z.pow_0_r, Z.mul_1_r. by split.
    - eexists. split; [reflexivity|]. by apply iter_shr_1_stands_for. }
  pose proof (round_nearest_even_spec mrs' n (d * 2 ^ k) ltac:(nia) Hn Hs)
    as [HM Herr].
  set (M := round_nearest_even (shr_m mrs') (loc_of_shr_record mrs')) in *.
  assert (n / (d * 2 ^ k) = Z.pos m / 2 ^ k) as Hq
    by (by rewrite <- Z.div_div, Hm by lia).
  assert (2 ^ 52 <= Z.pos m / 2 ^ k < 2 ^ 53) as Hmk.
  { destruct Hrange as [H1 H2].
    rewrite Z.pow_add_r in H1, H2 by lia. split.
    - apply Z.div_le_lower_bound; lia.
    - apply Z.div_lt_upper_bound; lia. }
  exists M. split; [lia|]. split; [exact Herr|].
  assert (0 < M) as HM0 by (assert (0 < 2 ^ 52) by reflexivity; lia).
  destruct (Z.ltb_spec M (2 ^ 53)) as [Hlt|Hge].
  - destruct M as [|pM|pM]; try lia.
    assert (Z.pos (digits2_pos pM) = 53) as HdM
      by (apply digits_of_range; [change (53 - 1) with 52|]; lia).
    cbn [Zdigits2 Z.to_pos]. rewrite HdM.
    assert (fexp prec emax (53 + (e + k)) - (e + k) = 0) as ->.
    { unfold fexp, SpecFloat.emin, prec, emax. lia. }
    cbn [shr shr_record_of_loc shr_m].
    by rewrite (proj2 (Z.leb_le (e + k) (emax - prec)))
      by (unfold emax, prec; lia).
  - assert (M = 2 ^ 53) as -> by lia.
    change (Zdigits2 (2 ^ 53)) with 54.
    assert (fexp prec emax (54 + (e + k)) - (e + k) = 1) as ->.
    { unfold fexp, SpecFloat.emin, prec, emax. lia. }
    cbn [shr shr_record_of_loc SpecFloat.iter_pos].
    change (shr_m (shr_1 (Build_shr_record (2 ^ 53) false false)))
      with (2 ^ 52).
    change (2 ^ 52) with (Z.pos (Z.to_pos (2 ^ 52))) at 1. cbv iota.
    by rewrite (proj2 (Z.leb_le (e + k + 1) (emax - prec)))
      by (unfold emax, prec; lia).
Qed.

End rounding_spec.

(** ** Quotients and products of small integers in [float64] *)

Module division_facts.

Import Float64 rounding rounding_notions normal_floats.
Import float_facts rounding_facts rounding_spec.

Lemma pow2_pos (k : Z) : 0 <= k -> 0 < 2 ^ k.
Proof. intros Hk. apply Z.pow_pos_nonneg; lia. Qed.

Lemma pow2_split (a b : Z) : 0 <= a -> 0 <= b -> 2 ^ (a + b) = 2 ^ a * 2 ^ b.
Proof. intros. apply Z.pow_add_r; lia. Qed.

Lemma pow2_le (a b : Z) : 0 <= a <= b -> 2 ^ a <= 2 ^ b.
Proof. intros. apply Z.pow_le_mono_r; lia. Qed.

Lemma pow2_lt_inv (a b : Z) : 0 <= a -> 0 <= b -> 2 ^ a < 2 ^ b -> a < b.
Proof. intros Ha Hb H. apply (Z.pow_lt_mono_r_iff 2); lia. Qed.

(** The float of an integer from 1 to [2^53 - 1]. *)
Lemma of_Z_normal (K : Z) :
  0 < K < 2 ^ 53 ->
  exists M E, normal (of_Z K) M E /\ - 52 <= E <= 0 /\ M = K * 2 ^ (- E).
Proof.
  intros [HK0 HK]. destruct K as [|p|p]; try lia.
  unfold of_Z. cbn [binary_normalize].
  pose proof (Prim2SF_of_Z_pos false p HK) as Hx.
  pose proof (shifted_spec p HK) as Hs.
  destruct (shifted p) as [m e]. destruct Hs as (Hb & He & Hm).
  cbn [fst snd] in Hx. exists (Z.pos m), e.
  split; [|split; [exact He | exact Hm]].
  split; [exact Hx|].
  split; [|by apply (bounded_small m e)].
  unfold bounded, canonical_mantissa, fexp, SpecFloat.emin, prec, emax in Hb.
  apply andb_prop in Hb as [Hc _]. apply Z.eqb_eq in Hc.
  assert (Z.pos (digits2_pos m) = 53) as Hd by lia.
  pose proof (digits2_pos_lower m) as Hl. rewrite Hd in Hl. exact Hl.
Qed.

Lemma new_location_locZ (d r : Z) :
  0 <= r < d -> new_location d r = locZ r d.
Proof.
  intros Hr. unfold new_location, new_location_even, new_location_odd, locZ.
  destruct (Z.even d) eqn:Hev; [reflexivity|].
  destruct (Z.eqb_spec r 0); [reflexivity|]. f_equal.
  assert (Z.odd d = true) as Hodd by (by rewrite <- Z.negb_even, Hev).
  apply Z.odd_spec in Hodd as [t Ht].
  destruct (Z.compare_spec (2 * r + 1) d), (Z.compare_spec (2 * r) d);
    try reflexivity; lia.
Qed.

(** The exponent of the float of the smaller of two integers is not
    the larger one. *)
Lemma exponent_mono (K N MK EK MN EN : Z) :
  0 < K < N -> EK <= 0 -> EN <= 0 ->
  2 ^ 52 <= MK < 2 ^ 53 -> 2 ^ 52 <= MN < 2 ^ 53 ->
  MK = K * 2 ^ (- EK) -> MN = N * 2 ^ (- EN) -> EK <= EN.
Proof.
  intros HK HEK HEN HMK HMN HK' HN'.
  destruct (Z_le_gt_dec EK EN) as [|Hgt]; [assumption|exfalso].
  assert (2 ^ (- EN) = 2 ^ (- EK) * 2 ^ (EK - EN)) as Hsplit.
  { rewrite <- pow2_split by lia. f_equal. lia. }
  pose proof (pow2_pos (- EK) ltac:(lia)) as HtK.
  assert (2 <= 2 ^ (EK - EN)) as H2.
  { change 2 with (2 ^ 1) at 1. apply pow2_le. lia. }
  assert (2 ^ 53 = 2 * 2 ^ 52) as H53 by reflexivity.
  rewrite Hsplit in HN'. nia.
Qed.

(** The quotient of two integers below [2^31], the smaller by the
    larger, computed in [float64]: a normal float below 1 whose
    product with the divisor is within half a unit of the last place,
    times the divisor, of the dividend. *)
Lemma div_normal (K N : Z) :
  0 < K < N -> N < 2 ^ 31 ->
  exists M E,
    normal (of_Z K / of_Z N)%float M E
    /\ - 106 <= E <= - 53
    /\ 2 * Z.abs (M * N - K * 2 ^ (- E)) <= N.
Proof.
  intros HK HN.
  assert (2 ^ 31 < 2 ^ 53) as H3153 by reflexivity.
  destruct (of_Z_normal K ltac:(lia)) as (MK & EK & [HxK HMK] & HEK & HK').
  destruct (of_Z_normal N ltac:(lia)) as (MN & EN & [HxN HMN] & HEN & HN').
  pose proof (exponent_mono K N MK EK MN EN HK ltac:(lia) ltac:(lia)
                HMK HMN HK' HN') as Hmono.
  assert (0 < 2 ^ 52) as H52 by reflexivity.
  assert (2 ^ 53 = 2 * 2 ^ 52) as H53 by reflexivity.
  assert (2 ^ 54 = 4 * 2 ^ 52) as H54 by reflexivity.
  (* the quotient of the mantissas *)
  set (q := MK * 2 ^ 53 / MN).
  set (r := (MK * 2 ^ 53) mod MN).
  assert (2 ^ 52 <= q < 2 ^ 54) as Hq.
  { unfold q. split.
    - apply Z.div_le_lower_bound; nia.
    - apply Z.div_lt_upper_bound; nia. }
  assert (0 <= r < MN) as Hr by (apply Z.mod_pos_bound; lia).
  set (k := if q <? 2 ^ 53 then 0 else 1).
  assert (0 <= k <= 1 /\ 2 ^ (52 + k) <= q < 2 ^ (53 + k)) as [Hk Hqk].
  { unfold k. destruct (Z.ltb_spec q (2 ^ 53)); (split; [lia|]);
      [change (52 + 0) with 52; change (53 + 0) with 53
      |change (52 + 1) with 53; change (53 + 1) with 54]; lia. }
  destruct (binary_round_aux_spec (Z.to_pos q) (EK - EN - 53) k
              (locZ r MN) (MK * 2 ^ 53) MN)
    as (M0 & HM0 & Herr & Hres);
    [lia | nia | rewrite Z2Pos.id by lia; reflexivity | reflexivity
    | lia | rewrite Z2Pos.id by lia; exact Hqk | lia | lia |].
  (* what the division computes *)
  assert (Prim2SF (of_Z K / of_Z N)
          = binary_round_aux prec emax false (Z.pos (Z.to_pos q))
                             (EK - EN - 53) (locZ r MN)) as Hdiv.
  { rewrite FloatAxioms.div_spec, HxK, HxN.
    unfold SF64div, SFdiv, SFdiv_core_binary. cbn [xorb Zdigits2].
    rewrite !(digits_of_range _ 53)
      by (rewrite ?Z2Pos.id by lia; change (53 - 1) with 52; lia).
    assert (Z.min (fexp prec emax (53 + EK - (53 + EN))) (EK - EN)
            = EK - EN - 53) as ->.
    { unfold fexp, SpecFloat.emin, prec, emax. lia. }
    replace (EK - EN - (EK - EN - 53)) with 53 by lia. cbv iota.
    rewrite Z.shiftl_mul_pow2 by lia. rewrite !Z2Pos.id by lia.
    pose proof (eq_refl : Z.div (MK * 2 ^ 53) MN = q) as Hq'.
    pose proof (eq_refl : Z.modulo (MK * 2 ^ 53) MN = r) as Hr'.
    unfold Z.div in Hq'. unfold Z.modulo in Hr'.
    destruct (Z.div_eucl (MK * 2 ^ 53) MN) as [q' r'].
    cbn [fst snd] in Hq', Hr'. subst q' r'.
    rewrite new_location_locZ by exact Hr. reflexivity. }
  (* the result, renormalised *)
  set (g := 2 ^ (EN - EK)).
  assert (0 < g) as Hg by (apply pow2_pos; lia).
  assert (2 ^ (- EK) = 2 ^ (- EN) * g) as HtK.
  { unfold g. rewrite <- pow2_split by lia. f_equal. lia. }
  pose proof (pow2_pos (- EN) ltac:(lia)) as HtN.
  assert (2 * Z.abs (M0 * N * 2 ^ k - K * g * 2 ^ 53) <= N * 2 ^ k) as Herr'.
  { rewrite HN', HK', HtK in Herr.
    replace (M0 * (N * 2 ^ (- EN) * 2 ^ k) - K * (2 ^ (- EN) * g) * 2 ^ 53)
      with ((M0 * N * 2 ^ k - K * g * 2 ^ 53) * 2 ^ (- EN)) in Herr by ring.
    rewrite Z.abs_mul, (Z.abs_eq (2 ^ (- EN))) in Herr by lia.
    apply (Z.mul_le_mono_pos_r _ _ (2 ^ (- EN))); [exact HtN|]. lia. }
  destruct (Z.ltb_spec M0 (2 ^ 53)) as [Hlt|Hge].
  - exists M0, (EK - EN - 53 + k).
    assert (2 ^ (- (EK - EN - 53 + k)) * 2 ^ k = g * 2 ^ 53) as Hpow.
    { unfold g. rewrite <- !pow2_split by lia. f_equal. lia. }
    assert (2 * Z.abs (M0 * N - K * 2 ^ (- (EK - EN - 53 + k))) <= N)
      as Hbound.
    { pose proof (pow2_pos k ltac:(lia)) as Hpk.
      apply (Z.mul_le_mono_pos_r _ _ (2 ^ k)); [exact Hpk|].
      replace (2 * Z.abs (M0 * N - K * 2 ^ (- (EK - EN - 53 + k))) * 2 ^ k)
        with (2 * Z.abs ((M0 * N - K * 2 ^ (- (EK - EN - 53 + k))) * 2 ^ k))
        by (rewrite Z.abs_mul, (Z.abs_eq (2 ^ k)) by lia; ring).
      replace ((M0 * N - K * 2 ^ (- (EK - EN - 53 + k))) * 2 ^ k)
        with (M0 * N * 2 ^ k - K * (2 ^ (- (EK - EN - 53 + k)) * 2 ^ k))
        by ring.
      rewrite Hpow. replace (K * (g * 2 ^ 53)) with (K * g * 2 ^ 53) by ring.
      exact Herr'. }
    split; [split; [by rewrite Hdiv, Hres | lia]|].
    split; [|exact Hbound].
    split; [lia|].
    (* below 1: the mantissa is below [2^(-E)] *)
    destruct (Z_le_gt_dec (EK - EN - 53 + k) (- 53)) as [|Hgt]; [assumption|].
    exfalso. assert (EK = EN /\ k = 1) as [-> ->] by lia.
    replace (- (EN - EN - 53 + 1)) with 52 in Hbound by lia.
    nia.
  - exists (2 ^ 52), (EK - EN - 53 + k + 1).
    assert (M0 = 2 ^ 53) as -> by lia.
    assert (2 * 2 ^ (- (EK - EN - 53 + k + 1)) * 2 ^ k = g * 2 ^ 53) as Hpow.
    { unfold g. change 2 with (2 ^ 1) at 1.
      rewrite <- !pow2_split by lia. f_equal. lia. }
    assert (2 * Z.abs (2 ^ 52 * N - K * 2 ^ (- (EK - EN - 53 + k + 1))) <= N)
      as Hbound.
    { pose proof (pow2_pos k ltac:(lia)) as Hpk.
      pose proof (pow2_pos (- (EK - EN - 53 + k + 1)) ltac:(lia)) as Hpe.
      assert (2 * (2 ^ 52 * N - K * 2 ^ (- (EK - EN - 53 + k + 1))) * 2 ^ k
              = 2 ^ 53 * N * 2 ^ k - K * g * 2 ^ 53) as Heq.
      { replace (K * g * 2 ^ 53) with (K * (g * 2 ^ 53)) by ring.
        rewrite <- Hpow, H53. ring. }
      apply (Z.mul_le_mono_pos_r _ _ (2 * 2 ^ k)); [lia|].
      replace (2 * Z.abs (2 ^ 52 * N - K * 2 ^ (- (EK - EN - 53 + k + 1)))
               * (2 * 2 ^ k))
        with (2 * Z.abs (2 * (2 ^ 52 * N
                              - K * 2 ^ (- (EK - EN - 53 + k + 1))) * 2 ^ k)).
      2:{ rewrite !Z.abs_mul, (Z.abs_eq (2 ^ k)), (Z.abs_eq 2) by lia. ring. }
      rewrite Heq. lia. }
    split; [split; [by rewrite Hdiv, Hres | lia]|].
    split; [|exact Hbound].
    split; [lia|].
    destruct (Z_le_gt_dec (EK - EN - 53 + k + 1) (- 53)) as [|Hgt];
      [assumption|].
    exfalso.
    assert (- (EK - EN - 53 + k + 1) = 52 \/ - (EK - EN - 53 + k + 1) = 51
            \/ - (EK - EN - 53 + k + 1) = 53) as Hcases by lia.
    destruct Hcases as [He|[He|He]]; rewrite He in Hbound; try lia; nia.
Qed.

End division_facts.

Module scaling_facts.

Import Float64 rounding rounding_notions normal_floats.
Import float_facts rounding_facts rounding_spec division_facts.

(** Two normal floats compare as their values do. *)
Lemma ltb_normal (f g : float64) (Mf Ef Mg Eg : Z) :
  normal f Mf Ef -> normal g Mg Eg -> Ef <= 0 -> Eg <= 0 ->
  (f <? g)%float = true <-> Mf * 2 ^ (- Eg) < Mg * 2 ^ (- Ef).
Proof.
  intros [Hf HMf] [Hg HMg] HEf HEg.
  rewrite FloatAxioms.ltb_spec, Hf, Hg. unfold SFltb, SFcompare.
  assert (2 ^ 53 = 2 * 2 ^ 52) as H53 by reflexivity.
  pose proof (pow2_pos (- Ef) ltac:(lia)) as Htf.
  pose proof (pow2_pos (- Eg) ltac:(lia)) as Htg.
  destruct (Z.compare_spec Ef Eg) as [->|Hlt|Hgt].
  - change (Pos.compare_cont Eq (Z.to_pos Mf) (Z.to_pos Mg))
      with (Z.to_pos Mf ?= Z.to_pos Mg)%positive.
    rewrite <- (Z2Pos.id Mf), <- (Z2Pos.id Mg) at 2 by lia.
    destruct (Pos.compare_spec (Z.to_pos Mf) (Z.to_pos Mg)) as [He|Hl|Hg'].
    + rewrite He. split; [discriminate | lia].
    + split; [intros _|reflexivity]. apply Z.mul_lt_mono_pos_r; lia.
    + split; [discriminate|]. intros H.
      apply Z.mul_lt_mono_pos_r in H; lia.
  - split; [intros _|reflexivity].
    assert (2 ^ (- Ef) = 2 ^ (- Eg) * 2 ^ (Eg - Ef)) as ->.
    { rewrite <- pow2_split by lia. f_equal. lia. }
    assert (2 <= 2 ^ (Eg - Ef)) as H2.
    { change 2 with (2 ^ 1) at 1. apply pow2_le. lia. }
    apply Z.lt_le_trans with (2 * Mg * 2 ^ (- Eg)).
    + apply Z.mul_lt_mono_pos_r; lia.
    + assert (0 < Mg * 2 ^ (- Eg)) by nia. nia.
  - split; [discriminate|]. intros H. exfalso.
    assert (2 ^ (- Eg) = 2 ^ (- Ef) * 2 ^ (Ef - Eg)) as Hs.
    { rewrite <- pow2_split by lia. f_equal. lia. }
    assert (2 <= 2 ^ (Ef - Eg)) as H2.
    { change 2 with (2 ^ 1) at 1. apply pow2_le. lia. }
    rewrite Hs in H.
    assert (Mg * 2 ^ (- Ef) < 2 * Mf * 2 ^ (- Ef)) as H1
      by (apply Z.mul_lt_mono_pos_r; lia).
    assert (0 < Mf * 2 ^ (- Ef)) by nia. nia.
Qed.

Lemma eqb_normal_zero (f : float64) (M E : Z) :
  normal f M E -> (f =? 0)%float = false.
Proof. intros [Hf _]. by rewrite FloatAxioms.eqb_spec, Hf. Qed.

Lemma one_normal : normal 1%float (2 ^ 52) (- 52).
Proof. split; [reflexivity | split; [lia | reflexivity]]. Qed.

(** The product of an integer below [2^31] and a normal float below
    1, computed in [float64]: a normal float within half a unit of its
    last place of the exact product. *)
Lemma mul_normal (Y : Z) (f : float64) (Mf Ef : Z) :
  0 < Y < 2 ^ 31 -> normal f Mf Ef -> - 200 <= Ef <= - 53 ->
  exists M E,
    normal (of_Z Y * f)%float M E
    /\ Ef <= E <= - 21
    /\ 2 * Z.abs (M * 2 ^ (E - Ef) - Y * Mf) <= 2 ^ (E - Ef).
Proof.
  intros HY [Hf HMf] HEf.
  assert (2 ^ 31 < 2 ^ 53) as H3153 by reflexivity.
  destruct (of_Z_normal Y ltac:(lia)) as (MY & EY & [HxY HMY] & HEY & HY').
  assert (0 < 2 ^ 52) as H52 by reflexivity.
  assert (2 ^ 53 = 2 * 2 ^ 52) as H53 by reflexivity.
  assert (2 ^ 104 = 2 ^ 52 * 2 ^ 52) as H104 by reflexivity.
  assert (2 ^ 105 = 2 * (2 ^ 52 * 2 ^ 52)) as H105 by reflexivity.
  assert (2 ^ 106 = 4 * (2 ^ 52 * 2 ^ 52)) as H106 by reflexivity.
  pose proof (pow2_pos (- EY) ltac:(lia)) as HtY.
  assert (EY <= - 22) as HEY22.
  { assert (2 ^ 21 < 2 ^ (- EY)) as H
      by (change (2 ^ 31) with (1024 * 2 ^ 21) in HY;
          change (2 ^ 52) with (2147483648 * 2 ^ 21) in HMY; nia).
    apply pow2_lt_inv in H; lia. }
  set (k := if MY * Mf <? 2 ^ 105 then 52 else 53).
  assert (52 <= k <= 53 /\ 2 ^ (52 + k) <= MY * Mf < 2 ^ (53 + k))
    as [Hk Hrange].
  { unfold k. destruct (Z.ltb_spec (MY * Mf) (2 ^ 105)); (split; [lia|]);
      [change (52 + 52) with 104; change (53 + 52) with 105
      |change (52 + 53) with 105; change (53 + 53) with 106]; nia. }
  destruct (binary_round_aux_spec (Z.to_pos MY * Z.to_pos Mf)
              (EY + Ef) k loc_Exact (MY * Mf) 1)
    as (M0 & HM0 & Herr & Hres);
    [lia | nia
    | rewrite Pos2Z.inj_mul, !Z2Pos.id, Z.div_1_r by lia; reflexivity
    | by rewrite Z.mod_1_r
    | lia
    | rewrite Pos2Z.inj_mul, !Z2Pos.id by lia; exact Hrange
    | lia | lia |].
  assert (Prim2SF (of_Z Y * f)
          = binary_round_aux prec emax false
              (Z.pos (Z.to_pos MY * Z.to_pos Mf)) (EY + Ef) loc_Exact)
    as Hmul by (by rewrite FloatAxioms.mul_spec, HxY, Hf).
  set (u := EY + k).
  assert (2 ^ k = 2 ^ (- EY) * 2 ^ u) as Hpk.
  { unfold u. rewrite <- pow2_split by lia. f_equal. lia. }
  pose proof (pow2_pos u ltac:(unfold u; lia)) as Hu.
  assert (2 * Z.abs (M0 * 2 ^ u - Y * Mf) <= 2 ^ u) as Herr'.
  { rewrite Z.mul_1_l, Hpk, HY' in Herr.
    replace (M0 * (2 ^ (- EY) * 2 ^ u) - Y * 2 ^ (- EY) * Mf)
      with ((M0 * 2 ^ u - Y * Mf) * 2 ^ (- EY)) in Herr by ring.
    rewrite Z.abs_mul, (Z.abs_eq (2 ^ (- EY))) in Herr by lia.
    apply (Z.mul_le_mono_pos_r _ _ (2 ^ (- EY))); [exact HtY|]. lia. }
  destruct (Z.ltb_spec M0 (2 ^ 53)) as [Hlt|Hge].
  - exists M0, (EY + Ef + k).
    split; [split; [by rewrite Hmul, Hres | lia]|].
    split; [lia|].
    replace (EY + Ef + k - Ef) with u by (unfold u; lia). exact Herr'.
  - exists (2 ^ 52), (EY + Ef + k + 1).
    assert (M0 = 2 ^ 53) as HM0' by lia.
    split; [split; [by rewrite Hmul, Hres | lia]|].
    split; [lia|].
    replace (EY + Ef + k + 1 - Ef) with (1 + u) by (unfold u; lia).
    rewrite pow2_split by (unfold u; lia). change (2 ^ 1) with 2.
    replace (2 ^ 52 * (2 * 2 ^ u)) with (M0 * 2 ^ u)
      by (rewrite HM0', H53; ring).
    lia.
Qed.

(** [round] of a normal float with a negative exponent. *)
Lemma nearest_normal (x : float64) (M E : Z) :
  normal x M E -> E < 0 ->
  nearest x = Some ((2 * M + 2 ^ (- E)) / (2 * 2 ^ (- E))).
Proof.
  intros [Hx HM] HE. unfold nearest. rewrite Hx. cbv zeta.
  rewrite Z2Pos.id by lia.
  rewrite (Z.max_r E 0), (Z.max_l (- E) 0) by lia.
  rewrite Z.pow_0_r, Z.mul_1_r, Z.mul_1_l.
  pose proof (pow2_pos (- E) ltac:(lia)) as Hden.
  assert (2 <= 2 ^ (- E)) as H2.
  { change 2 with (2 ^ 1) at 1. apply pow2_le. lia. }
  unfold round_half_away. rewrite Z.sgn_pos, Z.abs_eq, Z.mul_1_l by lia.
  assert (0 <= (2 * M + 2 ^ (- E)) / (2 * 2 ^ (- E)) <= M) as Hn.
  { split; [apply Z.div_pos; lia|].
    apply Z.div_le_upper_bound; [lia|]. nia. }
  assert (2 ^ 53 < MaxInt) as Hmax by reflexivity.
  unfold MinInt.
  rewrite (proj2 (Z.leb_le _ _)), (proj2 (Z.leb_le _ _)) by lia.
  reflexivity.
Qed.

(** An integer [Y] below [2^31] scaled by a normal float [f] below 1,
    then rounded to an integer as [getScaledXY] does: when [Y f] is at
    most a quarter above the integer [B], the result is at most [B];
    when it is within a quarter of [B], the result is [B]. *)
Lemma scaled_at_most (Y B : Z) (f : float64) (Mf Ef : Z) :
  0 < Y < 2 ^ 31 -> normal f Mf Ef -> - 200 <= Ef <= - 53 ->
  4 * Y * Mf <= (4 * B + 1) * 2 ^ (- Ef) ->
  exists k,
    nearest (of_Z Y * f)%float = Some k /\ 0 <= k <= B
    /\ ((4 * B - 1) * 2 ^ (- Ef) <= 4 * Y * Mf -> k = B).
Proof.
  intros HY Hf HEf Hup.
  destruct (mul_normal Y f Mf Ef HY Hf HEf) as (M & E & HP & HE & Herr).
  pose proof HP as [_ HM]. destruct Hf as [_ HMf].
  rewrite (nearest_normal _ M E HP ltac:(lia)).
  eexists. split; [reflexivity|].
  set (den := 2 ^ (- E)). set (u := E - Ef) in *.
  pose proof (pow2_pos (- E) ltac:(lia)) as Hden. fold den in Hden.
  pose proof (pow2_pos u ltac:(unfold u; lia)) as Hu.
  assert (2 ^ (- Ef) = den * 2 ^ u) as Hsplit.
  { unfold den, u. rewrite <- pow2_split by lia. f_equal. lia. }
  assert (4 <= den) as H4.
  { unfold den. change 4 with (2 ^ 2) at 1. apply pow2_le. lia. }
  rewrite Hsplit in Hup |- *.
  assert (0 <= B) as HB.
  { destruct (Z_le_gt_dec 0 B); [assumption|exfalso].
    assert (0 < 2 ^ 52) by reflexivity. nia. }
  assert (4 * M <= (4 * B + 1) * den + 2) as Hhi.
  { apply (Z.mul_le_mono_pos_r _ _ (2 ^ u)); [exact Hu|].
    assert (2 * (M * 2 ^ u - Y * Mf) <= 2 ^ u) by lia. nia. }
  split; [split|].
  - apply Z.div_pos; lia.
  - apply Z.lt_succ_r, Z.div_lt_upper_bound; [lia|]. nia.
  - intros Hlo.
    assert ((4 * B - 1) * den - 2 <= 4 * M) as Hlow.
    { apply (Z.mul_le_mono_pos_r _ _ (2 ^ u)); [exact Hu|].
      assert (- 2 ^ u <= 2 * (M * 2 ^ u - Y * Mf)) by lia. nia. }
    apply Z.le_antisymm.
    + apply Z.lt_succ_r, Z.div_lt_upper_bound; [lia|]. nia.
    + apply Z.div_le_lower_bound; [lia|]. nia.
Qed.

End scaling_facts.

(** ** The window of the command preview *)

Module window_properties.

Import Float64 image scale rounding rounding_notions normal_floats.
Import float_facts rounding_facts rounding_spec division_facts scaling_facts.
Import pipeline_properties.

(** What [Image] makes of a source for a normal factor below 1. *)
Lemma Image_bounds_scaled (src : Image) (o : ScaleOpts) (Mf Ef BX BY : Z) :
  normal (Factor o) Mf Ef -> - 200 <= Ef <= - 53 ->
  0 < X (Max (Bounds src)) < 2 ^ 31 -> 0 < Y (Max (Bounds src)) < 2 ^ 31 ->
  4 * X (Max (Bounds src)) * Mf <= (4 * BX + 1) * 2 ^ (- Ef) ->
  4 * Y (Max (Bounds src)) * Mf <= (4 * BY + 1) * 2 ^ (- Ef) ->
  exists x y,
    Image_bounds src o = Some (Rect 0 0 x y)
    /\ 0 <= x <= BX /\ 0 <= y <= BY
    /\ ((4 * BX - 1) * 2 ^ (- Ef) <= 4 * X (Max (Bounds src)) * Mf -> x = BX)
    /\ ((4 * BY - 1) * 2 ^ (- Ef) <= 4 * Y (Max (Bounds src)) * Mf -> y = BY).
Proof.
  intros Hf HEf HX HY HBX HBY.
  destruct (scaled_at_most _ BX _ Mf Ef HX Hf HEf HBX) as (x & Hx & Hxb & Hxe).
  destruct (scaled_at_most _ BY _ Mf Ef HY Hf HEf HBY) as (y & Hy & Hyb & Hye).
  exists x, y. unfold Image_bounds, getScaledXY.
  rewrite (eqb_normal_zero _ _ _ Hf). cbv zeta.
  rewrite !to_int_Round, Hx, Hy. cbn [mbind option_bind].
  repeat split; try assumption; lia.
Qed.

(** X24.  The window of the command preview, when the image does not
    fit: for a window and an image of sides from 1 to [2^31 - 1] and
    the factor 1.0 that [validate] sets, the image [FileToWindow]
    returns fits the window and is not larger than the source.  When
    the source is wider or higher than the window, the result is as
    wide as the window or as high: the smaller of the two ratios is
    used, and the divisions, the products and the rounding in
    [float64] lose nothing that counts.  When the source fits, it
    keeps its size. *)
Theorem FileToWindow_fits (src : Image) (opts : ScaleOpts) :
  Factor opts = 1%float ->
  0 < Width opts < 2 ^ 31 -> 0 < Height opts < 2 ^ 31 ->
  0 < X (Max (Bounds src)) < 2 ^ 31 -> 0 < Y (Max (Bounds src)) < 2 ^ 31 ->
  exists x y,
    FileToWindow src opts = Some (Rect 0 0 x y)
    /\ 0 <= x <= Width opts /\ 0 <= y <= Height opts
    /\ x <= X (Max (Bounds src)) /\ y <= Y (Max (Bounds src))
    /\ (Width opts < X (Max (Bounds src))
        \/ Height opts < Y (Max (Bounds src)) ->
        x = Width opts \/ y = Height opts)
    /\ (X (Max (Bounds src)) <= Width opts ->
        Y (Max (Bounds src)) <= Height opts ->
        x = X (Max (Bounds src)) /\ y = Y (Max (Bounds src))).
Proof.
  intros HF HW HH HX HY.
  set (W := Width opts) in *. set (H := Height opts) in *.
  set (SX := X (Max (Bounds src))) in *.
  set (SY := Y (Max (Bounds src))) in *.
  assert (2 ^ 31 < 2 ^ 63) as H3163 by reflexivity.
  assert (2 ^ 31 < 2 ^ 53) as H3153 by reflexivity.
  assert (2 ^ 32 = 2 * 2 ^ 31) as H32 by reflexivity.
  assert (forall E, E <= - 53 -> 2 ^ 53 <= 2 ^ (- E)) as Hbig
    by (intros E HE; apply pow2_le; lia).
  assert (2 ^ 53 = 2097152 * 2 ^ 32) as H53 by reflexivity.
  (* the two ratios, where they are computed *)
  assert (H < SY ->
          exists Mh Eh,
            normal (of_Z H / of_Z SY)%float Mh Eh /\ - 106 <= Eh <= - 53
            /\ 2 * Z.abs (Mh * SY - H * 2 ^ (- Eh)) <= SY
            /\ (of_Z H / of_Z SY <? 1)%float = true) as Hhf.
  { intros Hlt.
    destruct (div_normal H SY ltac:(lia) ltac:(lia))
      as (Mh & Eh & Hn & HEh & Hb).
    exists Mh, Eh. split; [exact Hn|]. split; [lia|]. split; [exact Hb|].
    apply (ltb_normal _ _ Mh Eh (2 ^ 52) (- 52) Hn one_normal);
      [lia | lia |].
    destruct Hn as [_ HMh]. specialize (Hbig Eh ltac:(lia)).
    change (- - 52) with 52.
    rewrite Z.mul_comm. apply Z.mul_lt_mono_pos_l; [reflexivity | lia]. }
  assert (W < SX ->
          exists Mw Ew,
            normal (of_Z W / of_Z SX)%float Mw Ew /\ - 106 <= Ew <= - 53
            /\ 2 * Z.abs (Mw * SX - W * 2 ^ (- Ew)) <= SX
            /\ (of_Z W / of_Z SX <? 1)%float = true) as Hwf.
  { intros Hlt.
    destruct (div_normal W SX ltac:(lia) ltac:(lia))
      as (Mw & Ew & Hn & HEw & Hb).
    exists Mw, Ew. split; [exact Hn|]. split; [lia|]. split; [exact Hb|].
    apply (ltb_normal _ _ Mw Ew (2 ^ 52) (- 52) Hn one_normal);
      [lia | lia |].
    destruct Hn as [_ HMw]. specialize (Hbig Ew ltac:(lia)).
    change (- - 52) with 52.
    rewrite Z.mul_comm. apply Z.mul_lt_mono_pos_l; [reflexivity | lia]. }
  (* a normal float below 1 is not above 1 *)
  assert (forall f M E, normal f M E -> E <= - 53 ->
                        (1 <? f)%float = false) as Hclamp.
  { intros f M E Hn HE.
    destruct (1 <? f)%float eqn:Hlt; [exfalso|reflexivity].
    apply (ltb_normal _ _ (2 ^ 52) (- 52) M E one_normal Hn) in Hlt;
      [|lia..].
    destruct Hn as [_ HM]. specialize (Hbig E HE).
    change (- - 52) with 52 in Hlt.
    assert (M * 2 ^ 52 < 2 ^ 53 * 2 ^ 52)
      by (apply Z.mul_lt_mono_pos_r; [reflexivity | lia]).
    assert (2 ^ 52 * 2 ^ 53 <= 2 ^ 52 * 2 ^ (- E))
      by (apply Z.mul_le_mono_nonneg_l; [discriminate | lia]).
    lia. }
  unfold FileToWindow, FileToWindow_opts. fold W H SX SY. rewrite HF.
  rewrite (proj2 (Z.eqb_neq W 0)), (proj2 (Z.eqb_neq H 0)) by lia.
  change (1 =? 0)%float with false. cbn [negb andb].
  rewrite !uint_of_int_small by lia.
  destruct (Z.ltb_spec H SY) as [HHY|HHY], (Z.ltb_spec W SX) as [HWX|HWX].
  - (* higher and wider than the window *)
    destruct (Hhf HHY) as (Mh & Eh & Hnh & HEh & Hbh & ->).
    destruct (Hwf HWX) as (Mw & Ew & Hnw & HEw & Hbw & _).
    pose proof (Hbig Eh ltac:(lia)) as HtH.
    pose proof (Hbig Ew ltac:(lia)) as HtW.
    pose proof Hnh as [_ HMh]. pose proof Hnw as [_ HMw].
    destruct (of_Z W / of_Z SX <? of_Z H / of_Z SY)%float eqn:Hcmp.
    + (* the width decides *)
      apply (ltb_normal _ _ Mw Ew Mh Eh Hnw Hnh) in Hcmp; [|lia..].
      rewrite (Hclamp _ Mw Ew Hnw ltac:(lia)).
      destruct (Image_bounds_scaled src
                  (mkScaleOpts 0 0 (of_Z W / of_Z SX)%float (mode opts))
                  Mw Ew W H Hnw ltac:(lia) HX HY)
        as (x & y & Hxy & Hx & Hy & Hxe & _); fold SX SY.
      * lia.
      * apply (Z.mul_le_mono_pos_r _ _ (2 ^ (- Eh))); [lia|].
        assert (4 * SY * (Mw * 2 ^ (- Eh)) <= 4 * SY * (Mh * 2 ^ (- Ew)))
          by (apply Z.mul_le_mono_nonneg_l; lia).
        assert (4 * (Mh * SY) * 2 ^ (- Ew)
                <= (4 * H * 2 ^ (- Eh) + 2 * SY) * 2 ^ (- Ew))
          by (apply Z.mul_le_mono_nonneg_r; lia).
        assert ((4 * H * 2 ^ (- Eh) + 2 * SY) * 2 ^ (- Ew)
                <= (4 * H + 1) * 2 ^ (- Eh) * 2 ^ (- Ew))
          by (apply Z.mul_le_mono_nonneg_r; lia).
        lia.
      * exists x, y. split; [exact Hxy|].
        assert (x = W) as -> by (apply Hxe; lia).
        repeat split; lia.
    + (* the height decides *)
      assert (Mh * 2 ^ (- Ew) <= Mw * 2 ^ (- Eh)) as Hcmp'.
      { destruct (Z_le_gt_dec (Mh * 2 ^ (- Ew)) (Mw * 2 ^ (- Eh)));
          [assumption|exfalso].
        assert ((of_Z W / of_Z SX <? of_Z H / of_Z SY)%float = true);
          [|congruence].
        apply (ltb_normal _ _ Mw Ew Mh Eh Hnw Hnh); lia. }
      rewrite (Hclamp _ Mh Eh Hnh ltac:(lia)).
      destruct (Image_bounds_scaled src
                  (mkScaleOpts 0 0 (of_Z H / of_Z SY)%float (mode opts))
                  Mh Eh W H Hnh ltac:(lia) HX HY)
        as (x & y & Hxy & Hx & Hy & _ & Hye); fold SX SY.
      * apply (Z.mul_le_mono_pos_r _ _ (2 ^ (- Ew))); [lia|].
        assert (4 * SX * (Mh * 2 ^ (- Ew)) <= 4 * SX * (Mw * 2 ^ (- Eh)))
          by (apply Z.mul_le_mono_nonneg_l; lia).
        assert (4 * (Mw * SX) * 2 ^ (- Eh)
                <= (4 * W * 2 ^ (- Ew) + 2 * SX) * 2 ^ (- Eh))
          by (apply Z.mul_le_mono_nonneg_r; lia).
        assert ((4 * W * 2 ^ (- Ew) + 2 * SX) * 2 ^ (- Eh)
                <= (4 * W + 1) * 2 ^ (- Ew) * 2 ^ (- Eh))
          by (apply Z.mul_le_mono_nonneg_r; lia).
        lia.
      * lia.
      * exists x, y. split; [exact Hxy|].
        assert (y = H) as -> by (apply Hye; lia).
        repeat split; lia.
  - (* higher than the window, not wider *)
    destruct (Hhf HHY) as (Mh & Eh & Hnh & HEh & Hbh & ->).
    pose proof (Hbig Eh ltac:(lia)) as HtH. pose proof Hnh as [_ HMh].
    rewrite (Hclamp _ Mh Eh Hnh ltac:(lia)).
    destruct (Image_bounds_scaled src
                (mkScaleOpts 0 0 (of_Z H / of_Z SY)%float (mode opts))
                Mh Eh SX H Hnh ltac:(lia) HX HY)
      as (x & y & Hxy & Hx & Hy & _ & Hye); fold SX SY.
    + assert (4 * SX * Mh <= 4 * SX * 2 ^ (- Eh))
        by (apply Z.mul_le_mono_nonneg_l; lia).
      lia.
    + lia.
    + exists x, y. split; [exact Hxy|].
      assert (y = H) as -> by (apply Hye; lia).
      repeat split; lia.
  - (* wider than the window, not higher *)
    destruct (Hwf HWX) as (Mw & Ew & Hnw & HEw & Hbw & ->).
    pose proof (Hbig Ew ltac:(lia)) as HtW. pose proof Hnw as [_ HMw].
    rewrite (Hclamp _ Mw Ew Hnw ltac:(lia)).
    destruct (Image_bounds_scaled src
                (mkScaleOpts 0 0 (of_Z W / of_Z SX)%float (mode opts))
                Mw Ew W SY Hnw ltac:(lia) HX HY)
      as (x & y & Hxy & Hx & Hy & Hxe & _); fold SX SY.
    + lia.
    + assert (4 * SY * Mw <= 4 * SY * 2 ^ (- Ew))
        by (apply Z.mul_le_mono_nonneg_l; lia).
      lia.
    + exists x, y. split; [exact Hxy|].
      assert (x = W) as -> by (apply Hxe; lia).
      repeat split; lia.
  - (* the image fits *)
    change (1 <? 1)%float with false. cbv iota.
    exists SX, SY. subst W H SX SY.
    unfold Image_bounds, getScaledXY. cbn [Factor].
    change (1 =? 0)%float with false. cbv zeta.
    destruct (to_int_of_Z (X (Max (Bounds src))) ltac:(lia))
      as (HiX & HrX & HmX).
    destruct (to_int_of_Z (Y (Max (Bounds src))) ltac:(lia))
      as (HiY & HrY & HmY).
    rewrite HmX, HmY, HrX, HrY, HiX, HiY.
    split; [reflexivity|]. repeat split; lia.
Qed.

Lemma FileToWindow_fits_witness :
  let src := mkImage (Rect 0 0 1920 1080) (fun _ _ => mkRGBA 0 0 0 0) in
  let opts := mkScaleOpts 200 85 1%float NearestNeighbourScaling in
  exists x y,
    FileToWindow src opts = Some (Rect 0 0 x y)
    /\ 0 <= x <= Width opts /\ 0 <= y <= Height opts
    /\ x <= X (Max (Bounds src)) /\ y <= Y (Max (Bounds src))
    /\ (Width opts < X (Max (Bounds src))
        \/ Height opts < Y (Max (Bounds src)) ->
        x = Width opts \/ y = Height opts)
    /\ (X (Max (Bounds src)) <= Width opts ->
        Y (Max (Bounds src)) <= Height opts ->
        x = X (Max (Bounds src)) /\ y = Y (Max (Bounds src))).
Proof.
  intros src opts.
  apply (FileToWindow_fits src opts); [reflexivity | split; reflexivity..].
Defined.

End window_properties.
